(** * Color palette generator: a shallow embedding of [ColorModel] and
      [ColorPaletteGenerator]

    The development follows the TypeScript sources of the package
    ([ColorModel], [ColorPaletteGenerator]) method by method.

    Conventions of the embedding.
    - A JavaScript [number] is an exact rational ([Q]), kept in lowest terms
      by the arithmetic operators; rounding of binary floating point, [NaN]
      and the infinities are not represented, but for the divisions of
      [rgbToCmyk], whose outcome is a [quotient].  The comparisons [==],
      [===], [<], [>] on numbers are [Js.eqb], [Js.le] and their negations.
    - [precision] and the [length] option are integers ([Z]), as their
      documentation describes them (a number of colors).
    - A string is a [string] of 8-bit characters.
    - The injected [rand] is the sequence of values its successive calls
      return; the number of calls made so far is threaded through as
      explicit state.  That the values are in the unit interval, as the
      documentation of [rand] asks, is a hypothesis ([unit_interval]) of the
      properties that need it.
    - A [while] loop runs on fuel: a call that does not return within the
      fuel is [Looping], and it loops for ever when it is [Looping] for
      every fuel.
    - [Array.prototype.sort] belongs to the host, not to the package: it is
      an interface ([ArraySort]) of which an insertion sort is one
      instance. *)

From Stdlib Require Import ZArith QArith Qround Qminmax Lia Lqa.
From Stdlib Require Import List Bool Ascii String Permutation.
Import ListNotations.

Local Open Scope Q_scope.

(** ** JavaScript numbers *)

Definition number : Set := Q.

Declare Scope js_scope.
Delimit Scope js_scope with js.
Bind Scope js_scope with number.

Module Js.

(** The four arithmetic operators and unary minus.  A result is kept in
    lowest terms, so that equal numbers are equal terms. *)
Definition add (x y : number) : number := Qred (x + y).
Definition sub (x y : number) : number := Qred (x - y).
Definition mul (x y : number) : number := Qred (x * y).
Definition div (x y : number) : number := Qred (x / y).
Definition neg (x : number) : number := Qred (- x).

Definition of_Z (n : Z) : number := inject_Z n.

(** [Math.floor]. *)
Definition floorZ (x : number) : Z := Qfloor x.
Definition floor (x : number) : number := inject_Z (floorZ x).

(** [Math.round]: the nearest integer, ties towards plus infinity. *)
Definition roundZ (x : number) : Z := Qfloor (x + (1 # 2)).
Definition round (x : number) : number := inject_Z (roundZ x).

(** Truncation towards zero, the integer quotient that [%] uses. *)
Definition trunc (x : number) : Z :=
  if Qle_bool 0 x then Qfloor x else Qceiling x.

(** The remainder operator [x % y]: the sign of the dividend. *)
Definition rem (x y : number) : number :=
  sub x (mul y (inject_Z (trunc (div x y)))).

(** [x == y], [x <= y], [x > y] and [x < y]. *)
Definition eqb (x y : number) : bool := Qeq_bool x y.
Definition le (x y : number) : bool := Qle_bool x y.
Definition gt (x y : number) : bool := negb (Qle_bool x y).
Definition lt (x y : number) : bool := negb (Qle_bool y x).

(** Truthiness of a number: every number but zero. *)
Definition truthy (x : number) : bool := negb (Qeq_bool x 0).

(** [Math.max] and [Math.min] of two numbers. *)
Definition max (x y : number) : number := if Qle_bool x y then y else x.
Definition min (x y : number) : number := if Qle_bool x y then x else y.

(** [cur + delta > max ? max : cur + delta < min ? min : cur + delta],
    the clamp that the adjustment methods write out. *)
Definition clamp (x hi lo : number) : number :=
  if gt x hi then hi else if lt x lo then lo else x.

End Js.

Infix "+" := Js.add : js_scope.
Infix "-" := Js.sub : js_scope.
Infix "*" := Js.mul : js_scope.
Infix "/" := Js.div : js_scope.
Notation "- x" := (Js.neg x) : js_scope.

Local Open Scope js_scope.

(** ** Hexadecimal digits and strings *)

Definition is_hex_digit (c : ascii) : bool :=
  let n := nat_of_ascii c in
  ((48 <=? n) && (n <=? 57) || (97 <=? n) && (n <=? 102)
   || (65 <=? n) && (n <=? 70))%nat.

(** Value of a hexadecimal digit; [parseInt] stops at any other character. *)
Definition hex_digit_value (c : ascii) : option Z :=
  let n := nat_of_ascii c in
  if ((48 <=? n) && (n <=? 57))%nat then Some (Z.of_nat n - 48)%Z
  else if ((97 <=? n) && (n <=? 102))%nat then Some (Z.of_nat n - 87)%Z
  else if ((65 <=? n) && (n <=? 70))%nat then Some (Z.of_nat n - 55)%Z
  else None.

(** [parseInt(s, 16)] on the digits the pattern captured: the value of the
    longest prefix of hexadecimal digits. *)
Fixpoint parseInt16_from (acc : Z) (s : string) : Z :=
  match s with
  | EmptyString => acc
  | String c rest =>
      match hex_digit_value c with
      | Some d => parseInt16_from (16 * acc + d)%Z rest
      | None => acc
      end
  end.

Definition parseInt16 (s : string) : number := Js.of_Z (parseInt16_from 0 s).

Definition hex_char (d : Z) : ascii :=
  if (d <? 10)%Z then ascii_of_nat (Z.to_nat (48 + d))
  else ascii_of_nat (Z.to_nat (87 + d)).

(** Digits of a non-negative integer in base 16, most significant first;
    the fuel is the number of digits that can be needed. *)
Fixpoint hex_digits (fuel : nat) (n : Z) (acc : string) : string :=
  match fuel with
  | O => acc
  | S fuel' =>
      let acc' := String (hex_char (n mod 16)) acc in
      if (n / 16 =? 0)%Z then acc' else hex_digits fuel' (n / 16)%Z acc'
  end.

(** [n.toString(16)] for an integer [n]. *)
Definition toString16 (n : Z) : string :=
  if (n <? 0)%Z
  then String "-" (hex_digits (S (Z.to_nat (Z.log2 (- n)))) (- n)%Z EmptyString)
  else hex_digits (S (Z.to_nat (Z.log2 n))) n EmptyString.

Fixpoint string_forallb (p : ascii -> bool) (s : string) : bool :=
  match s with
  | EmptyString => true
  | String c rest => p c && string_forallb p rest
  end.

(** ** Color representations *)

Record RGBColor := mkRGB { rgb_r : number; rgb_g : number; rgb_b : number }.
Record HSLColor := mkHSL { hsl_h : number; hsl_s : number; hsl_l : number }.
Record HSVColor := mkHSV { hsv_h : number; hsv_s : number; hsv_v : number }.
Record CMYKColor := mkCMYK {
  cmyk_c : number; cmyk_m : number; cmyk_y : number; cmyk_k : number
}.

(** What a division gives: a number, [NaN] (zero by zero) or an infinity
    (anything else by zero). *)
Inductive quotient : Type :=
| Finite (q : number)
| NotANumber
| Infinite.

Definition divide (x y : number) : quotient :=
  if Js.eqb y 0 then (if Js.eqb x 0 then NotANumber else Infinite)
  else Finite (x / y).

(** ** ColorModel *)

Module ColorModel.

(** The four private fields [#hex], [#rgb], [#hsl], [#hsv]. *)
Record t := mk {
  hex : string;
  rgb : RGBColor;
  hsl : HSLColor;
  hsv : HSVColor
}.

(** *** HEX and RGB *)

Definition toHex (x : number) : string :=
  let hx := toString16 (Js.roundZ x) in
  if (String.length hx =? 1)%nat then String "0" hx else hx.

Definition rgbToHex (c : RGBColor) : string :=
  String "#" (toHex (rgb_r c) ++ toHex (rgb_g c) ++ toHex (rgb_b c)).

(** The pattern [/^#?([a-f\d]{2})([a-f\d]{2})([a-f\d]{2})$/i]: an optional
    [#], then exactly six hexadecimal digits up to the end of the input.
    The result is the three captured groups. *)
Definition six_hex_groups (s : string) : option (string * string * string) :=
  if (String.length s =? 6)%nat && string_forallb is_hex_digit s
  then Some (substring 0 2 s, substring 2 2 s, substring 4 2 s)
  else None.

Definition hex_pattern_exec (hexCode : string)
  : option (string * string * string) :=
  match hexCode with
  | String "#" rest =>
      (* the optional [#] is taken; without it [#] itself would have to be
         a hexadecimal digit *)
      six_hex_groups rest
  | _ => six_hex_groups hexCode
  end.

Definition hexToRgb (hexCode : string) : RGBColor :=
  match hex_pattern_exec hexCode with
  | Some (g1, g2, g3) => mkRGB (parseInt16 g1) (parseInt16 g2) (parseInt16 g3)
  | None => mkRGB 0 0 0
  end.

(** *** RGB and HSL *)

Definition rgbToHsl (c : RGBColor) : HSLColor :=
  let r := rgb_r c / 255 in
  let g := rgb_g c / 255 in
  let b := rgb_b c / 255 in
  let max := Js.max (Js.max r g) b in
  let min := Js.min (Js.min r g) b in
  let l := (max + min) / 2 in
  let '(h, s) :=
    if Js.eqb max min then (0, 0)
    else
      let d := max - min in
      let s := if Js.gt l (1 # 2) then d / (2 - max - min) else d / (max + min) in
      let h :=
        if Js.eqb max r then (g - b) / d + (if Js.lt g b then 6 else 0)
        else if Js.eqb max g then (b - r) / d + 2
        else (r - g) / d + 4 in
      (h / 6, s) in
  mkHSL (Js.floor (h * 360)) (Js.floor (s * 100)) (Js.floor (l * 100)).

Definition hue2rgb (p q t : number) : number :=
  let t := if Js.lt t 0 then t + 1 else t in
  let t := if Js.gt t 1 then t - 1 else t in
  if Js.lt t (1 / 6) then p + (q - p) * 6 * t
  else if Js.lt t (1 / 2) then q
  else if Js.lt t (2 / 3) then p + (q - p) * (2 / 3 - t) * 6
  else p.

Definition hslToRgb (c : HSLColor) : RGBColor :=
  let h := hsl_h c / 360 in
  let s := hsl_s c / 100 in
  let l := hsl_l c / 100 in
  let '(r, g, b) :=
    if Js.eqb s 0 then (l, l, l)
    else
      let q := if Js.lt l (1 # 2) then l * (1 + s) else l + s - l * s in
      let p := 2 * l - q in
      (hue2rgb p q (h + 1 / 3), hue2rgb p q h, hue2rgb p q (h - 1 / 3)) in
  mkRGB (r * 255) (g * 255) (b * 255).

(** *** HSL and HSV *)

Definition hslToHsv (c : HSLColor) : HSVColor :=
  let L := hsl_l c / 100 in
  let V := hsl_s c / 100 * Js.min L (1 - L) + L in
  mkHSV (hsl_h c)
        (if Js.truthy V then 100 * (2 - 2 * L / V) else 0)
        (V * 100).

Definition hsvToHsl (c : HSVColor) : HSLColor :=
  let V := hsv_v c / 100 in
  let L := V - V * hsv_s c / 200 in
  let m := Js.min L (1 - L) in
  mkHSL (hsv_h c)
        (if Js.truthy m then 100 * (V - L) / m else 0)
        (L * 100).

(** *** CMYK *)

(** One of the channels [c], [m], [y] of [rgbToCmyk]: [(x - k) / (1 - k)],
    scaled to a percentage with two decimals unless [normalized], and [0]
    where the division gave [NaN].  [None] where it gave an infinity, which
    a [number] does not represent. *)
Definition cmykChannel (x k : number) (normalized : bool) : option number :=
  match divide (x - k) (1 - k) with
  | Finite q => Some (if normalized then q else Js.round (q * 10000) / 100)
  | NotANumber => Some 0
  | Infinite => None
  end.

Definition rgbToCmyk (rgb : RGBColor) (normalized : bool) : option CMYKColor :=
  let c := 1 - rgb_r rgb / 255 in
  let m := 1 - rgb_g rgb / 255 in
  let y := 1 - rgb_b rgb / 255 in
  let k := Js.min c (Js.min m y) in
  match cmykChannel c k normalized, cmykChannel m k normalized,
        cmykChannel y k normalized with
  | Some c', Some m', Some y' =>
      Some (mkCMYK c' m' y'
                   (if normalized then k else Js.round (k * 10000) / 100))
  | _, _, _ => None
  end.

Definition cmykToRgb (cmyk : CMYKColor) (normalized : bool) : RGBColor :=
  let c := cmyk_c cmyk / 100 in
  let m := cmyk_m cmyk / 100 in
  let y := cmyk_y cmyk / 100 in
  let k := cmyk_k cmyk / 100 in
  let c := c * (1 - k) + k in
  let m := m * (1 - k) + k in
  let y := y * (1 - k) + k in
  let r := 1 - c in
  let g := 1 - m in
  let b := 1 - y in
  if normalized then mkRGB r g b
  else mkRGB (Js.round (255 * r)) (Js.round (255 * g)) (Js.round (255 * b)).

(** *** Writes to the private fields *)

Definition write_hex (x : string) (c : t) : t := mk x (rgb c) (hsl c) (hsv c).
Definition write_rgb (x : RGBColor) (c : t) : t := mk (hex c) x (hsl c) (hsv c).
Definition write_hsl (x : HSLColor) (c : t) : t := mk (hex c) (rgb c) x (hsv c).
Definition write_hsv (x : HSVColor) (c : t) : t := mk (hex c) (rgb c) (hsl c) x.

(** *** The setters: each one stores its argument and recomputes the three
    other representations, in the order of the source. *)

Definition set_hex (value : string) (c : t) : t :=
  let c := write_hex value c in
  let c := write_rgb (hexToRgb value) c in
  let c := write_hsl (rgbToHsl (rgb c)) c in
  write_hsv (hslToHsv (hsl c)) c.

Definition set_rgb (value : RGBColor) (c : t) : t :=
  let c := write_rgb value c in
  let c := write_hex (rgbToHex value) c in
  let c := write_hsl (rgbToHsl value) c in
  write_hsv (hslToHsv (hsl c)) c.

Definition set_hsl (value : HSLColor) (c : t) : t :=
  let c := write_hsl value c in
  let c := write_rgb (hslToRgb value) c in
  let c := write_hex (rgbToHex (rgb c)) c in
  write_hsv (hslToHsv value) c.

Definition set_hsv (value : HSVColor) (c : t) : t :=
  let c := write_hsv value c in
  let c := write_hsl (hsvToHsl value) c in
  let c := write_rgb (hslToRgb (hsl c)) c in
  write_hex (rgbToHex (rgb c)) c.

(** The object before the constructor body runs: no field is set yet. *)
Definition blank : t :=
  mk EmptyString (mkRGB 0 0 0) (mkHSL 0 0 0) (mkHSV 0 0 0).

(** [new ColorModel(hexCode)]. *)
Definition new (hexCode : string) : t := set_hex hexCode blank.

(** [new ColorModel()]. *)
Definition new_default : t := new "#000000".

(** *** Utilities *)

Definition clone (c : t) : t := new (hex c).

Definition equals (c color : t) : bool := String.eqb (hex c) (hex color).

(** In-place writes to a field of the stored [hsv] and [hsl] objects. *)
Definition write_hsv_s (x : number) (c : t) : t :=
  write_hsv (mkHSV (hsv_h (hsv c)) x (hsv_v (hsv c))) c.

Definition write_hsl_s (x : number) (c : t) : t :=
  write_hsl (mkHSL (hsl_h (hsl c)) x (hsl_l (hsl c))) c.

Definition write_hsl_l (x : number) (c : t) : t :=
  write_hsl (mkHSL (hsl_h (hsl c)) (hsl_s (hsl c)) x) c.

Definition saturate (saturation max min : number) (c : t) : t :=
  let currentSat := hsv_s (hsv c) in
  let c1 := write_hsv_s (Js.clamp (currentSat + saturation) max min) c in
  set_hsl (hsvToHsl (hsv c1)) c1.

Definition brighten (brightness max min : number) (c : t) : t :=
  let currentBrightness := hsv_v (hsv c) in
  let c1 := write_hsl_l (Js.clamp (currentBrightness + brightness) max min) c in
  set_hsl (hsvToHsl (hsv c1)) c1.

Definition saturateHsl (saturation max min : number) (c : t) : t :=
  let currentSat := hsl_s (hsl c) in
  let c1 := write_hsl_s (Js.clamp (currentSat + saturation) max min) c in
  set_rgb (hslToRgb (hsl c1)) c1.

Definition lighten (lightness max min : number) (c : t) : t :=
  let currentLightness := hsl_l (hsl c) in
  let c1 := write_hsl_l (Js.clamp (currentLightness + lightness) max min) c in
  set_rgb (hslToRgb (hsl c1)) c1.

Definition addToHue (h add : number) : number :=
  if Js.gt (h + add) 360 then Js.rem (h + add) 360
  else if Js.lt (h + add) 0 then 360 + h + add
  else h + add.

End ColorModel.


(** ** The host's [Array.prototype.sort]

    The comparator may call [rand]: it takes the number of calls made so far
    and returns it updated.  The host decides which pairs it compares; what
    the package relies on is that the result holds the same elements and
    that the host is a deterministic function of the comparator's answers. *)

Class ArraySort := {
  sort : forall {A : Type}, (A -> A -> nat -> number * nat) -> list A -> nat -> list A * nat;
  sort_permutation :
    forall (A : Type) (cmp : A -> A -> nat -> number * nat) (l : list A) (k : nat),
      Permutation (fst (sort cmp l k)) l;
  sort_ext :
    forall (A : Type) (cmp cmp' : A -> A -> nat -> number * nat) (l : list A) (k : nat),
      (forall a b n, cmp a b n = cmp' a b n) -> sort cmp l k = sort cmp' l k
}.

(** A stable insertion sort, one possible host. *)
Module InsertionSort.

Fixpoint insert {A : Type} (cmp : A -> A -> nat -> number * nat) (x : A)
         (l : list A) (k : nat) : list A * nat :=
  match l with
  | [] => ([x], k)
  | y :: l' =>
      let (c, k1) := cmp x y k in
      if Js.gt c 0
      then let (r, k2) := insert cmp x l' k1 in (y :: r, k2)
      else (x :: y :: l', k1)
  end.

Fixpoint sort {A : Type} (cmp : A -> A -> nat -> number * nat)
         (l : list A) (k : nat) : list A * nat :=
  match l with
  | [] => ([], k)
  | x :: l' => let (r, k1) := sort cmp l' k in insert cmp x r k1
  end.

End InsertionSort.

(** The insertion sort is a host sort. *)
#[export, refine] Instance insertionSort : ArraySort :=
  {| sort := @InsertionSort.sort |}.
Proof.
  - intros A cmp l k.
    assert (forall (x : A) (r : list A) (n : nat),
               Permutation (fst (InsertionSort.insert cmp x r n)) (x :: r)) as Ins.
    { intros x r. induction r as [|y r IH]; intros n; simpl.
      - apply Permutation_refl.
      - destruct (cmp x y n) as [c n1].
        destruct (Js.gt c 0).
        + specialize (IH n1).
          destruct (InsertionSort.insert cmp x r n1) as [r' n2]; simpl in *.
          apply Permutation_trans with (y :: x :: r).
          * now apply perm_skip.
          * apply perm_swap.
        + apply Permutation_refl. }
    induction l as [|x l IH]; simpl.
    + apply perm_nil.
    + destruct (InsertionSort.sort cmp l k) as [r k1]; simpl in *.
      apply Permutation_trans with (x :: r).
      * apply Ins.
      * now apply perm_skip.
  - intros A cmp cmp' l k H.
    assert (forall (x : A) (r : list A) (n : nat),
               InsertionSort.insert cmp x r n = InsertionSort.insert cmp' x r n) as Ins.
    { intros x r. induction r as [|y r IH]; intros n; simpl.
      - reflexivity.
      - rewrite H. destruct (cmp' x y n) as [c n1]. now rewrite IH. }
    induction l as [|x l IH]; simpl.
    + reflexivity.
    + rewrite IH. destruct (InsertionSort.sort cmp' l k) as [r k1]. apply Ins.
Defined.


(** ** Array helpers *)

(** [a.slice(0, n)]: a negative [n] counts from the end. *)
Definition slice0 {A : Type} (n : Z) (a : list A) : list A :=
  if (n <? 0)%Z then firstn (Z.to_nat (Z.of_nat (List.length a) + n)) a
  else firstn (Z.to_nat n) a.

(** [a.filter((c, index) => index % 2 === 1)]. *)
Fixpoint odd_indices {A : Type} (a : list A) : list A :=
  match a with
  | _ :: y :: rest => y :: odd_indices rest
  | _ => []
  end.

(** [a[0] = x]: an empty array is extended. *)
Definition set_first {A : Type} (x : A) (a : list A) : list A :=
  match a with
  | [] => [x]
  | _ :: rest => x :: rest
  end.

(** The values [1, 2, ..., n] of a loop [for (let i = 1; i <= n; i++)]. *)
Definition one_to (n : Z) : list Z := map Z.of_nat (seq 1 (Z.to_nat n)).

(** ** ColorPaletteGenerator *)

Definition ColorPalette := list ColorModel.t.

Record ColorPalettes := mkPalettes {
  base : ColorPalette;
  light : ColorPalette;
  dark : ColorPalette
}.

(** The constructor's parameter; an absent property is [None]. *)
Record ColorPaletteParams := mkParams {
  param_precision : option Z;
  param_hueRange : option number;
  param_baseColor : option string;
  param_baseSaturation : option number
}.

(** The option object of [getRandomPalette] and [getDistributedPalette], as
    the package's type declarations list its properties, with the defaults
    filled in.  A method reads the properties it destructures and ignores
    the others. *)
Record PaletteOptions := mkOptions {
  length : Z;
  includeBaseColor : bool;
  filterPasses : bool;
  sortByBrightness : bool;
  minBrightness : number;
  maxBrightness : number;
  minSaturation : number;
  maxSaturation : number
}.

Definition defaultOptions : PaletteOptions :=
  mkOptions 4 false true true 0 100 0 100.

(** How a call that may loop ends: with a value and the updated number of
    calls to [rand]; without an answer within the fuel given to each
    [while] loop; or at an index past the end of a band, where the source
    reads [undefined] (and throws on [undefined.equals], or goes on with
    [undefined] in the palette).  A [rand] with values in the unit interval
    never gives such an index ([sampleBand_not_undefined]). *)
Inductive outcome (A : Type) : Type :=
| Done (a : A) (k : nat)
| Looping
| Undefined.

Arguments Done {A} a k.
Arguments Looping {A}.
Arguments Undefined {A}.

Module ColorPaletteGenerator.

(** The fields of a generator besides [rand]. *)
Record t := mk {
  precision : Z;
  hueRange : number;
  baseColor : ColorModel.t;
  palettes : ColorPalettes
}.

Definition with_baseColor (c : ColorModel.t) (g : t) : t :=
  mk (precision g) (hueRange g) c (palettes g).

Definition with_palettes (p : ColorPalettes) (g : t) : t :=
  mk (precision g) (hueRange g) (baseColor g) p.

Definition clamp100 (x : number) : number := Js.max 0 (Js.min 100 x).

Definition basePalette (g : t) : ColorPalette := base (palettes g).
Definition lightPalette (g : t) : ColorPalette := light (palettes g).
Definition darkPalette (g : t) : ColorPalette := dark (palettes g).

Definition fullPalette (g : t) : ColorPalette :=
  light (palettes g) ++ base (palettes g) ++ dark (palettes g).

Definition setBaseColor (baseColor : option string)
           (baseSaturation : option number) (g : t) : t :=
  let c := ColorModel.new (match baseColor with Some b => b | None => "#000000"%string end) in
  (* the default [null] of [baseSaturation] is not [undefined], so
     [saturate] is always called; [null] adds as zero *)
  with_baseColor
    (ColorModel.saturate (match baseSaturation with Some s => s | None => 0 end)
                         100 0 c) g.

(** The first loop of [generateBasePalette]: the color of step [i]. *)
Definition baseColorUp (g : t) (hueStep endSaturation endValue : number) (i : Z)
  : ColorModel.t :=
  let bs := hsv_s (ColorModel.hsv (baseColor g)) in
  let bv := hsv_v (ColorModel.hsv (baseColor g)) in
  let p := Js.of_Z (precision g) in
  let h := ColorModel.addToHue (hsv_h (ColorModel.hsv (baseColor g)))
                               (hueStep * Js.of_Z i) in
  let s := clamp100 (bs - (Js.of_Z i * (bs - endSaturation)) / p) in
  let v := clamp100 (bv + (Js.of_Z i * (endValue - bv)) / p) in
  ColorModel.set_hsv (mkHSV h s v) ColorModel.new_default.

(** The second loop of [generateBasePalette]. *)
Definition baseColorDown (g : t) (hueStep endSaturation endValue : number) (i : Z)
  : ColorModel.t :=
  let bs := hsv_s (ColorModel.hsv (baseColor g)) in
  let bv := hsv_v (ColorModel.hsv (baseColor g)) in
  let p := Js.of_Z (precision g) in
  let h := ColorModel.addToHue (hsv_h (ColorModel.hsv (baseColor g)))
                               (- hueStep * Js.of_Z i) in
  let s := clamp100 (bs + (Js.of_Z i * (endSaturation - bs)) / p) in
  let v := clamp100 (bv - (Js.of_Z i * (bv - endValue)) / p) in
  ColorModel.set_hsv (mkHSV h s v) ColorModel.new_default.

Definition lightColor (hue saturation value : number) (b : ColorModel.t)
  : ColorModel.t :=
  let color := ColorModel.new (ColorModel.hex b) in
  ColorModel.set_hsv
    (mkHSV (ColorModel.addToHue (hsv_h (ColorModel.hsv color)) (- hue))
           (clamp100 (hsv_s (ColorModel.hsv color) - saturation))
           (clamp100 (hsv_v (ColorModel.hsv color) + value)))
    color.

Definition darkColor (hue saturation value : number) (b : ColorModel.t)
  : ColorModel.t :=
  let color := ColorModel.new (ColorModel.hex b) in
  ColorModel.set_hsv
    (mkHSV (ColorModel.addToHue (hsv_h (ColorModel.hsv color)) hue)
           (clamp100 (hsv_s (ColorModel.hsv color) + saturation))
           (clamp100 (hsv_v (ColorModel.hsv color) - value)))
    color.

(** The saturation filters shared by the two selection methods. *)
Definition saturationFilter (o : PaletteOptions) (p : ColorPalette)
  : ColorPalette :=
  filter (fun c => Js.le (hsv_s (ColorModel.hsv c)) (maxSaturation o))
    (filter (fun c => Js.le (minSaturation o) (hsv_s (ColorModel.hsv c))) p).

Definition has (color : ColorModel.t) (p : ColorPalette) : bool :=
  existsb (fun c => ColorModel.equals c color) p.

Section WithRand.

Context {HS : ArraySort}.

(** [rand k] is the value of the call to [this.rand()] number [k]. *)
Variable rand : nat -> number.

(** Computations that call [rand]: the state is the number of calls made. *)
Definition M (A : Type) : Type := nat -> A * nat.

Definition ret {A : Type} (a : A) : M A := fun k => (a, k).

Definition bind {A B : Type} (m : M A) (f : A -> M B) : M B :=
  fun k => let (a, k') := m k in f a k'.

Definition callRand : M number := fun k => (rand k, S k).

Notation "x <- m ;; f" := (bind m (fun x => f))
  (at level 61, m at next level, right associativity).

Definition generateBasePalette (g : t) : M t :=
  let base0 := base (palettes g) ++ [baseColor g] in
  let hueStep := (hueRange g * (1 # 2)) / Js.of_Z (precision g) in
  r1 <- callRand ;;
  r2 <- callRand ;;
  let endSaturation := r1 * 5 + (45 # 2) in
  let endValue := r2 * (15 # 2) + 90 in
  let base1 :=
    fold_left (fun acc i => baseColorUp g hueStep endSaturation endValue i :: acc)
              (one_to (precision g)) base0 in
  r3 <- callRand ;;
  r4 <- callRand ;;
  let endSaturation := r3 * (15 # 2) + 90 in
  let endValue := r4 * 5 + (45 # 2) in
  let base2 :=
    fold_left (fun acc i => acc ++ [baseColorDown g hueStep endSaturation endValue i])
              (one_to (precision g)) base1 in
  ret (with_palettes (mkPalettes base2 (light (palettes g)) (dark (palettes g))) g).

Definition generateLightPalette (g : t) : M t :=
  r1 <- callRand ;;
  r2 <- callRand ;;
  r3 <- callRand ;;
  let hue := r1 * 5 + (15 # 2) in
  let saturation := r2 * (15 # 2) + (45 # 2) in
  let value := r3 * (15 # 2) + (55 # 2) in
  ret (with_palettes
         (mkPalettes (base (palettes g))
                     (light (palettes g)
                      ++ map (lightColor hue saturation value) (base (palettes g)))
                     (dark (palettes g))) g).

Definition generateDarkPalette (g : t) : M t :=
  r1 <- callRand ;;
  r2 <- callRand ;;
  r3 <- callRand ;;
  let hue := r1 * 5 + (15 # 2) in
  let saturation := r2 * (15 # 2) + (45 # 2) in
  let value := r3 * (15 # 2) + (55 # 2) in
  ret (with_palettes
         (mkPalettes (base (palettes g))
                     (light (palettes g))
                     (dark (palettes g)
                      ++ map (darkColor hue saturation value) (base (palettes g)))) g).

Definition generatePalettes (g : t) : M t :=
  let g0 := with_palettes (mkPalettes [] [] []) g in
  g1 <- generateBasePalette g0 ;;
  g2 <- generateLightPalette g1 ;;
  generateDarkPalette g2.

(** [new ColorPaletteGenerator(params)]. *)
Definition constructor (p : ColorPaletteParams) : M t :=
  let g0 := mk (match param_precision p with Some n => n | None => 4%Z end)
               (match param_hueRange p with Some x => x | None => 180 end)
               ColorModel.blank (mkPalettes [] [] []) in
  match param_baseColor p with
  | Some (String c rest as bc) =>
      generatePalettes (setBaseColor (Some bc) (param_baseSaturation p) g0)
  | _ =>
      (* no base color, or the empty string, which is falsy *)
      let g1 := setBaseColor None None g0 in
      r1 <- callRand ;;
      s <- match param_baseSaturation p with
           | Some s => ret s
           | None => r <- callRand ;; ret (Js.round (r * 20 + 65))
           end ;;
      r3 <- callRand ;;
      let hsv := mkHSV (Js.round (r1 * 100 * (36 # 10))) s
                       (Js.round (r3 * 20 + 65)) in
      generatePalettes (with_baseColor (ColorModel.set_hsv hsv (baseColor g1)) g1)
  end.

(** The comparator [() => this.rand() - 0.5] of the shuffles. *)
Definition shuffleCompare (a b : ColorModel.t) : M number :=
  r <- callRand ;; ret (r - (1 # 2)).

(** The comparator [(a, b) => a.hsv.v - b.hsv.v]. *)
Definition brightnessCompare (a b : ColorModel.t) : M number :=
  ret (hsv_v (ColorModel.hsv a) - hsv_v (ColorModel.hsv b)).

Definition getRandomPalette (g : t) (o : PaletteOptions) : M ColorPalette :=
  let length := if (length o <? 1)%Z then 1%Z else length o in
  let randomPalette := saturationFilter o (fullPalette g) in
  let randomPalette :=
    if filterPasses o && (2 <? precision g)%Z
    then odd_indices (odd_indices randomPalette)
    else randomPalette in
  randomPalette <- sort shuffleCompare randomPalette ;;
  let randomPalette := slice0 length randomPalette in
  let randomPalette :=
    if includeBaseColor o && negb (has (baseColor g) randomPalette)
    then set_first (baseColor g) randomPalette
    else randomPalette in
  if sortByBrightness o
  then sort brightnessCompare randomPalette
  else ret randomPalette.

(** [array[index]]: [None] stands for [undefined]. *)
Definition lookup (array : ColorPalette) (index : Z) : option ColorModel.t :=
  if (index <? 0)%Z then None else nth_error array (Z.to_nat index).

Definition getRandomIndex (array : ColorPalette) : M Z :=
  r <- callRand ;;
  ret (Js.floorZ (r * Js.of_Z (Z.of_nat (List.length array)))).

(** The test of the rejection loop once an index has been drawn:
    [indexes.includes(index) ||
     (includeBaseColor && array[index].equals(this.baseColor))];
    [None] when [array[index]] is [undefined] and [equals] is called
    on it. *)
Definition rejected (includeBaseColor : bool) (seed : ColorModel.t)
           (array : ColorPalette) (indexes : list Z) (index : Z)
  : option bool :=
  if existsb (Z.eqb index) indexes then Some true
  else if includeBaseColor
       then match lookup array index with
            | Some c => Some (ColorModel.equals c seed)
            | None => None
            end
       else Some false.

(** The loop [while (index === null || ...) index = getRandomIndex(array)];
    [fuel] bounds the number of draws. *)
Fixpoint sampleIndex (fuel : nat) (includeBaseColor : bool)
         (seed : ColorModel.t) (array : ColorPalette) (indexes : list Z)
         (k : nat) : outcome Z :=
  match fuel with
  | O => Looping
  | S fuel' =>
      let (index, k1) := getRandomIndex array k in
      match rejected includeBaseColor seed array indexes index with
      | Some true => sampleIndex fuel' includeBaseColor seed array indexes k1
      | Some false => Done index k1
      | None => Undefined
      end
  end.

(** The [for] loop of one band, [iterations] rounds: each round draws an
    index, records it and pushes the color onto the returned palette. *)
Fixpoint sampleBand (fuel : nat) (includeBaseColor : bool)
         (seed : ColorModel.t) (array : ColorPalette) (iterations : nat)
         (indexes : list Z) (returnedPalette : ColorPalette) (k : nat)
  : outcome ColorPalette :=
  match iterations with
  | O => Done returnedPalette k
  | S n =>
      match sampleIndex fuel includeBaseColor seed array indexes k with
      | Done index k1 =>
          match lookup array index with
          | Some c =>
              sampleBand fuel includeBaseColor seed array n
                         (indexes ++ [index]) (returnedPalette ++ [c]) k1
          | None => Undefined
          end
      | Looping => Looping
      | Undefined => Undefined
      end
  end.

(** The three brightness bands. *)
Definition darkBand (p : ColorPalette) : ColorPalette :=
  filter (fun c => Js.le (hsv_v (ColorModel.hsv c)) (75 # 2)) p.

Definition lightBand (p : ColorPalette) : ColorPalette :=
  filter (fun c => Js.le (175 # 2) (hsv_v (ColorModel.hsv c))) p.

Definition baseBand (p : ColorPalette) : ColorPalette :=
  filter (fun c => Js.gt (hsv_v (ColorModel.hsv c)) (75 # 2)
                   && Js.lt (hsv_v (ColorModel.hsv c)) (175 # 2)) p.

(** [Math.min(array.length, n)] as a number of rounds. *)
Definition iterations (array : ColorPalette) (n : Z) : nat :=
  Z.to_nat (Z.min (Z.of_nat (List.length array)) n).

(** The rounds of the dark and of the light band, which are skipped
    when the band is empty. *)
Definition guardedIterations (array : ColorPalette) (n : Z) : nat :=
  match array with
  | [] => O
  | _ => iterations array n
  end.

(** The target length after the base color has been reserved. *)
Definition targetLength (o : PaletteOptions) : Z :=
  if includeBaseColor o then Z.max 0 (length o - 1) else length o.

Definition getDistributedPalette (fuel : nat) (g : t) (o : PaletteOptions)
           (k : nat) : outcome ColorPalette :=
  let returnedPalette := if includeBaseColor o then [baseColor g] else [] in
  let length := targetLength o in
  let fullPalette := saturationFilter o (fullPalette g) in
  if (Z.of_nat (List.length fullPalette) <=? length + 1)%Z
  then
    let (shuffled, k1) := sort shuffleCompare fullPalette k in
    Done (slice0 length shuffled) k1
  else
    let darkPalette := darkBand fullPalette in
    let lightPalette := lightBand fullPalette in
    let basePalette := baseBand fullPalette in
    let inc := includeBaseColor o in
    let darkIterations := guardedIterations darkPalette (length / 4)%Z in
    match sampleBand fuel inc (baseColor g) darkPalette darkIterations
                     [] returnedPalette k with
    | Done returnedPalette k1 =>
        let lightIterations := guardedIterations lightPalette (length / 4)%Z in
        match sampleBand fuel inc (baseColor g) lightPalette lightIterations
                         [] returnedPalette k1 with
        | Done returnedPalette k2 =>
            let nbColors := Z.of_nat (darkIterations + lightIterations) in
            let baseIterations := iterations basePalette (length - nbColors)%Z in
            match sampleBand fuel inc (baseColor g) basePalette baseIterations
                             [] returnedPalette k2 with
            | Done returnedPalette k3 =>
                if sortByBrightness o
                then let (sorted, k4) := sort brightnessCompare returnedPalette k3 in
                     Done sorted k4
                else Done returnedPalette k3
            | Looping => Looping
            | Undefined => Undefined
            end
        | Looping => Looping
        | Undefined => Undefined
        end
    | Looping => Looping
    | Undefined => Undefined
    end.

End WithRand.

(** The selection of [getRandomPalette] in the package's UMD bundle, which
    also filters by brightness. *)
Module Umd.

Definition brightnessFilter (o : PaletteOptions) (p : ColorPalette)
  : ColorPalette :=
  filter (fun c => Js.le (hsv_v (ColorModel.hsv c)) (maxBrightness o))
    (filter (fun c => Js.le (minBrightness o) (hsv_v (ColorModel.hsv c))) p).

Definition getRandomPalette {HS : ArraySort} (rand : nat -> number) (g : t)
           (o : PaletteOptions) : M ColorPalette :=
  let length := if (length o <? 1)%Z then 1%Z else length o in
  let randomPalette :=
    saturationFilter o (brightnessFilter o (fullPalette g)) in
  let randomPalette :=
    if filterPasses o && (2 <? precision g)%Z
    then odd_indices (odd_indices randomPalette)
    else randomPalette in
  bind (sort (shuffleCompare rand) randomPalette) (fun randomPalette =>
  let randomPalette := slice0 length randomPalette in
  let randomPalette :=
    if includeBaseColor o && negb (has (baseColor g) randomPalette)
    then set_first (baseColor g) randomPalette
    else randomPalette in
  if sortByBrightness o
  then sort brightnessCompare randomPalette
  else ret randomPalette).

End Umd.

End ColorPaletteGenerator.


(** * Vocabulary of the properties *)

(** The characters that [[a-f\d]] accepts under the [i] flag. *)
Definition hex_alphabet : list ascii :=
  list_ascii_of_string "0123456789abcdefABCDEF".

(** [s] is six hexadecimal digits. *)
Definition SixHexDigits (s : string) : Prop :=
  String.length s = 6%nat /\ Forall (fun c => In c hex_alphabet) (list_ascii_of_string s).

(** [s] matches the pattern of [hexToRgb]: six hexadecimal digits, after an
    optional [#]. *)
Definition HexPattern (s : string) : Prop :=
  SixHexDigits s \/ exists rest, s = String "#" rest /\ SixHexDigits rest.

(** The position of [c] in [l]. *)
Fixpoint index_of (c : ascii) (l : list ascii) : option Z :=
  match l with
  | [] => None
  | x :: rest =>
      if Ascii.eqb c x then Some 0%Z
      else option_map Z.succ (index_of c rest)
  end.

(** The value of a hexadecimal digit, read off the two alphabets. *)
Definition digit_value (c : ascii) : Z :=
  match index_of c (list_ascii_of_string "0123456789abcdef") with
  | Some v => v
  | None =>
      match index_of c (list_ascii_of_string "0123456789ABCDEF") with
      | Some v => v
      | None => 0%Z
      end
  end.

(** The number that two hexadecimal digits denote. *)
Definition byte_value (hi lo : ascii) : number :=
  Js.of_Z (16 * digit_value hi + digit_value lo).

Definition string_of_digits (l : list ascii) : string := string_of_list_ascii l.

(** The HSV triple that [saturate] aims for. *)
Definition saturateTarget (delta max min : number) (c : ColorModel.t) : HSVColor :=
  mkHSV (hsv_h (ColorModel.hsv c))
        (Js.clamp (hsv_s (ColorModel.hsv c) + delta) max min)
        (hsv_v (ColorModel.hsv c)).

(** The colors that are shuffled. *)
Definition randomCandidates (g : ColorPaletteGenerator.t) (o : PaletteOptions)
  : ColorPalette :=
  let pool := ColorPaletteGenerator.saturationFilter o
                (ColorPaletteGenerator.fullPalette g) in
  if filterPasses o && (2 <? ColorPaletteGenerator.precision g)%Z
  then odd_indices (odd_indices pool)
  else pool.

(** The index that a draw [r] gives in a band of [n] colors. *)
Definition indexOf (r : number) (n : nat) : Z :=
  Js.floorZ (r * Js.of_Z (Z.of_nat n)).

(** Every value of [rand] is in the unit interval. *)
Definition unit_interval (rand : nat -> number) : Prop :=
  forall k, (0 <= rand k)%Q /\ (rand k < 1)%Q.

(** Up to bands of [N] colors, every index keeps coming back: whatever the
    position [k] in the sequence, the size [n] of the band and the index [j]
    below it, some draw from [k] on gives [j]. *)
Definition fair (N : nat) (rand : nat -> number) : Prop :=
  forall n j k, (j < n)%nat -> (n <= N)%nat ->
    exists k', (k <= k')%nat /\ indexOf (rand k') n = Z.of_nat j.

(** The positions of [l], counted from [start], whose element satisfies
    [p]. *)
Fixpoint positions {A : Type} (p : A -> bool) (l : list A) (start : Z) : list Z :=
  match l with
  | [] => []
  | x :: rest =>
      if p x then start :: positions p rest (start + 1)
      else positions p rest (start + 1)
  end.

(** The colors of a band that a draw may return: all of them, or with
    [includeBaseColor] those that are not equal to the base color. *)
Definition admissible (inc : bool) (seed : ColorModel.t) (c : ColorModel.t) : bool :=
  negb (inc && ColorModel.equals c seed).

(** The colors of a band other than the base color. *)
Definition seedFree (seed : ColorModel.t) (array : ColorPalette) : nat :=
  List.length (filter (fun c => negb (ColorModel.equals c seed)) array).

(** Each band holds at least as many colors other than the base color as
    the call asks it for. *)
Definition enoughCandidates (g : ColorPaletteGenerator.t) (o : PaletteOptions) : Prop :=
  let pool := ColorPaletteGenerator.saturationFilter o
                (ColorPaletteGenerator.fullPalette g) in
  let target := ColorPaletteGenerator.targetLength o in
  let seed := ColorPaletteGenerator.baseColor g in
  let darkIterations :=
    ColorPaletteGenerator.guardedIterations
      (ColorPaletteGenerator.darkBand pool) (target / 4)%Z in
  let lightIterations :=
    ColorPaletteGenerator.guardedIterations
      (ColorPaletteGenerator.lightBand pool) (target / 4)%Z in
  let baseIterations :=
    ColorPaletteGenerator.iterations
      (ColorPaletteGenerator.baseBand pool)
      (target - Z.of_nat (darkIterations + lightIterations))%Z in
  (darkIterations <= seedFree seed (ColorPaletteGenerator.darkBand pool))%nat
  /\ (lightIterations <= seedFree seed (ColorPaletteGenerator.lightBand pool))%nat
  /\ (baseIterations <= seedFree seed (ColorPaletteGenerator.baseBand pool))%nat.

(** A [rand] that is fair up to bands of nine colors: it runs through
    [0/9, 1/9, ..., 8/9] again and again. *)
Definition cyclicRand (k : nat) : number :=
  Js.of_Z (Z.of_nat (k mod 9)) / 9.

(** A draw of [cyclicRand] that gives index [j] in a band of [n] colors. *)
Definition cyclicPick (n j : nat) : option nat :=
  find (fun m => Z.eqb (indexOf (Js.of_Z (Z.of_nat m) / 9) n) (Z.of_nat j))
       (seq 0 9).

(** ** Vocabulary of the further properties *)

(** The lower-case form of a character. *)
Definition to_lower (c : ascii) : ascii :=
  let n := nat_of_ascii c in
  if ((65 <=? n) && (n <=? 90))%nat then ascii_of_nat (n + 32) else c.

(** The two digits that [toHex] writes for the integer [n] read back
    as [n]. *)
Definition toHex_reads_back (n : Z) : bool :=
  match ColorModel.toHex (Js.of_Z n) with
  | String hi (String lo EmptyString) =>
      is_hex_digit hi && is_hex_digit lo
      && (parseInt16_from 0 (String hi (String lo EmptyString)) =? n)%Z
  | _ => false
  end.

(** A channel that is written as two hexadecimal digits: it rounds to an
    integer from 0 to 255. *)
Definition rounds_to_byte (x : number) : Prop :=
  (0 <= Js.roundZ x <= 255)%Z.

(** The channels rounded to the nearest integer. *)
Definition roundedChannels (c : RGBColor) : RGBColor :=
  mkRGB (Js.round (rgb_r c)) (Js.round (rgb_g c)) (Js.round (rgb_b c)).

(** The lower-case form of a string. *)
Fixpoint lowercase (s : string) : string :=
  match s with
  | EmptyString => EmptyString
  | String c rest => String (to_lower c) (lowercase rest)
  end.

(** [x] lies between [lo] and [hi]. *)
Definition in_range (lo hi x : number) : Prop := (lo <= x)%Q /\ (x <= hi)%Q.

(** [x] is an integer. *)
Definition whole (x : number) : Prop := exists n : Z, x = Js.of_Z n.

(** Channels from 0 to 255. *)
Definition byteChannels (c : RGBColor) : Prop :=
  in_range 0 255 (rgb_r c) /\ in_range 0 255 (rgb_g c)
  /\ in_range 0 255 (rgb_b c).

(** A hue from 0 to 360 degrees, a saturation and a lightness from 0
    to 100. *)
Definition hslInRange (c : HSLColor) : Prop :=
  in_range 0 360 (hsl_h c) /\ in_range 0 100 (hsl_s c)
  /\ in_range 0 100 (hsl_l c).

(** A hue from 0 to 360 degrees, a saturation and a value from 0 to 100. *)
Definition hsvInRange (c : HSVColor) : Prop :=
  in_range 0 360 (hsv_h c) /\ in_range 0 100 (hsv_s c)
  /\ in_range 0 100 (hsv_v c).

(** A color whose three numeric representations are in range. *)
Definition wellFormed (c : ColorModel.t) : Prop :=
  byteChannels (ColorModel.rgb c) /\ hslInRange (ColorModel.hsl c)
  /\ hsvInRange (ColorModel.hsv c).

(** The hexadecimal code of a color matches the pattern of [hexToRgb] and
    denotes the channels of the color, rounded. *)
Definition coherentHex (c : ColorModel.t) : Prop :=
  HexPattern (ColorModel.hex c)
  /\ ColorModel.hexToRgb (ColorModel.hex c)
     = roundedChannels (ColorModel.rgb c).

(** The generator that the constructor hands to [generatePalettes], and
    the number of draws made before. *)
Definition seedOf (rand : nat -> number) (p : ColorPaletteParams) (k : nat)
  : ColorPaletteGenerator.t * nat :=
  let g0 := ColorPaletteGenerator.mk (match param_precision p with Some n => n | None => 4%Z end)
               (match param_hueRange p with Some x => x | None => 180 end)
               ColorModel.blank (mkPalettes [] [] []) in
  match param_baseColor p with
  | Some (String c rest as bc) =>
      (ColorPaletteGenerator.setBaseColor (Some bc) (param_baseSaturation p) g0, k)
  | _ =>
      let g1 := ColorPaletteGenerator.setBaseColor None None g0 in
      match param_baseSaturation p with
      | Some s =>
          (ColorPaletteGenerator.with_baseColor
             (ColorModel.set_hsv
                (mkHSV (Js.round (Js.mul (Js.mul (rand k) 100) (36 # 10))) s
                       (Js.round (Js.add (Js.mul (rand (S k)) 20) 65)))
                (ColorPaletteGenerator.baseColor g1)) g1, S (S k))
      | None =>
          (ColorPaletteGenerator.with_baseColor
             (ColorModel.set_hsv
                (mkHSV (Js.round (Js.mul (Js.mul (rand k) 100) (36 # 10)))
                       (Js.round (Js.add (Js.mul (rand (S k)) 20) 65))
                       (Js.round (Js.add (Js.mul (rand (S (S k))) 20) 65)))
                (ColorPaletteGenerator.baseColor g1)) g1, S (S (S k)))
      end
  end.


(** What [cmykToRgb] computes for one channel from the two percentages. *)
Definition cmykBack (C K : number) : number :=
  Js.mul 255 (Js.sub 1 (Js.add (Js.mul (Js.div C 100) (Js.sub 1 (Js.div K 100)))
                               (Js.div K 100))).

(** * Properties *)

(** ** Reading a hexadecimal color *)

Lemma is_hex_digit_alphabet (c : ascii) :
  is_hex_digit c = true <-> In c hex_alphabet.
Proof.
  destruct c as [[] [] [] [] [] [] [] []]; vm_compute; split; intros H;
    try reflexivity; try discriminate; try tauto;
    repeat (destruct H as [H|H]; [discriminate H|]); contradiction.
Qed.

Lemma string_forallb_Forall (p : ascii -> bool) (s : string) :
  string_forallb p s = true <-> Forall (fun c => p c = true) (list_ascii_of_string s).
Proof.
  induction s as [|c s IH]; simpl.
  - split; auto.
  - rewrite andb_true_iff, IH. split.
    + intros [H1 H2]; now constructor.
    + intros H; inversion H; subst; auto.
Qed.

Lemma six_hex_groups_Some (s : string) :
  ColorModel.six_hex_groups s <> None <-> SixHexDigits s.
Proof.
  unfold ColorModel.six_hex_groups, SixHexDigits.
  destruct (Nat.eqb_spec (String.length s) 6) as [E|E]; simpl.
  - destruct (string_forallb is_hex_digit s) eqn:F.
    + split; [intros _|intros _; discriminate].
      split; [exact E|].
      apply string_forallb_Forall in F.
      eapply Forall_impl; [|exact F].
      intros c; apply is_hex_digit_alphabet.
    + split; [congruence|].
      intros [_ H]. exfalso.
      assert (string_forallb is_hex_digit s = true) as F'; [|congruence].
      apply string_forallb_Forall.
      eapply Forall_impl; [|exact H].
      intros c; apply is_hex_digit_alphabet.
  - split; [congruence|]. intros [H _]; contradiction.
Qed.

Lemma sharp_not_hex (rest : string) : ~ SixHexDigits (String "#" rest).
Proof.
  intros [_ H]. simpl in H. inversion H as [|? ? Hc _]; subst.
  apply is_hex_digit_alphabet in Hc. discriminate Hc.
Qed.

Lemma hex_pattern_exec_sharp (rest : string) :
  ColorModel.hex_pattern_exec (String "#" rest) = ColorModel.six_hex_groups rest.
Proof. reflexivity. Qed.

Lemma hex_pattern_exec_plain (s : string) :
  SixHexDigits s -> ColorModel.hex_pattern_exec s = ColorModel.six_hex_groups s.
Proof.
  intros H. destruct s as [|c s]; [reflexivity|].
  unfold ColorModel.hex_pattern_exec.
  destruct (ascii_dec c "#") as [->|N].
  - now apply sharp_not_hex in H.
  - destruct c as [[] [] [] [] [] [] [] []]; try reflexivity.
    now contradiction N.
Qed.

Lemma hex_pattern_exec_Some (s : string) :
  ColorModel.hex_pattern_exec s <> None <-> HexPattern s.
Proof.
  split.
  - intros H. destruct s as [|c s].
    + exfalso; apply H; reflexivity.
    + destruct (ascii_dec c "#") as [->|N].
      * right. exists s. split; [reflexivity|].
        now apply six_hex_groups_Some.
      * left. apply six_hex_groups_Some.
        intros E; apply H.
        unfold ColorModel.hex_pattern_exec.
        destruct c as [[] [] [] [] [] [] [] []]; try exact E.
        now contradiction N.
  - intros [H|[rest [-> H]]].
    + rewrite hex_pattern_exec_plain by exact H. now apply six_hex_groups_Some.
    + rewrite hex_pattern_exec_sharp. now apply six_hex_groups_Some.
Qed.

Lemma hex_digit_value_spec (c : ascii) :
  In c hex_alphabet -> hex_digit_value c = Some (digit_value c).
Proof.
  intros H. apply is_hex_digit_alphabet in H. revert H.
  destruct c as [[] [] [] [] [] [] [] []]; vm_compute; intros H;
    try reflexivity; discriminate H.
Qed.

Lemma parseInt16_two (hi lo : ascii) :
  In hi hex_alphabet -> In lo hex_alphabet ->
  parseInt16 (String hi (String lo EmptyString)) = byte_value hi lo.
Proof.
  intros Hh Hl. unfold parseInt16, byte_value. simpl.
  rewrite (hex_digit_value_spec hi Hh), (hex_digit_value_spec lo Hl).
  simpl. reflexivity.
Qed.

Lemma hexToRgb_digits (a b c d e f : ascii) :
  Forall (fun x => In x hex_alphabet) [a; b; c; d; e; f] ->
  ColorModel.hexToRgb (string_of_digits [a; b; c; d; e; f])
  = mkRGB (byte_value a b) (byte_value c d) (byte_value e f).
Proof.
  intros H.
  assert (SixHexDigits (string_of_digits [a; b; c; d; e; f])) as S6.
  { split; [reflexivity|]. exact H. }
  unfold ColorModel.hexToRgb.
  rewrite (hex_pattern_exec_plain _ S6).
  unfold ColorModel.six_hex_groups.
  assert (string_forallb is_hex_digit (string_of_digits [a; b; c; d; e; f]) = true) as F.
  { apply string_forallb_Forall. simpl.
    eapply Forall_impl; [|exact H]. intros x; apply is_hex_digit_alphabet. }
  rewrite F. simpl Nat.eqb. simpl andb. cbv iota.
  repeat match goal with
         | H : Forall _ (_ :: _) |- _ => inversion H; clear H; subst
         end.
  simpl substring.
  now rewrite !parseInt16_two.
Qed.

Lemma SixHexDigits_inv (s : string) :
  SixHexDigits s ->
  exists a b c d e f,
    s = string_of_digits [a; b; c; d; e; f]
    /\ Forall (fun x => In x hex_alphabet) [a; b; c; d; e; f].
Proof.
  intros [L H].
  destruct s as [|a [|b [|c [|d [|e [|f [|g s]]]]]]]; try discriminate L.
  exists a, b, c, d, e, f. split; [reflexivity|exact H].
Qed.

(** ** C9: [hexToRgb] never fails; a malformed code is black *)

(** C9. [hexToRgb] is a total function on strings: an input that does not
    match the pattern (six hexadecimal digits after an optional [#]) gives
    [{r: 0, g: 0, b: 0}], an input that matches gives the three channels that
    its pairs of digits denote; [hexToRgb('#3459c7')] is
    [{r: 52, g: 89, b: 199}] and [rgbToHex] of that is ['#3459c7']. *)
Theorem hexToRgb_never_fails :
  (forall hexCode : string,
      ~ HexPattern hexCode -> ColorModel.hexToRgb hexCode = mkRGB 0 0 0)
  /\ (forall a b c d e f : ascii,
         Forall (fun x => In x hex_alphabet) [a; b; c; d; e; f] ->
         ColorModel.hexToRgb (String "#" (string_of_digits [a; b; c; d; e; f]))
         = mkRGB (byte_value a b) (byte_value c d) (byte_value e f))
  /\ ColorModel.hexToRgb "#3459c7" = mkRGB 52 89 199
  /\ ColorModel.rgbToHex (mkRGB 52 89 199) = "#3459c7"%string.
Proof.
  split; [|split; [|split]].
  - intros hexCode H. unfold ColorModel.hexToRgb.
    destruct (ColorModel.hex_pattern_exec hexCode) as [[[g1 g2] g3]|] eqn:E.
    + exfalso. apply H. apply hex_pattern_exec_Some. congruence.
    + reflexivity.
  - intros a b c d e f H.
    transitivity (ColorModel.hexToRgb (string_of_digits [a; b; c; d; e; f])).
    + unfold ColorModel.hexToRgb at 1 2. rewrite hex_pattern_exec_sharp.
      rewrite hex_pattern_exec_plain; [reflexivity|].
      split; [reflexivity|exact H].
    + now apply hexToRgb_digits.
  - reflexivity.
  - reflexivity.
Qed.

Lemma hexToRgb_never_fails_witness :
  ColorModel.hexToRgb "#12" = mkRGB 0 0 0
  /\ ColorModel.hexToRgb "#Ff8000"
     = mkRGB (byte_value "F" "f") (byte_value "8" "0") (byte_value "0" "0").
Proof.
  destruct hexToRgb_never_fails as [Hbad [Hgood _]].
  split.
  - apply Hbad. intros H. apply hex_pattern_exec_Some in H. apply H. reflexivity.
  - apply (Hgood "F" "f" "8" "0" "0" "0")%char.
    repeat (apply Forall_cons; [apply is_hex_digit_alphabet; reflexivity|]).
    apply Forall_nil.
Defined.

(** ** C10: the [#] is optional *)

(** C10. For a string [s] of exactly six hexadecimal digits, [hexToRgb s]
    (no [#]) is the color that [hexToRgb] gives for [#] followed by [s]:
    the pattern matches and the digits are parsed, the fallback to black is
    not taken. *)
Theorem hexToRgb_sharp_optional (s : string) :
  SixHexDigits s ->
  ColorModel.hexToRgb s = ColorModel.hexToRgb (String "#" s)
  /\ ColorModel.hex_pattern_exec s <> None
  /\ exists a b c d e f,
       s = string_of_digits [a; b; c; d; e; f]
       /\ ColorModel.hexToRgb s
          = mkRGB (byte_value a b) (byte_value c d) (byte_value e f).
Proof.
  intros H. split; [|split].
  - unfold ColorModel.hexToRgb.
    now rewrite hex_pattern_exec_sharp, hex_pattern_exec_plain.
  - apply hex_pattern_exec_Some. now left.
  - destruct (SixHexDigits_inv s H) as (a & b & c & d & e & f & -> & F).
    exists a, b, c, d, e, f. split; [reflexivity|].
    now apply hexToRgb_digits.
Qed.

Lemma hexToRgb_sharp_optional_witness :
  ColorModel.hexToRgb "3459c7" = ColorModel.hexToRgb "#3459c7".
Proof.
  apply (hexToRgb_sharp_optional "3459c7").
  split; [reflexivity|].
  repeat (apply Forall_cons; [apply is_hex_digit_alphabet; reflexivity|]).
  apply Forall_nil.
Defined.

(** ** C8: [addToHue] *)

Lemma gt_true_iff (x y : Q) : Js.gt x y = true <-> (y < x)%Q.
Proof.
  unfold Js.gt. rewrite negb_true_iff. split.
  - intros H. apply Qnot_le_lt. intros L. apply Qle_bool_iff in L. congruence.
  - intros H. destruct (Qle_bool x y) eqn:E; [|reflexivity].
    apply Qle_bool_iff in E. exfalso. apply (Qlt_not_le _ _ H E).
Qed.

Lemma lt_true_iff (x y : Q) : Js.lt x y = true <-> (x < y)%Q.
Proof. unfold Js.lt. apply (gt_true_iff y x). Qed.

Lemma gt_false_iff (x y : Q) : Js.gt x y = false <-> (x <= y)%Q.
Proof.
  unfold Js.gt. rewrite negb_false_iff. apply Qle_bool_iff.
Qed.

Lemma lt_false_iff (x y : Q) : Js.lt x y = false <-> (y <= x)%Q.
Proof. unfold Js.lt. apply (gt_false_iff y x). Qed.

Lemma add_correct (x y : Q) : (Js.add x y == x + y)%Q.
Proof. apply Qred_correct. Qed.

(** Above 360 the remainder by 360 is the representative of the hue in
    [[0, 360)]. *)
Lemma rem_360 (x : Q) :
  (360 < x)%Q ->
  (0 <= Js.rem x 360 < 360)%Q
  /\ exists n : Z, (x == Js.rem x 360 + 360 * inject_Z n)%Q.
Proof.
  intros H. unfold Js.rem, Js.sub, Js.mul, Js.div, Js.trunc.
  assert (Qred (x / 360) == x / 360)%Q as Ey by apply Qred_correct.
  assert (x == 360 * (x / 360))%Q as Ex by (field; discriminate).
  assert (1 < x / 360)%Q as Hy.
  { apply Qlt_shift_div_l; [reflexivity|]. now rewrite Qmult_1_l. }
  assert (Qle_bool 0 (Qred (x / 360)) = true) as Hpos.
  { apply Qle_bool_iff. rewrite Ey. apply Qlt_le_weak.
    apply Qlt_trans with 1%Q; [reflexivity|exact Hy]. }
  rewrite Hpos.
  pose proof (Qfloor_le (Qred (x / 360))) as F1.
  pose proof (Qlt_floor (Qred (x / 360))) as F2.
  rewrite inject_Z_plus in F2.
  set (n := Qfloor (Qred (x / 360))) in *.
  rewrite Ey in F1, F2.
  set (y := (x / 360)%Q) in *.
  assert (Qred (x - Qred (360 * inject_Z n)) == x - 360 * inject_Z n)%Q as Er.
  { rewrite Qred_correct. now rewrite Qred_correct. }
  split.
  - rewrite Er, Ex. clear Er Ex Ey Hpos Hy. 
    change (inject_Z 1) with 1%Q in F2. split; lra.
  - exists n. rewrite Er. ring.
Qed.

(** C8. [addToHue(h, add)] is [(h + add) % 360] when [h + add > 360] (the
    representative of the sum in [[0, 360)]), [360 + h + add] when
    [h + add < 0], and [h + add] otherwise; [addToHue(350, 20)] is [10],
    [addToHue(10, -20)] is [350] and [addToHue(100, 50)] is [150]. *)
Theorem addToHue_wraps (h add : Q) :
  ((360 < h + add)%Q ->
     ColorModel.addToHue h add = Js.rem (h + add) 360
     /\ (0 <= ColorModel.addToHue h add < 360)%Q
     /\ exists n : Z, (h + add == ColorModel.addToHue h add + 360 * inject_Z n)%Q)
  /\ ((h + add < 0)%Q -> ColorModel.addToHue h add = 360 + h + add)
  /\ ((0 <= h + add <= 360)%Q -> ColorModel.addToHue h add = h + add)
  /\ ColorModel.addToHue 350 20 = 10
  /\ ColorModel.addToHue 10 (-20) = 350
  /\ ColorModel.addToHue 100 50 = 150.
Proof.
  unfold ColorModel.addToHue.
  assert ((360 < h + add)%Q -> Js.gt (h + add) 360 = true) as Gt.
  { intros H. apply gt_true_iff. unfold Js.add. now rewrite Qred_correct. }
  assert ((h + add <= 360)%Q -> Js.gt (h + add) 360 = false) as Gf.
  { intros H. apply gt_false_iff. unfold Js.add. now rewrite Qred_correct. }
  assert ((h + add < 0)%Q -> Js.lt (h + add) 0 = true) as Lt.
  { intros H. apply lt_true_iff. unfold Js.add. now rewrite Qred_correct. }
  assert ((0 <= h + add)%Q -> Js.lt (h + add) 0 = false) as Lf.
  { intros H. apply lt_false_iff. unfold Js.add. now rewrite Qred_correct. }
  assert ((360 < h + add)%Q -> (360 < Js.add h add)%Q) as Hsum.
  { intros H. unfold Js.add. now rewrite Qred_correct. }
  split; [|split; [|split; [|repeat split]]].
  - intros H. rewrite (Gt H).
    destruct (rem_360 (Js.add h add) (Hsum H)) as [B [n Hn]].
    split; [reflexivity|]. split; [exact B|].
    exists n. rewrite <- Hn. unfold Js.add. now rewrite Qred_correct.
  - intros H.
    assert (h + add <= 360)%Q as H1.
    { apply Qlt_le_weak. apply Qlt_trans with 0%Q; [exact H|reflexivity]. }
    now rewrite (Gf H1), (Lt H).
  - intros [H0 H1]. now rewrite (Gf H1), (Lf H0).
Qed.

Lemma addToHue_wraps_witness :
  ColorModel.addToHue 350 20 = Js.rem (350 + 20) 360
  /\ ColorModel.addToHue 10 (-20) = 360 + 10 + (-20)
  /\ ColorModel.addToHue 100 50 = 100 + 50.
Proof.
  split; [|split].
  - destruct (addToHue_wraps 350 20) as [H _].
    apply H. reflexivity.
  - destruct (addToHue_wraps 10 (-20)) as [_ [H _]].
    apply H. reflexivity.
  - destruct (addToHue_wraps 100 50) as [_ [_ [H _]]].
    apply H. split; discriminate.
Defined.

(** ** C5: [brighten] *)

(** C5. Whatever [delta], [max] and [min] are, [brighten] leaves the color
    in the state that the assignment [hsl = hsvToHsl(hsv)] from the current,
    unmodified [hsv] leaves it in: the clamped lightness it first writes is
    overwritten, so the four stored representations do not depend on
    [delta], [max] or [min]. *)
Theorem brighten_is_hsl_recompute (c : ColorModel.t) (delta max min : number) :
  ColorModel.brighten delta max min c
  = ColorModel.set_hsl (ColorModel.hsvToHsl (ColorModel.hsv c)) c
  /\ ColorModel.hsl (ColorModel.brighten delta max min c)
     = ColorModel.hsvToHsl (ColorModel.hsv c)
  /\ forall delta' max' min' : number,
       ColorModel.brighten delta max min c = ColorModel.brighten delta' max' min' c.
Proof.
  destruct c as [hex rgb [hl sl ll] hsv].
  unfold ColorModel.brighten, ColorModel.write_hsl_l, ColorModel.set_hsl,
    ColorModel.write_hsv, ColorModel.write_hsl, ColorModel.write_rgb,
    ColorModel.write_hex.
  cbn [ColorModel.hex ColorModel.rgb ColorModel.hsl ColorModel.hsv
       hsl_h hsl_s hsl_l].
  repeat split.
Qed.

(** ** C6: [saturate] *)


Section RoundTrip.

Local Open Scope Q_scope.

Lemma Qle_bool_false (x y : Q) : Qle_bool x y = false -> y < x.
Proof.
  intros H. apply Qnot_le_lt. intros L. apply Qle_bool_iff in L. congruence.
Qed.

Lemma Qeq_bool_false (x y : Q) : Qeq_bool x y = false -> ~ x == y.
Proof. intros H E. apply Qeq_bool_iff in E. congruence. Qed.

(** In exact arithmetic, [hslToHsv] undoes [hsvToHsl] on a triple whose
    value is not zero. *)
Lemma hsv_round_trip (h s v : Q) :
  0 < v -> v <= 100 -> 0 <= s -> s <= 100 ->
  let t := ColorModel.hslToHsv (ColorModel.hsvToHsl (mkHSV h s v)) in
  hsv_h t = h /\ hsv_s t == s /\ hsv_v t == v.
Proof.
  intros Hv0 Hv1 Hs0 Hs1.
  unfold ColorModel.hslToHsv, ColorModel.hsvToHsl.
  cbn [hsv_h hsv_s hsv_v hsl_h hsl_s hsl_l].
  unfold Js.sub, Js.mul, Js.div, Js.add.
  set (V := Qred (v / 100)).
  assert (V == v * (1 # 100)) as EV by (unfold V; rewrite Qred_correct; field).
  set (L := Qred (V - Qred (Qred (V * s) / 200))).
  assert (L == V - (V * s) * (1 # 200)) as EL.
  { unfold L. rewrite !Qred_correct. field. }
  assert (0 < V) as HV0 by lra.
  assert (V <= 1) as HV1 by lra.
  assert (0 <= V * s) as Hvs by (apply Qmult_le_0_compat; lra).
  assert (V * s <= V * 100) as Hvs' by (apply Qmult_le_l; assumption).
  set (l := Qred (L * 100)).
  assert (Qred (l / 100) == L) as EL'.
  { unfold l. rewrite !Qred_correct. field. }
  set (L' := Qred (l / 100)) in *.
  set (m := Js.min L (Qred (1 - L))).
  set (m' := Js.min L' (Qred (1 - L'))).
  assert (m == m') as Em.
  { unfold m, m', Js.min.
    destruct (Qle_bool L (Qred (1 - L))) eqn:B1;
      destruct (Qle_bool L' (Qred (1 - L'))) eqn:B2;
      try (apply Qle_bool_iff in B1); try (apply Qle_bool_iff in B2);
      try (apply Qle_bool_false in B1); try (apply Qle_bool_false in B2);
      rewrite ?Qred_correct in *; try rewrite EL'; try lra. }
  assert (0 <= m /\ (m == 0 -> s == 0 /\ V == 1)) as [Hm Hm0].
  { unfold m, Js.min.
    destruct (Qle_bool L (Qred (1 - L))) eqn:B1.
    - split; [lra|]. intros Z. exfalso. lra.
    - apply Qle_bool_false in B1. rewrite Qred_correct in *.
      split; [lra|]. intros Z.
      assert (V * s == 0) as Z1 by lra.
      assert (V == 1) as Z2 by lra.
      split; [|exact Z2]. rewrite Z2 in Z1. lra. }
  unfold Js.truthy.
  destruct (Qeq_bool m 0) eqn:Bm; cbn [negb]; cbv beta iota.
  - apply Qeq_bool_iff in Bm. destruct (Hm0 Bm) as [Zs ZV].
    set (V' := Qred (Qred (Qred (0 / 100) * m') + L')).
    assert (V' == 1) as EV'.
    { unfold V'. rewrite !Qred_correct. rewrite EL', EL, ZV, Zs. field. }
    assert (Qeq_bool V' 0 = false) as T.
    { destruct (Qeq_bool V' 0) eqn:T; [|reflexivity].
      apply Qeq_bool_iff in T. lra. }
    rewrite T. cbn [negb]. cbv beta iota.
    split; [reflexivity|]. split.
    + rewrite !Qred_correct. rewrite EV', EL', EL, ZV, Zs. reflexivity.
    + rewrite !Qred_correct. rewrite EV'. lra.
  - apply Qeq_bool_false in Bm.
    set (sl := Qred (Qred (100 * Qred (V - L)) / m)).
    assert (sl * (1 # 100) * m == V - L) as Esl.
    { unfold sl. rewrite !Qred_correct. field. exact Bm. }
    set (V' := Qred (Qred (Qred (sl / 100) * m') + L')).
    assert (V' == V) as EV'.
    { unfold V'. rewrite !Qred_correct. rewrite <- Em, EL'.
      setoid_replace (sl / 100 * m) with (sl * (1 # 100) * m) by field.
      rewrite Esl. ring. }
    assert (Qeq_bool V' 0 = false) as T.
    { destruct (Qeq_bool V' 0) eqn:T; [|reflexivity].
      apply Qeq_bool_iff in T. lra. }
    rewrite T. cbn [negb]. cbv beta iota.
    split; [reflexivity|]. split.
    + rewrite !Qred_correct. rewrite EV', EL', EL. field. lra.
    + rewrite !Qred_correct. rewrite EV', EV. field.
Qed.

End RoundTrip.



(** ** C2: the lengths of the palettes *)

Lemma one_to_length (n : Z) : List.length (one_to n) = Z.to_nat n.
Proof. unfold one_to. now rewrite length_map, length_seq. Qed.

Lemma fold_unshift_length (A B : Type) (f : B -> A) (l : list B) (init : list A) :
  List.length (fold_left (fun acc i => f i :: acc) l init)
  = (List.length l + List.length init)%nat.
Proof.
  revert init; induction l as [|x l IH]; intros init; simpl.
  - reflexivity.
  - rewrite IH. simpl. lia.
Qed.

Lemma fold_push_length (A B : Type) (f : B -> A) (l : list B) (init : list A) :
  List.length (fold_left (fun acc i => acc ++ [f i]) l init)
  = (List.length l + List.length init)%nat.
Proof.
  revert init; induction l as [|x l IH]; intros init; simpl.
  - reflexivity.
  - rewrite IH, length_app. simpl. lia.
Qed.

Section Lengths.

Import ColorPaletteGenerator.

Variable rand : nat -> number.

Lemma generateBasePalette_spec (g : t) (k : nat) :
  let g' := fst (generateBasePalette rand g k) in
  List.length (base (palettes g'))
  = (List.length (base (palettes g)) + 1 + 2 * Z.to_nat (precision g))%nat
  /\ light (palettes g') = light (palettes g)
  /\ dark (palettes g') = dark (palettes g)
  /\ precision g' = precision g
  /\ baseColor g' = baseColor g
  /\ snd (generateBasePalette rand g k) = (k + 4)%nat.
Proof.
  unfold generateBasePalette, bind, callRand, ret; simpl.
  rewrite fold_push_length, fold_unshift_length, one_to_length, length_app.
  simpl. repeat split; lia.
Qed.

Lemma generateLightPalette_spec (g : t) (k : nat) :
  let g' := fst (generateLightPalette rand g k) in
  base (palettes g') = base (palettes g)
  /\ List.length (light (palettes g'))
     = (List.length (light (palettes g)) + List.length (base (palettes g)))%nat
  /\ dark (palettes g') = dark (palettes g)
  /\ precision g' = precision g
  /\ baseColor g' = baseColor g
  /\ snd (generateLightPalette rand g k) = (k + 3)%nat.
Proof.
  unfold generateLightPalette, bind, callRand, ret; simpl.
  rewrite length_app, length_map. repeat split; lia.
Qed.

Lemma generateDarkPalette_spec (g : t) (k : nat) :
  let g' := fst (generateDarkPalette rand g k) in
  base (palettes g') = base (palettes g)
  /\ light (palettes g') = light (palettes g)
  /\ List.length (dark (palettes g'))
     = (List.length (dark (palettes g)) + List.length (base (palettes g)))%nat
  /\ precision g' = precision g
  /\ baseColor g' = baseColor g
  /\ snd (generateDarkPalette rand g k) = (k + 3)%nat.
Proof.
  unfold generateDarkPalette, bind, callRand, ret; simpl.
  rewrite length_app, length_map. repeat split; lia.
Qed.

Lemma generatePalettes_spec (g : t) (k : nat) :
  let g' := fst (generatePalettes rand g k) in
  List.length (base (palettes g')) = (2 * Z.to_nat (precision g) + 1)%nat
  /\ List.length (light (palettes g')) = List.length (base (palettes g'))
  /\ List.length (dark (palettes g')) = List.length (base (palettes g'))
  /\ precision g' = precision g
  /\ baseColor g' = baseColor g
  /\ snd (generatePalettes rand g k) = (k + 10)%nat.
Proof.
  unfold generatePalettes, bind.
  set (g0 := with_palettes (mkPalettes [] [] []) g).
  pose proof (generateBasePalette_spec g0 k) as B.
  destruct (generateBasePalette rand g0 k) as [g1 k1]; simpl in B.
  pose proof (generateLightPalette_spec g1 k1) as L.
  destruct (generateLightPalette rand g1 k1) as [g2 k2]; simpl in L.
  pose proof (generateDarkPalette_spec g2 k2) as D.
  destruct (generateDarkPalette rand g2 k2) as [g3 k3]; simpl in D.
  simpl.
  destruct B as (B1 & B2 & B3 & B4 & B5 & B6).
  destruct L as (L1 & L2 & L3 & L4 & L5 & L6).
  destruct D as (D1 & D2 & D3 & D4 & D5 & D6).
  rewrite D1, D2, L1, L2, D3, L3, B2, B3, L1, D4, L4, B4, D5, L5, B5.
  simpl. repeat split; lia.
Qed.

(** Whatever the seed color is, [precision] passes through the
    constructor unchanged. *)
Lemma constructor_calls_generatePalettes (p : ColorPaletteParams) (k : nat) :
  exists g0 k0,
    constructor rand p k = generatePalettes rand g0 k0
    /\ precision g0
       = match param_precision p with Some n => n | None => 4%Z end.
Proof.
  unfold constructor.
  destruct (param_baseColor p) as [[|c rest]|].
  - unfold bind, callRand.
    destruct (param_baseSaturation p); unfold ret, bind, callRand;
      eexists; eexists; split; reflexivity.
  - eexists; eexists; split; reflexivity.
  - unfold bind, callRand.
    destruct (param_baseSaturation p); unfold ret, bind, callRand;
      eexists; eexists; split; reflexivity.
Qed.

End Lengths.

(** C2. For a precision of at least 1 (an integer), after generation the
    base palette has [2 * precision + 1] colors, the light and the dark
    palettes have as many as the base palette, and [fullPalette] has
    [3 * (2 * precision + 1)]; so after [generatePalettes] on any generator,
    and so after the constructor. *)
Theorem palette_lengths (rand : nat -> number) (k : nat) :
  (forall g : ColorPaletteGenerator.t,
      (1 <= ColorPaletteGenerator.precision g)%Z ->
      let g' := fst (ColorPaletteGenerator.generatePalettes rand g k) in
      Z.of_nat (List.length (ColorPaletteGenerator.basePalette g'))
      = (2 * ColorPaletteGenerator.precision g + 1)%Z
      /\ List.length (ColorPaletteGenerator.lightPalette g')
         = List.length (ColorPaletteGenerator.basePalette g')
      /\ List.length (ColorPaletteGenerator.darkPalette g')
         = List.length (ColorPaletteGenerator.basePalette g')
      /\ Z.of_nat (List.length (ColorPaletteGenerator.fullPalette g'))
         = (3 * (2 * ColorPaletteGenerator.precision g + 1))%Z)
  /\ (forall p : ColorPaletteParams,
         let precision := match param_precision p with Some n => n | None => 4%Z end in
         (1 <= precision)%Z ->
         let g' := fst (ColorPaletteGenerator.constructor rand p k) in
         ColorPaletteGenerator.precision g' = precision
         /\ Z.of_nat (List.length (ColorPaletteGenerator.basePalette g'))
            = (2 * precision + 1)%Z
         /\ List.length (ColorPaletteGenerator.lightPalette g')
            = List.length (ColorPaletteGenerator.basePalette g')
         /\ List.length (ColorPaletteGenerator.darkPalette g')
            = List.length (ColorPaletteGenerator.basePalette g')
         /\ Z.of_nat (List.length (ColorPaletteGenerator.fullPalette g'))
            = (3 * (2 * precision + 1))%Z).
Proof.
  assert (forall (g : ColorPaletteGenerator.t) (k0 : nat),
      (1 <= ColorPaletteGenerator.precision g)%Z ->
      let g' := fst (ColorPaletteGenerator.generatePalettes rand g k0) in
      ColorPaletteGenerator.precision g' = ColorPaletteGenerator.precision g
      /\ Z.of_nat (List.length (ColorPaletteGenerator.basePalette g'))
         = (2 * ColorPaletteGenerator.precision g + 1)%Z
      /\ List.length (ColorPaletteGenerator.lightPalette g')
         = List.length (ColorPaletteGenerator.basePalette g')
      /\ List.length (ColorPaletteGenerator.darkPalette g')
         = List.length (ColorPaletteGenerator.basePalette g')
      /\ Z.of_nat (List.length (ColorPaletteGenerator.fullPalette g'))
         = (3 * (2 * ColorPaletteGenerator.precision g + 1))%Z) as G.
  { intros g k0 Hp g'.
    destruct (generatePalettes_spec rand g k0) as (B & L & D & P & _).
    fold g' in B, L, D, P.
    unfold ColorPaletteGenerator.basePalette, ColorPaletteGenerator.lightPalette,
      ColorPaletteGenerator.darkPalette, ColorPaletteGenerator.fullPalette.
    rewrite !length_app, L, D, B. split; [exact P|]. repeat split; lia. }
  split.
  - intros g Hp g'. apply (G g k Hp).
  - intros p precision Hp g'.
    destruct (constructor_calls_generatePalettes rand p k) as (g0 & k0 & E & P0).
    subst g'. rewrite E. fold precision in P0. rewrite <- P0 in *.
    apply (G g0 k0 Hp).
Qed.

Lemma palette_lengths_witness :
  let g' := fst (ColorPaletteGenerator.constructor (fun _ => 1 # 2)
                   (mkParams (Some 1%Z) None (Some "#3459c7"%string) None) 0%nat) in
  ColorPaletteGenerator.precision g' = 1%Z
  /\ Z.of_nat (List.length (ColorPaletteGenerator.basePalette g')) = 3%Z
  /\ List.length (ColorPaletteGenerator.lightPalette g')
     = List.length (ColorPaletteGenerator.basePalette g')
  /\ List.length (ColorPaletteGenerator.darkPalette g')
     = List.length (ColorPaletteGenerator.basePalette g')
  /\ Z.of_nat (List.length (ColorPaletteGenerator.fullPalette g')) = 9%Z.
Proof.
  destruct (palette_lengths (fun _ => 1 # 2) 0%nat) as [_ H].
  apply (H (mkParams (Some 1%Z) None (Some "#3459c7"%string) None)).
  simpl. lia.
Defined.

(** ** C1: determinism *)

Section Determinism.

Import ColorPaletteGenerator.

Context {HS : ArraySort}.

(** Two injected [rand] functions that return the same sequence. *)
Variables rand1 rand2 : nat -> number.
Hypothesis same_draws : forall k, rand1 k = rand2 k.

Lemma generatePalettes_ext (g : t) (k : nat) :
  generatePalettes rand1 g k = generatePalettes rand2 g k.
Proof.
  unfold generatePalettes, generateBasePalette, generateLightPalette,
    generateDarkPalette, bind, callRand, ret.
  now rewrite !same_draws.
Qed.

Lemma constructor_ext (p : ColorPaletteParams) (k : nat) :
  constructor rand1 p k = constructor rand2 p k.
Proof.
  unfold constructor.
  destruct (param_baseColor p) as [[|c rest]|];
    try apply generatePalettes_ext;
    unfold bind, callRand;
    destruct (param_baseSaturation p); unfold ret, bind, callRand;
    rewrite !same_draws; apply generatePalettes_ext.
Qed.

Lemma shuffleCompare_ext (a b : ColorModel.t) (k : nat) :
  shuffleCompare rand1 a b k = shuffleCompare rand2 a b k.
Proof.
  unfold shuffleCompare, bind, callRand, ret. now rewrite same_draws.
Qed.

Lemma shuffle_ext (l : ColorPalette) (k : nat) :
  sort (shuffleCompare rand1) l k = sort (shuffleCompare rand2) l k.
Proof. apply sort_ext. apply shuffleCompare_ext. Qed.

Lemma getRandomPalette_ext (g : t) (o : PaletteOptions) (k : nat) :
  getRandomPalette rand1 g o k = getRandomPalette rand2 g o k.
Proof.
  unfold getRandomPalette, bind. now rewrite shuffle_ext.
Qed.

Lemma sampleIndex_ext (fuel : nat) (inc : bool) (seed : ColorModel.t)
      (array : ColorPalette) (indexes : list Z) (k : nat) :
  sampleIndex rand1 fuel inc seed array indexes k
  = sampleIndex rand2 fuel inc seed array indexes k.
Proof.
  revert k; induction fuel as [|fuel IH]; intros k; simpl.
  - reflexivity.
  - unfold getRandomIndex, bind, callRand, ret. rewrite same_draws.
    destruct (rejected inc seed array indexes _) as [[|]|]; auto.
Qed.

Lemma sampleBand_ext (fuel : nat) (inc : bool) (seed : ColorModel.t)
      (array : ColorPalette) (n : nat) (indexes : list Z)
      (returned : ColorPalette) (k : nat) :
  sampleBand rand1 fuel inc seed array n indexes returned k
  = sampleBand rand2 fuel inc seed array n indexes returned k.
Proof.
  revert indexes returned k; induction n as [|n IH]; intros indexes returned k; simpl.
  - reflexivity.
  - rewrite sampleIndex_ext.
    destruct (sampleIndex rand2 fuel inc seed array indexes k) as [index k1| |]; auto.
    destruct (lookup array index); auto.
Qed.

Lemma getDistributedPalette_ext (fuel : nat) (g : t) (o : PaletteOptions) (k : nat) :
  getDistributedPalette rand1 fuel g o k = getDistributedPalette rand2 fuel g o k.
Proof.
  unfold getDistributedPalette.
  rewrite shuffle_ext.
  destruct (_ <=? _)%Z; [reflexivity|].
  rewrite sampleBand_ext.
  destruct (sampleBand rand2 fuel _ _ _ _ _ _ k) as [r1 k1| |]; auto.
  rewrite sampleBand_ext.
  destruct (sampleBand rand2 fuel _ _ _ _ _ _ k1) as [r2 k2| |]; auto.
  now rewrite sampleBand_ext.
Qed.

End Determinism.

(** The palettes depend on the ten values that [generatePalettes] draws and
    on no other. *)
Lemma generatePalettes_reads_ten_draws (rand1 rand2 : nat -> number)
      (g : ColorPaletteGenerator.t) (k : nat) :
  (forall j, (k <= j < k + 10)%nat -> rand1 j = rand2 j) ->
  ColorPaletteGenerator.generatePalettes rand1 g k
  = ColorPaletteGenerator.generatePalettes rand2 g k.
Proof.
  intros H.
  unfold ColorPaletteGenerator.generatePalettes,
    ColorPaletteGenerator.generateBasePalette,
    ColorPaletteGenerator.generateLightPalette,
    ColorPaletteGenerator.generateDarkPalette,
    ColorPaletteGenerator.bind, ColorPaletteGenerator.callRand,
    ColorPaletteGenerator.ret.
  rewrite !H by lia. reflexivity.
Qed.



(** ** Lists, shuffles and slices *)

Lemma existsb_permutation (A : Type) (f : A -> bool) (l l' : list A) :
  Permutation l l' -> existsb f l = existsb f l'.
Proof.
  induction 1 as [|x l l' _ IH|x y l|l l' l'' _ IH1 _ IH2]; simpl.
  - reflexivity.
  - now rewrite IH.
  - destruct (f x), (f y); reflexivity.
  - now rewrite IH1.
Qed.

Lemma sort_length {HS : ArraySort} (A : Type)
      (cmp : A -> A -> nat -> number * nat) (l : list A) (k : nat) :
  List.length (fst (sort cmp l k)) = List.length l.
Proof. apply Permutation_length, sort_permutation. Qed.

Lemma slice0_incl (A : Type) (n : Z) (l : list A) : incl (slice0 n l) l.
Proof.
  assert (forall m : nat, incl (firstn m l) l) as F.
  { intros m x H. rewrite <- (firstn_skipn m l). apply in_or_app. now left. }
  unfold slice0. destruct (n <? 0)%Z; apply F.
Qed.

Lemma slice0_length (A : Type) (n : Z) (l : list A) :
  (0 <= n)%Z ->
  List.length (slice0 n l) = Z.to_nat (Z.min n (Z.of_nat (List.length l))).
Proof.
  intros H. unfold slice0.
  destruct (Z.ltb_spec n 0) as [L|L]; [lia|].
  rewrite length_firstn. lia.
Qed.

Lemma slice0_all (A : Type) (n : Z) (l : list A) :
  (Z.of_nat (List.length l) <= n)%Z -> slice0 n l = l.
Proof.
  intros H. unfold slice0.
  destruct (Z.ltb_spec n 0) as [L|L]; [lia|].
  apply firstn_all2. lia.
Qed.

Lemma odd_indices_incl (A : Type) (l : list A) : incl (odd_indices l) l.
Proof.
  assert (forall n (l : list A), (List.length l <= n)%nat -> incl (odd_indices l) l) as G.
  { induction n as [|n IH]; intros l0 H.
    - destruct l0; [intros x []|simpl in H; lia].
    - destruct l0 as [|a [|b rest]].
      + intros y [].
      + intros y [].
      + simpl. intros x [->|Hx].
        * right; left; reflexivity.
        * right; right. apply (IH rest); [simpl in H; lia|exact Hx]. }
  apply (G (List.length l)). lia.
Qed.

Lemma has_false_incl (seed : ColorModel.t) (l l' : ColorPalette) :
  incl l' l ->
  ColorPaletteGenerator.has seed l = false ->
  ColorPaletteGenerator.has seed l' = false.
Proof.
  unfold ColorPaletteGenerator.has. intros I H.
  destruct (existsb _ l') eqn:E; [|reflexivity].
  apply existsb_exists in E. destruct E as [x [Hx Ex]].
  assert (existsb (fun c => ColorModel.equals c seed) l = true) as T.
  { apply existsb_exists. exists x. split; [apply I; exact Hx|exact Ex]. }
  congruence.
Qed.

(** ** C3: the fallback of [getDistributedPalette] *)

Section Fallback.

Import ColorPaletteGenerator.

Context {HS : ArraySort}.
Variable rand : nat -> number.

(** When the filtered pool is not larger than the target length plus one,
    the call returns the first colors of the shuffled pool, and nothing
    of [returnedPalette]. *)
Lemma getDistributedPalette_fallback (fuel : nat) (g : t)
      (o : PaletteOptions) (k : nat) :
  let pool := saturationFilter o (fullPalette g) in
  (Z.of_nat (List.length pool) <= targetLength o + 1)%Z ->
  exists shuffled k',
    Permutation shuffled pool
    /\ getDistributedPalette rand fuel g o k
       = Done (slice0 (targetLength o) shuffled) k'.
Proof.
  intros pool H. unfold getDistributedPalette. fold pool.
  apply Z.leb_le in H. rewrite H.
  pose proof (sort_permutation _ (shuffleCompare rand) pool k) as P.
  destruct (sort (shuffleCompare rand) pool k) as [shuffled k1].
  exists shuffled, k1. split; [exact P|reflexivity].
Qed.

(** The size of the fallback's result: the smaller of the target length
    (the requested length, less one when the base color is included) and
    the size of the pool. *)
Lemma getDistributedPalette_fallback_length (fuel : nat) (g : t)
      (o : PaletteOptions) (k : nat) :
  let pool := saturationFilter o (fullPalette g) in
  (0 <= targetLength o)%Z ->
  (Z.of_nat (List.length pool) <= targetLength o + 1)%Z ->
  exists result k',
    getDistributedPalette rand fuel g o k = Done result k'
    /\ Z.of_nat (List.length result)
       = Z.min (targetLength o) (Z.of_nat (List.length pool)).
Proof.
  intros pool H0 H.
  destruct (getDistributedPalette_fallback fuel g o k H) as (sh & k' & P & E).
  exists (slice0 (targetLength o) sh), k'. split; [exact E|].
  fold pool in P. rewrite slice0_length by lia.
  rewrite (Permutation_length P). lia.
Qed.

Lemma sampleBand_extends (fuel : nat) (inc : bool) (seed : ColorModel.t)
      (array : ColorPalette) (n : nat) (indexes : list Z)
      (returned result : ColorPalette) (k k' : nat) :
  sampleBand rand fuel inc seed array n indexes returned k = Done result k' ->
  exists extra, result = returned ++ extra.
Proof.
  revert indexes returned k; induction n as [|n IH]; intros indexes returned k; simpl.
  - intros E; inversion E; subst. exists []. now rewrite app_nil_r.
  - destruct (sampleIndex rand fuel inc seed array indexes k) as [index k1| |];
      try discriminate.
    destruct (lookup array index) as [c|]; try discriminate.
    intros E. destruct (IH _ _ _ E) as [extra ->].
    exists (c :: extra). now rewrite <- app_assoc.
Qed.

(** Outside the fallback, a call with [includeBaseColor] that returns
    does return the base color. *)
Lemma getDistributedPalette_sampled_has_seed (fuel : nat) (g : t)
      (o : PaletteOptions) (k k' : nat) (result : ColorPalette) :
  includeBaseColor o = true ->
  (targetLength o + 1 < Z.of_nat (List.length (saturationFilter o (fullPalette g))))%Z ->
  getDistributedPalette rand fuel g o k = Done result k' ->
  has (baseColor g) result = true.
Proof.
  intros Hinc Hbig. unfold getDistributedPalette.
  apply Z.leb_gt in Hbig. rewrite Hbig, Hinc.
  destruct (sampleBand rand fuel true _ _ _ _ _ k) as [r1 k1| |] eqn:E1;
    try discriminate.
  destruct (sampleBand rand fuel true _ _ _ _ _ k1) as [r2 k2| |] eqn:E2;
    try discriminate.
  destruct (sampleBand rand fuel true _ _ _ _ _ k2) as [r3 k3| |] eqn:E3;
    try discriminate.
  apply sampleBand_extends in E1, E2, E3.
  destruct E1 as [x1 ->], E2 as [x2 ->], E3 as [x3 ->].
  assert (has (baseColor g) ((([baseColor g] ++ x1) ++ x2) ++ x3) = true) as T.
  { simpl. unfold ColorModel.equals. now rewrite String.eqb_refl. }
  destruct (sortByBrightness o).
  - pose proof (sort_permutation _ brightnessCompare
                  ((([baseColor g] ++ x1) ++ x2) ++ x3) k3) as P.
    destruct (sort brightnessCompare _ k3) as [sorted k4].
    intros E; inversion E; subst.
    unfold has. now rewrite (existsb_permutation _ _ _ _ P).
  - intros E; inversion E; subst. exact T.
Qed.

End Fallback.

(** C3, where the code departs from it.  The generator is built from
    ['#3459c7'] with precision 1 and a [rand] that always returns 0.5; the
    call is [getDistributedPalette({length: 8, includeBaseColor: true,
    minSaturation: 80})].  Three colors pass the filter, the fallback returns
    them, and the base color is not among them, whatever the host's sort. *)
Theorem distributed_fallback_omits_seed {HS : ArraySort} (fuel : nat) :
  let rand := fun _ : nat => 1 # 2 in
  let run := ColorPaletteGenerator.constructor rand
               (mkParams (Some 1%Z) None (Some "#3459c7"%string) None) 0%nat in
  let o := mkOptions 8 true true true 0 100 80 100 in
  includeBaseColor o = true
  /\ ColorModel.hex (ColorPaletteGenerator.baseColor (fst run)) = "#345bc5"%string
  /\ exists result k',
      ColorPaletteGenerator.getDistributedPalette rand fuel (fst run) o (snd run)
      = Done result k'
      /\ List.length result = 3%nat
      /\ ColorPaletteGenerator.has (ColorPaletteGenerator.baseColor (fst run)) result
         = false.
Proof.
  intros rand run o.
  split; [reflexivity|]. split; [vm_compute; reflexivity|].
  set (pool := ColorPaletteGenerator.saturationFilter o
                 (ColorPaletteGenerator.fullPalette (fst run))).
  assert (List.length pool = 3%nat) as L by (vm_compute; reflexivity).
  assert (ColorPaletteGenerator.has
            (ColorPaletteGenerator.baseColor (fst run)) pool = false) as Hs
      by (vm_compute; reflexivity).
  assert (ColorPaletteGenerator.targetLength o = 7%Z) as T by reflexivity.
  destruct (getDistributedPalette_fallback rand fuel (fst run) o (snd run))
    as (sh & k' & P & E).
  { fold pool. rewrite L, T. lia. }
  fold pool in P.
  exists (slice0 (ColorPaletteGenerator.targetLength o) sh), k'.
  split; [exact E|]. split.
  - rewrite slice0_all; rewrite (Permutation_length P), L; [reflexivity|rewrite T; lia].
  - apply (has_false_incl _ pool); [|exact Hs].
    intros x Hx. apply slice0_incl in Hx.
    apply (Permutation_in _ P Hx).
Qed.

(** ** C4: the brightness bounds of [getRandomPalette] *)

Section RandomPalette.

Import ColorPaletteGenerator.

Context {HS : ArraySort}.
Variable rand : nat -> number.

(** Without [includeBaseColor], the result is a rearrangement of the first
    colors of the shuffled candidates. *)
Lemma getRandomPalette_result (g : t) (o : PaletteOptions) (k : nat) :
  includeBaseColor o = false ->
  exists shuffled,
    Permutation shuffled (randomCandidates g o)
    /\ Permutation (fst (getRandomPalette rand g o k))
                   (slice0 (if (length o <? 1)%Z then 1%Z else length o) shuffled).
Proof.
  intros Hinc. unfold getRandomPalette, bind, randomCandidates.
  set (cands := if filterPasses o && (2 <? precision g)%Z then _ else _).
  pose proof (sort_permutation _ (shuffleCompare rand) cands k) as P.
  destruct (sort (shuffleCompare rand) cands k) as [shuffled k1].
  exists shuffled. split; [exact P|].
  rewrite Hinc. simpl andb. cbv iota.
  destruct (sortByBrightness o).
  - apply sort_permutation.
  - apply Permutation_refl.
Qed.

Lemma saturationFilter_incl (o : PaletteOptions) (p : ColorPalette) :
  incl (saturationFilter o p) p.
Proof.
  unfold saturationFilter. intros x H.
  apply filter_In in H. destruct H as [H _].
  apply filter_In in H. tauto.
Qed.

(** The saturation bounds are kept by every color of the result. *)
Lemma getRandomPalette_saturation (g : t) (o : PaletteOptions) (k : nat) :
  includeBaseColor o = false ->
  Forall (fun c => Js.le (minSaturation o) (hsv_s (ColorModel.hsv c)) = true
                   /\ Js.le (hsv_s (ColorModel.hsv c)) (maxSaturation o) = true)
         (fst (getRandomPalette rand g o k)).
Proof.
  intros Hinc.
  destruct (getRandomPalette_result g o k Hinc) as (sh & P1 & P2).
  apply Forall_forall. intros x Hx.
  apply (Permutation_in _ P2) in Hx. apply slice0_incl in Hx.
  apply (Permutation_in _ P1) in Hx.
  assert (In x (saturationFilter o (fullPalette g))) as Hp.
  { unfold randomCandidates in Hx.
    destruct (filterPasses o && (2 <? precision g)%Z); [|exact Hx].
    now apply odd_indices_incl, odd_indices_incl. }
  unfold saturationFilter in Hp.
  apply filter_In in Hp. destruct Hp as [Hp H2].
  apply filter_In in Hp. tauto.
Qed.

(** In the UMD bundle the brightness bounds are kept as well. *)
Lemma umd_getRandomPalette_brightness (g : t) (o : PaletteOptions) (k : nat) :
  includeBaseColor o = false ->
  Forall (fun c => Js.le (minBrightness o) (hsv_v (ColorModel.hsv c)) = true
                   /\ Js.le (hsv_v (ColorModel.hsv c)) (maxBrightness o) = true)
         (fst (Umd.getRandomPalette rand g o k)).
Proof.
  intros Hinc. unfold Umd.getRandomPalette, bind.
  set (cands := if filterPasses o && (2 <? precision g)%Z then _ else _).
  pose proof (sort_permutation _ (shuffleCompare rand) cands k) as P.
  destruct (sort (shuffleCompare rand) cands k) as [shuffled k1].
  rewrite Hinc. simpl andb. cbv iota.
  assert (forall x, In x shuffled ->
            Js.le (minBrightness o) (hsv_v (ColorModel.hsv x)) = true
            /\ Js.le (hsv_v (ColorModel.hsv x)) (maxBrightness o) = true) as B.
  { intros x Hx. apply (Permutation_in _ P) in Hx.
    assert (In x (Umd.brightnessFilter o (fullPalette g))) as Hb.
    { apply (saturationFilter_incl o). subst cands.
      destruct (filterPasses o && (2 <? precision g)%Z); [|exact Hx].
      now apply odd_indices_incl, odd_indices_incl. }
    unfold Umd.brightnessFilter in Hb.
    apply filter_In in Hb. destruct Hb as [Hb H2].
    apply filter_In in Hb. tauto. }
  apply Forall_forall. intros x Hx.
  apply B. apply (slice0_incl _ (if (length o <? 1)%Z then 1%Z else length o)).
  destruct (sortByBrightness o).
  - pose proof (sort_permutation _ brightnessCompare
                  (slice0 (if (length o <? 1)%Z then 1%Z else length o) shuffled) k1) as P2.
    apply (Permutation_in _ P2). exact Hx.
  - exact Hx.
Qed.

End RandomPalette.

(** C4, where the code departs from it.  The generator is built from
    ['#3459c7'] with the default precision and a [rand] that always returns
    0.5; the call is [getRandomPalette({length: 6, minBrightness: 10,
    maxBrightness: 90})].  The method of the TypeScript source does not read
    the two brightness options: whatever the host's sort, its six colors
    include one whose HSV value is above 90.  The method of the UMD bundle
    returns no such color. *)
Theorem random_palette_ignores_brightness {HS : ArraySort} :
  let rand := fun _ : nat => 1 # 2 in
  let run := ColorPaletteGenerator.constructor rand
               (mkParams None None (Some "#3459c7"%string) None) 0%nat in
  let o := mkOptions 6 false true true 10 90 0 100 in
  let result := fst (ColorPaletteGenerator.getRandomPalette rand (fst run) o (snd run)) in
  let umd := fst (ColorPaletteGenerator.Umd.getRandomPalette rand (fst run) o (snd run)) in
  List.length result = 6%nat
  /\ existsb (fun c => Js.gt (hsv_v (ColorModel.hsv c)) (maxBrightness o)) result = true
  /\ existsb (fun c => Js.gt (hsv_v (ColorModel.hsv c)) (maxBrightness o)) umd = false.
Proof.
  intros rand run o result umd.
  destruct (getRandomPalette_result rand (fst run) o (snd run) eq_refl)
    as (sh & P1 & P2).
  fold result in P2.
  assert (List.length (randomCandidates (fst run) o) = 6%nat) as L
      by (vm_compute; reflexivity).
  assert (existsb (fun c => Js.gt (hsv_v (ColorModel.hsv c)) (maxBrightness o))
                  (randomCandidates (fst run) o) = true) as X
      by (vm_compute; reflexivity).
  rewrite slice0_all in P2
    by (rewrite (Permutation_length P1), L; simpl; lia).
  split; [|split].
  - now rewrite (Permutation_length P2), (Permutation_length P1).
  - rewrite (existsb_permutation _ _ _ _ P2).
    now rewrite (existsb_permutation _ _ _ _ P1).
  - pose proof (umd_getRandomPalette_brightness rand (fst run) o (snd run) eq_refl) as F.
    fold umd in F.
    destruct (existsb _ umd) eqn:E; [|reflexivity].
    apply existsb_exists in E. destruct E as [x [Hx Gx]].
    rewrite Forall_forall in F. destruct (F x Hx) as [_ U].
    unfold Js.gt in Gx. unfold Js.le in U. rewrite U in Gx. discriminate Gx.
Qed.

(** ** C7: the rejection loops *)

Lemma indexOf_range (r : Q) (n : nat) :
  (0 <= r)%Q -> (r < 1)%Q -> (0 < n)%nat ->
  (0 <= indexOf r n < Z.of_nat n)%Z.
Proof.
  intros H0 H1 Hn. unfold indexOf, Js.floorZ, Js.mul, Js.of_Z.
  rewrite (Qfloor_comp _ _ (Qred_correct _)).
  set (m := inject_Z (Z.of_nat n)).
  assert (0 < m)%Q as Hm.
  { unfold m. change (inject_Z 0 < inject_Z (Z.of_nat n))%Q.
    rewrite <- Zlt_Qlt. lia. }
  split.
  - change 0%Z with (Qfloor 0). apply Qfloor_resp_le.
    apply Qmult_le_0_compat; [exact H0|now apply Qlt_le_weak].
  - rewrite Zlt_Qlt. fold m.
    apply Qle_lt_trans with (r * m)%Q; [apply Qfloor_le|].
    setoid_replace m with (1 * m)%Q at 2 by ring.
    apply Qmult_lt_compat_r; assumption.
Qed.

Section Sampling.

Import ColorPaletteGenerator.

Variable rand : nat -> number.

Lemma sampleIndex_unfold (fuel : nat) (inc : bool) (seed : ColorModel.t)
      (array : ColorPalette) (indexes : list Z) (k : nat) :
  sampleIndex rand (S fuel) inc seed array indexes k
  = match rejected inc seed array indexes (indexOf (rand k) (List.length array)) with
    | Some true => sampleIndex rand fuel inc seed array indexes (S k)
    | Some false => Done (indexOf (rand k) (List.length array)) (S k)
    | None => Undefined
    end.
Proof. reflexivity. Qed.

Lemma sampleBand_unfold (fuel : nat) (inc : bool) (seed : ColorModel.t)
      (array : ColorPalette) (n : nat) (indexes : list Z)
      (returned : ColorPalette) (k : nat) :
  sampleBand rand fuel inc seed array (S n) indexes returned k
  = match sampleIndex rand fuel inc seed array indexes k with
    | Done index k1 =>
        match lookup array index with
        | Some c =>
            sampleBand rand fuel inc seed array n
                       (indexes ++ [index]) (returned ++ [c]) k1
        | None => Undefined
        end
    | Looping => Looping
    | Undefined => Undefined
    end.
Proof. reflexivity. Qed.

Lemma lookup_in_range (array : ColorPalette) (index : Z) :
  (0 <= index < Z.of_nat (List.length array))%Z ->
  exists c, lookup array index = Some c.
Proof.
  intros H. unfold lookup.
  destruct (Z.ltb_spec index 0) as [L|L]; [lia|].
  destruct (nth_error array (Z.to_nat index)) as [c|] eqn:E.
  - now exists c.
  - apply nth_error_None in E. lia.
Qed.

(** A draw in the unit interval is never tested against [undefined]. *)
Lemma rejected_defined (inc : bool) (seed : ColorModel.t)
      (array : ColorPalette) (indexes : list Z) (r : Q) :
  (0 <= r)%Q -> (r < 1)%Q -> array <> [] ->
  rejected inc seed array indexes (indexOf r (List.length array)) <> None.
Proof.
  intros H0 H1 Hne. unfold rejected.
  destruct (existsb _ indexes); [discriminate|].
  destruct inc; [|discriminate].
  destruct (lookup_in_range array (indexOf r (List.length array))) as [c ->];
    [|discriminate].
  apply indexOf_range; try assumption.
  destruct array; [contradiction|simpl; lia].
Qed.

(** The loop returns at the first draw that is not rejected. *)
Lemma sampleIndex_first_accepted (inc : bool) (seed : ColorModel.t)
      (array : ColorPalette) (indexes : list Z) (d : nat) :
  forall (k fuel : nat),
    (forall j, (j < d)%nat ->
       rejected inc seed array indexes
                (indexOf (rand (k + j)) (List.length array)) = Some true) ->
    rejected inc seed array indexes
             (indexOf (rand (k + d)) (List.length array)) = Some false ->
    (d < fuel)%nat ->
    sampleIndex rand fuel inc seed array indexes k
    = Done (indexOf (rand (k + d)) (List.length array)) (S (k + d)).
Proof.
  induction d as [|d IH]; intros k fuel Hrej Hacc Hfuel;
    (destruct fuel as [|fuel]; [lia|]); rewrite sampleIndex_unfold.
  - rewrite Nat.add_0_r in Hacc. rewrite Hacc. now rewrite Nat.add_0_r.
  - pose proof (Hrej 0%nat ltac:(lia)) as R0. rewrite Nat.add_0_r in R0.
    rewrite R0.
    replace (k + S d)%nat with (S k + d)%nat in * by lia.
    apply IH; [|exact Hacc|lia].
    intros j Hj. replace (S k + j)%nat with (k + S j)%nat by lia.
    apply Hrej. lia.
Qed.

(** With a constant [rand], a draw that is rejected is rejected for
    ever. *)
Lemma sampleIndex_constant_rejected (c : number) (inc : bool)
      (seed : ColorModel.t) (array : ColorPalette) (indexes : list Z) :
  (forall k, rand k = c) ->
  rejected inc seed array indexes (indexOf c (List.length array)) = Some true ->
  forall fuel k, sampleIndex rand fuel inc seed array indexes k = Looping.
Proof.
  intros Hc Hr. induction fuel as [|fuel IH]; intros k.
  - reflexivity.
  - rewrite sampleIndex_unfold, Hc, Hr. apply IH.
Qed.

Lemma rejected_after_push (inc : bool) (seed : ColorModel.t)
      (array : ColorPalette) (indexes : list Z) (index : Z) :
  rejected inc seed array (indexes ++ [index]) index = Some true.
Proof.
  unfold rejected.
  assert (existsb (Z.eqb index) (indexes ++ [index]) = true) as E.
  { rewrite existsb_app. simpl. rewrite Z.eqb_refl. now rewrite orb_true_r. }
  now rewrite E.
Qed.

Lemma rejected_mono (inc : bool) (seed : ColorModel.t)
      (array : ColorPalette) (indexes more : list Z) (index : Z) :
  rejected inc seed array indexes index = Some true ->
  rejected inc seed array (indexes ++ more) index = Some true.
Proof.
  unfold rejected. rewrite existsb_app.
  destruct (existsb (Z.eqb index) indexes); simpl; [reflexivity|].
  destruct (existsb (Z.eqb index) more); [reflexivity|]. auto.
Qed.

(** With a constant [rand], a band that is asked for two colors or more
    never gets past its second round. *)
Lemma sampleBand_constant_loops (c : number) (inc : bool)
      (seed : ColorModel.t) (array : ColorPalette) (n : nat)
      (indexes : list Z) (returned : ColorPalette) :
  (forall k, rand k = c) ->
  (0 <= c)%Q -> (c < 1)%Q -> array <> [] ->
  forall fuel k,
    sampleBand rand fuel inc seed array (S (S n)) indexes returned k = Looping.
Proof.
  intros Hc H0 H1 Hne fuel k.
  set (index := indexOf c (List.length array)).
  assert (exists x, lookup array index = Some x) as [x Hx].
  { apply lookup_in_range. apply indexOf_range; try assumption.
    destruct array; [contradiction|simpl; lia]. }
  rewrite sampleBand_unfold.
  destruct (rejected inc seed array indexes index) as [[|]|] eqn:R.
  - now rewrite (sampleIndex_constant_rejected c inc seed array indexes Hc R).
  - destruct fuel as [|fuel]; [reflexivity|].
    rewrite sampleIndex_unfold, Hc. fold index. rewrite R, Hx.
    rewrite sampleBand_unfold.
    now rewrite (sampleIndex_constant_rejected c inc seed array
                   (indexes ++ [index]) Hc (rejected_after_push _ _ _ _ _)).
  - exfalso. now apply (rejected_defined inc seed array indexes c H0 H1 Hne).
Qed.

(** What a draw loop returns: a draw of the sequence, the first one from
    [k] on that is not rejected. *)
Lemma sampleIndex_done (fuel : nat) (inc : bool) (seed : ColorModel.t)
      (array : ColorPalette) (indexes : list Z) (k : nat) (index : Z) (k1 : nat) :
  sampleIndex rand fuel inc seed array indexes k = Done index k1 ->
  exists j, (k <= j)%nat /\ k1 = S j
            /\ index = indexOf (rand j) (List.length array)
            /\ rejected inc seed array indexes index = Some false.
Proof.
  revert k; induction fuel as [|fuel IH]; intros k.
  - discriminate.
  - rewrite sampleIndex_unfold.
    destruct (rejected inc seed array indexes
                       (indexOf (rand k) (List.length array)))
      as [[|]|] eqn:R; try discriminate.
    + intros E. destruct (IH _ E) as (j & Hj & -> & -> & Hr).
      exists j. repeat split; try assumption. lia.
    + intros E. inversion E; subst. exists k. repeat split; auto.
Qed.

Hypothesis rand_unit : unit_interval rand.

Lemma sampleIndex_not_undefined (fuel : nat) (inc : bool) (seed : ColorModel.t)
      (array : ColorPalette) (indexes : list Z) (k : nat) :
  array <> [] ->
  sampleIndex rand fuel inc seed array indexes k <> Undefined.
Proof.
  intros Hne. revert k; induction fuel as [|fuel IH]; intros k.
  - discriminate.
  - rewrite sampleIndex_unfold.
    destruct (rejected inc seed array indexes _) as [[|]|] eqn:R.
    + apply IH.
    + discriminate.
    + exfalso. destruct (rand_unit k) as [H0 H1].
      now apply (rejected_defined inc seed array indexes (rand k) H0 H1 Hne).
Qed.

Lemma sampleIndex_done_lookup (fuel : nat) (inc : bool) (seed : ColorModel.t)
      (array : ColorPalette) (indexes : list Z) (k : nat) (index : Z) (k1 : nat) :
  array <> [] ->
  sampleIndex rand fuel inc seed array indexes k = Done index k1 ->
  exists c, lookup array index = Some c.
Proof.
  intros Hne E. destruct (sampleIndex_done _ _ _ _ _ _ _ _ E) as (j & _ & _ & -> & _).
  apply lookup_in_range. destruct (rand_unit j) as [H0 H1].
  apply indexOf_range; try assumption.
  destruct array; [contradiction|simpl; lia].
Qed.

Lemma sampleBand_not_undefined (fuel : nat) (inc : bool) (seed : ColorModel.t)
      (array : ColorPalette) (n : nat) (indexes : list Z)
      (returned : ColorPalette) (k : nat) :
  (n <> O -> array <> []) ->
  sampleBand rand fuel inc seed array n indexes returned k <> Undefined.
Proof.
  revert indexes returned k; induction n as [|n IH];
    intros indexes returned k Hne.
  - discriminate.
  - assert (array <> []) as Hne' by (apply Hne; discriminate).
    rewrite sampleBand_unfold.
    destruct (sampleIndex rand fuel inc seed array indexes k) as [index k1| |] eqn:E.
    + destruct (sampleIndex_done_lookup _ _ _ _ _ _ _ _ Hne' E) as [c ->].
      apply IH. intros _. exact Hne'.
    + discriminate.
    + now apply sampleIndex_not_undefined in E.
Qed.

End Sampling.

(** Outside the fallback the call is the three band loops in sequence. *)
Lemma getDistributedPalette_sampling {HS : ArraySort} (rand : nat -> number)
      (fuel : nat) (g : ColorPaletteGenerator.t) (o : PaletteOptions) (k : nat) :
  let pool := ColorPaletteGenerator.saturationFilter o
                (ColorPaletteGenerator.fullPalette g) in
  let target := ColorPaletteGenerator.targetLength o in
  let inc := includeBaseColor o in
  let seed := ColorPaletteGenerator.baseColor g in
  let darkIterations :=
    ColorPaletteGenerator.guardedIterations
      (ColorPaletteGenerator.darkBand pool) (target / 4)%Z in
  let lightIterations :=
    ColorPaletteGenerator.guardedIterations
      (ColorPaletteGenerator.lightBand pool) (target / 4)%Z in
  let baseIterations :=
    ColorPaletteGenerator.iterations
      (ColorPaletteGenerator.baseBand pool)
      (target - Z.of_nat (darkIterations + lightIterations))%Z in
  (Z.of_nat (List.length pool) <=? target + 1)%Z = false ->
  ColorPaletteGenerator.getDistributedPalette rand fuel g o k
  = match ColorPaletteGenerator.sampleBand rand fuel inc seed
            (ColorPaletteGenerator.darkBand pool) darkIterations []
            (if inc then [seed] else []) k with
    | Done r1 k1 =>
        match ColorPaletteGenerator.sampleBand rand fuel inc seed
                (ColorPaletteGenerator.lightBand pool) lightIterations [] r1 k1 with
        | Done r2 k2 =>
            match ColorPaletteGenerator.sampleBand rand fuel inc seed
                    (ColorPaletteGenerator.baseBand pool) baseIterations [] r2 k2 with
            | Done r3 k3 =>
                if sortByBrightness o
                then let (sorted, k4) :=
                       sort ColorPaletteGenerator.brightnessCompare r3 k3 in
                     Done sorted k4
                else Done r3 k3
            | Looping => Looping
            | Undefined => Undefined
            end
        | Looping => Looping
        | Undefined => Undefined
        end
    | Looping => Looping
    | Undefined => Undefined
    end.
Proof.
  intros pool target inc seed darkIterations lightIterations baseIterations H.
  unfold ColorPaletteGenerator.getDistributedPalette.
  fold pool. fold target. rewrite H. reflexivity.
Qed.

Lemma guardedIterations_nonempty (array : ColorPalette) (n : Z) :
  ColorPaletteGenerator.guardedIterations array n <> O -> array <> [].
Proof. destruct array; [intros H; now contradiction H|discriminate]. Qed.

Lemma iterations_nonempty (array : ColorPalette) (n : Z) :
  ColorPaletteGenerator.iterations array n <> O -> array <> [].
Proof.
  unfold ColorPaletteGenerator.iterations.
  destruct array; [simpl; intros H; exfalso; apply H; lia|discriminate].
Qed.

(** With a constant [rand] in the unit interval, a call that leaves the
    fallback aside and asks the middle band for two colors or more never
    returns. *)
Lemma getDistributedPalette_constant_loops {HS : ArraySort}
      (rand : nat -> number) (c : Q) (fuel : nat)
      (g : ColorPaletteGenerator.t) (o : PaletteOptions) (k : nat) :
  let pool := ColorPaletteGenerator.saturationFilter o
                (ColorPaletteGenerator.fullPalette g) in
  let target := ColorPaletteGenerator.targetLength o in
  let darkIterations :=
    ColorPaletteGenerator.guardedIterations
      (ColorPaletteGenerator.darkBand pool) (target / 4)%Z in
  let lightIterations :=
    ColorPaletteGenerator.guardedIterations
      (ColorPaletteGenerator.lightBand pool) (target / 4)%Z in
  (forall j, rand j = c) -> (0 <= c)%Q -> (c < 1)%Q ->
  (Z.of_nat (List.length pool) <=? target + 1)%Z = false ->
  (2 <=? ColorPaletteGenerator.iterations
           (ColorPaletteGenerator.baseBand pool)
           (target - Z.of_nat (darkIterations + lightIterations))%Z)%nat = true ->
  ColorPaletteGenerator.getDistributedPalette rand fuel g o k = Looping.
Proof.
  intros pool target dI lI Hc H0 H1 Hmain Hb.
  assert (unit_interval rand) as U.
  { intros j. rewrite Hc. now split. }
  rewrite getDistributedPalette_sampling by exact Hmain.
  fold pool target dI lI.
  apply Nat.leb_le in Hb.
  destruct (ColorPaletteGenerator.iterations _ _) as [|[|n]] eqn:Eb; try lia.
  assert (ColorPaletteGenerator.baseBand pool <> []) as Hm.
  { apply (iterations_nonempty _ (target - Z.of_nat (dI + lI))%Z).
    rewrite Eb. discriminate. }
  destruct (ColorPaletteGenerator.sampleBand rand fuel _ _ _ dI _ _ _)
    as [r1 k1| |] eqn:E1; [|reflexivity|].
  - destruct (ColorPaletteGenerator.sampleBand rand fuel _ _ _ lI _ _ _)
      as [r2 k2| |] eqn:E2; [|reflexivity|].
    + now rewrite (sampleBand_constant_loops rand c).
    + apply (sampleBand_not_undefined rand U) in E2; [contradiction|].
      apply guardedIterations_nonempty.
  - apply (sampleBand_not_undefined rand U) in E1; [contradiction|].
    apply guardedIterations_nonempty.
Qed.

(** C7, as stated, fails: a [rand] that always returns 0.5 has its values in
    the unit interval; on the generator built from ['#3459c7'] with the
    default parameters, [getDistributedPalette({})] draws one dark and one
    light color and then asks the middle band for two: the second draw of
    that band repeats the first for ever, whatever the fuel. *)
Lemma distributed_palette_constant_rand_loops :
  let rand := fun _ : nat => 1 # 2 in
  let run := ColorPaletteGenerator.constructor rand
               (mkParams None None (Some "#3459c7"%string) None) 0%nat in
  unit_interval rand
  /\ forall fuel : nat,
       ColorPaletteGenerator.getDistributedPalette (HS := insertionSort)
         rand fuel (fst run) defaultOptions (snd run) = Looping.
Proof.
  intros rand run. split.
  - intros k. split; [discriminate|reflexivity].
  - intros fuel.
    apply (getDistributedPalette_constant_loops rand (1 # 2)).
    + reflexivity.
    + discriminate.
    + reflexivity.
    + vm_compute; reflexivity.
    + vm_compute; reflexivity.
Qed.

(** *** Termination with a fair [rand] *)

Lemma positions_length (A : Type) (p : A -> bool) (l : list A) (start : Z) :
  List.length (positions p l start) = List.length (filter p l).
Proof.
  revert start; induction l as [|x l IH]; intros start; simpl.
  - reflexivity.
  - destruct (p x); simpl; now rewrite IH.
Qed.

Lemma positions_spec (A : Type) (p : A -> bool) (l : list A) (start z : Z) :
  In z (positions p l start) ->
  exists j x, z = (start + Z.of_nat j)%Z /\ nth_error l j = Some x /\ p x = true.
Proof.
  revert start; induction l as [|x l IH]; intros start; simpl.
  - intros [].
  - destruct (p x) eqn:Px.
    + intros [<-|H].
      * exists 0%nat, x. repeat split; [lia|exact Px].
      * destruct (IH _ H) as (j & y & -> & Hn & Hp).
        exists (S j), y. repeat split; [lia|exact Hn|exact Hp].
    + intros H. destruct (IH _ H) as (j & y & -> & Hn & Hp).
      exists (S j), y. repeat split; [lia|exact Hn|exact Hp].
Qed.

Lemma positions_lower (A : Type) (p : A -> bool) (l : list A) (start z : Z) :
  In z (positions p l start) -> (start <= z)%Z.
Proof.
  intros H. destruct (positions_spec _ _ _ _ _ H) as (j & _ & -> & _). lia.
Qed.

Lemma positions_NoDup (A : Type) (p : A -> bool) (l : list A) (start : Z) :
  NoDup (positions p l start).
Proof.
  revert start; induction l as [|x l IH]; intros start; simpl.
  - constructor.
  - destruct (p x); [|apply IH].
    constructor; [|apply IH].
    intros H. apply positions_lower in H. lia.
Qed.

(** A list without repetition that is longer than another one has an
    element outside of it. *)
Lemma pigeonhole (l1 l2 : list Z) :
  NoDup l1 -> (List.length l2 < List.length l1)%nat ->
  exists z, In z l1 /\ existsb (Z.eqb z) l2 = false.
Proof.
  intros ND L.
  destruct (forallb (fun z => existsb (Z.eqb z) l2) l1) eqn:F.
  - exfalso. rewrite forallb_forall in F.
    assert (incl l1 l2) as I.
    { intros z Hz. apply F in Hz. apply existsb_exists in Hz.
      destruct Hz as [y [Hy E]]. apply Z.eqb_eq in E. now subst. }
    pose proof (NoDup_incl_length ND I). lia.
  - assert (exists z, In z l1 /\ existsb (Z.eqb z) l2 = false) as G; [|exact G].
    clear ND L. induction l1 as [|z l1 IH]; simpl in F; [discriminate|].
    destruct (existsb (Z.eqb z) l2) eqn:E.
    + destruct (IH F) as [y [Hy Ey]]. exists y. split; [now right|exact Ey].
    + exists z. split; [now left|exact E].
Qed.

Section Termination.

Import ColorPaletteGenerator.

Variable rand : nat -> number.
Variable N : nat.
Hypothesis rand_unit : unit_interval rand.
Hypothesis rand_fair : fair N rand.

(** Among the draws up to an accepted one there is a first accepted
    one. *)
Lemma first_accepted (inc : bool) (seed : ColorModel.t)
      (array : ColorPalette) (indexes : list Z) (m : nat) :
  array <> [] ->
  forall k,
    rejected inc seed array indexes
             (indexOf (rand (k + m)) (List.length array)) = Some false ->
    exists d, (d <= m)%nat
      /\ (forall j, (j < d)%nat ->
            rejected inc seed array indexes
                     (indexOf (rand (k + j)) (List.length array)) = Some true)
      /\ rejected inc seed array indexes
                  (indexOf (rand (k + d)) (List.length array)) = Some false.
Proof.
  intros Hne. induction m as [|m IH]; intros k Hacc.
  - exists 0%nat. split; [lia|]. split; [intros j Hj; lia|exact Hacc].
  - destruct (rejected inc seed array indexes
                       (indexOf (rand (k + 0)) (List.length array)))
      as [[|]|] eqn:R.
    + replace (k + S m)%nat with (S k + m)%nat in Hacc by lia.
      destruct (IH (S k) Hacc) as (d & Hd & Hrej & Hd').
      exists (S d). split; [lia|]. split.
      * intros j Hj. destruct j as [|j]; [exact R|].
        replace (k + S j)%nat with (S k + j)%nat by lia. apply Hrej. lia.
      * now replace (k + S d)%nat with (S k + d)%nat by lia.
    + exists 0%nat. split; [lia|]. split; [intros j Hj; lia|exact R].
    + exfalso. destruct (rand_unit (k + 0)%nat) as [H0 H1].
      now apply (rejected_defined inc seed array indexes _ H0 H1 Hne).
Qed.

(** One rejection loop: if fewer indexes are taken than the band has
    admissible colors, the loop returns. *)
Lemma sampleIndex_terminates (inc : bool) (seed : ColorModel.t)
      (array : ColorPalette) (indexes : list Z) (k : nat) :
  (List.length array <= N)%nat ->
  (List.length indexes < List.length (filter (admissible inc seed) array))%nat ->
  exists d index c,
    lookup array index = Some c
    /\ forall fuel, (d < fuel)%nat ->
         sampleIndex rand fuel inc seed array indexes k = Done index (S (k + d)).
Proof.
  intros HN Hfree.
  assert (array <> []) as Hne.
  { destruct array; [simpl in Hfree; lia|discriminate]. }
  destruct (pigeonhole (positions (admissible inc seed) array 0) indexes)
    as (z & Hz & Hout).
  { apply positions_NoDup. }
  { now rewrite positions_length. }
  destruct (positions_spec _ _ _ _ _ Hz) as (j & x & -> & Hn & Hp).
  rewrite Z.add_0_l in Hout.
  assert (j < List.length array)%nat as Hj.
  { apply nth_error_Some. congruence. }
  destruct (rand_fair (List.length array) j k Hj HN) as (k' & Hk' & Hidx).
  assert (rejected inc seed array indexes
                   (indexOf (rand (k + (k' - k))) (List.length array)) = Some false)
    as Hacc.
  { replace (k + (k' - k))%nat with k' by lia. rewrite Hidx.
    unfold rejected. rewrite Hout.
    unfold admissible in Hp. destruct inc; [|reflexivity].
    unfold lookup. destruct (Z.ltb_spec (Z.of_nat j) 0) as [L|L]; [lia|].
    rewrite Nat2Z.id, Hn. simpl in Hp. now rewrite negb_true_iff in Hp; rewrite Hp. }
  destruct (first_accepted inc seed array indexes (k' - k) Hne k Hacc)
    as (d & _ & Hrej & Hd).
  destruct (rand_unit (k + d)%nat) as [H0 H1].
  destruct (lookup_in_range array (indexOf (rand (k + d)) (List.length array)))
    as [c Hc].
  { apply indexOf_range; try assumption. lia. }
  exists d, (indexOf (rand (k + d)) (List.length array)), c.
  split; [exact Hc|].
  intros fuel Hfuel.
  now apply sampleIndex_first_accepted.
Qed.

(** One band: if the rounds asked for, added to the indexes already
    taken, do not exceed the admissible colors of the band, the band's
    loop returns, with the same result whatever the fuel above some
    bound. *)
Lemma sampleBand_terminates (inc : bool) (seed : ColorModel.t)
      (array : ColorPalette) (n : nat) :
  (List.length array <= N)%nat ->
  forall (indexes : list Z) (returned : ColorPalette) (k : nat),
    (n + List.length indexes <= List.length (filter (admissible inc seed) array))%nat ->
    exists fuel0 result k',
      forall fuel, (fuel0 <= fuel)%nat ->
        sampleBand rand fuel inc seed array n indexes returned k = Done result k'.
Proof.
  intros HN. induction n as [|n IH]; intros indexes returned k Hroom.
  - exists 0%nat, returned, k. reflexivity.
  - destruct (sampleIndex_terminates inc seed array indexes k HN)
      as (d & index & c & Hc & Hd); [lia|].
    destruct (IH (indexes ++ [index]) (returned ++ [c]) (S (k + d)%nat))
      as (fuel1 & result & k' & H1).
    { rewrite length_app. simpl. lia. }
    exists (Nat.max (S d) fuel1), result, k'.
    intros fuel Hfuel. rewrite sampleBand_unfold.
    rewrite Hd by lia. rewrite Hc. apply H1. lia.
Qed.

End Termination.

Lemma filter_length_bound (A : Type) (p : A -> bool) (l : list A) :
  (List.length (filter p l) <= List.length l)%nat.
Proof.
  induction l as [|x l IH]; simpl; [lia|].
  destruct (p x); simpl; lia.
Qed.

Lemma admissible_false_all (seed : ColorModel.t) (array : ColorPalette) :
  filter (admissible false seed) array = array.
Proof.
  induction array as [|x l IH]; simpl; [reflexivity|]. now rewrite IH.
Qed.

Lemma iterations_bound (array : ColorPalette) (n : Z) :
  (ColorPaletteGenerator.iterations array n <= List.length array)%nat.
Proof. unfold ColorPaletteGenerator.iterations. lia. Qed.

Lemma guardedIterations_bound (array : ColorPalette) (n : Z) :
  (ColorPaletteGenerator.guardedIterations array n <= List.length array)%nat.
Proof.
  destruct array; [simpl; lia|].
  apply (iterations_bound (t :: array)).
Qed.

Lemma band_room (inc : bool) (seed : ColorModel.t) (array : ColorPalette) (n : nat) :
  (n <= List.length array)%nat ->
  (inc = true -> (n <= seedFree seed array)%nat) ->
  (n + List.length (@nil Z) <= List.length (filter (admissible inc seed) array))%nat.
Proof.
  intros Hn Hs. simpl. rewrite Nat.add_0_r. destruct inc.
  - apply Hs. reflexivity.
  - now rewrite admissible_false_all.
Qed.

Lemma band_size (o : PaletteOptions) (g : ColorPaletteGenerator.t)
      (f : ColorModel.t -> bool) :
  (List.length (filter f (ColorPaletteGenerator.saturationFilter o
                            (ColorPaletteGenerator.fullPalette g)))
   <= List.length (ColorPaletteGenerator.fullPalette g))%nat.
Proof.
  unfold ColorPaletteGenerator.saturationFilter.
  eapply Nat.le_trans; [apply filter_length_bound|].
  eapply Nat.le_trans; [apply filter_length_bound|].
  apply filter_length_bound.
Qed.

(** C7, amended.  Let the values of [rand] be in the unit interval and let
    [rand] be fair up to the size of [fullPalette]: from any position on,
    each index of each band is drawn again.  Let also, when
    [includeBaseColor] is set, each band hold as many colors other than the
    base color as it is asked for.  Then [getDistributedPalette] returns:
    from some fuel on, every rejection loop ends within it and the result
    no longer depends on it. *)
Theorem getDistributedPalette_terminates {HS : ArraySort}
        (rand : nat -> number) (g : ColorPaletteGenerator.t)
        (o : PaletteOptions) (k : nat) :
  unit_interval rand ->
  fair (List.length (ColorPaletteGenerator.fullPalette g)) rand ->
  (includeBaseColor o = true -> enoughCandidates g o) ->
  exists fuel0 result k',
    forall fuel, (fuel0 <= fuel)%nat ->
      ColorPaletteGenerator.getDistributedPalette rand fuel g o k = Done result k'.
Proof.
  intros U F E.
  set (pool := ColorPaletteGenerator.saturationFilter o
                 (ColorPaletteGenerator.fullPalette g)).
  set (target := ColorPaletteGenerator.targetLength o).
  destruct (Z.of_nat (List.length pool) <=? target + 1)%Z eqn:C.
  - unfold ColorPaletteGenerator.getDistributedPalette.
    fold pool. fold target. rewrite C.
    destruct (sort (ColorPaletteGenerator.shuffleCompare rand) pool k) as [sh k1].
    exists 0%nat, (slice0 target sh), k1. reflexivity.
  - set (seed := ColorPaletteGenerator.baseColor g).
    set (inc := includeBaseColor o).
    set (dI := ColorPaletteGenerator.guardedIterations
                 (ColorPaletteGenerator.darkBand pool) (target / 4)%Z).
    set (lI := ColorPaletteGenerator.guardedIterations
                 (ColorPaletteGenerator.lightBand pool) (target / 4)%Z).
    set (bI := ColorPaletteGenerator.iterations
                 (ColorPaletteGenerator.baseBand pool)
                 (target - Z.of_nat (dI + lI))%Z).
    assert (inc = true ->
            (dI <= seedFree seed (ColorPaletteGenerator.darkBand pool))%nat
            /\ (lI <= seedFree seed (ColorPaletteGenerator.lightBand pool))%nat
            /\ (bI <= seedFree seed (ColorPaletteGenerator.baseBand pool))%nat) as E'.
    { intros Hi. apply (E Hi). }
    destruct (sampleBand_terminates rand _ U F inc seed
                (ColorPaletteGenerator.darkBand pool) dI
                (band_size o g _) [] (if inc then [seed] else []) k)
      as (f1 & r1 & k1 & H1).
    { apply band_room; [apply guardedIterations_bound|]. intros Hi. now apply E'. }
    destruct (sampleBand_terminates rand _ U F inc seed
                (ColorPaletteGenerator.lightBand pool) lI
                (band_size o g _) [] r1 k1)
      as (f2 & r2 & k2 & H2).
    { apply band_room; [apply guardedIterations_bound|]. intros Hi. now apply E'. }
    destruct (sampleBand_terminates rand _ U F inc seed
                (ColorPaletteGenerator.baseBand pool) bI
                (band_size o g _) [] r2 k2)
      as (f3 & r3 & k3 & H3).
    { apply band_room; [apply iterations_bound|]. intros Hi. now apply E'. }
    exists (Nat.max f1 (Nat.max f2 f3)).
    destruct (sortByBrightness o) eqn:S.
    + destruct (sort ColorPaletteGenerator.brightnessCompare r3 k3) as [sorted k4] eqn:Es.
      exists sorted, k4. intros fuel Hfuel.
      rewrite getDistributedPalette_sampling by exact C.
      fold pool target seed inc dI lI bI.
      rewrite H1 by lia. rewrite H2 by lia. rewrite H3 by lia.
      now rewrite S, Es.
    + exists r3, k3. intros fuel Hfuel.
      rewrite getDistributedPalette_sampling by exact C.
      fold pool target seed inc dI lI bI.
      rewrite H1 by lia. rewrite H2 by lia. rewrite H3 by lia.
      now rewrite S.
Qed.

Lemma cyclicRand_mod (k m : nat) :
  (m < 9)%nat -> cyclicRand (m + k * 9) = Js.of_Z (Z.of_nat m) / 9.
Proof.
  intros H. unfold cyclicRand.
  now rewrite Nat.Div0.mod_add, Nat.mod_small.
Qed.

Lemma cyclicRand_unit : unit_interval cyclicRand.
Proof.
  intros k. unfold cyclicRand.
  pose proof (Nat.mod_upper_bound k 9 ltac:(discriminate)) as H.
  destruct (k mod 9)%nat as [|[|[|[|[|[|[|[|[|m]]]]]]]]]; try lia;
    split; vm_compute; congruence.
Qed.

Lemma cyclicPick_table :
  forallb (fun n =>
             forallb (fun j => match cyclicPick n j with
                               | Some _ => true
                               | None => false
                               end) (seq 0 n))
          (seq 1 9) = true.
Proof. vm_compute. reflexivity. Qed.

Lemma cyclicRand_fair : fair 9 cyclicRand.
Proof.
  intros n j k Hj Hn.
  pose proof cyclicPick_table as T.
  rewrite forallb_forall in T.
  assert (In n (seq 1 9)) as In_n by (apply in_seq; lia).
  specialize (T n In_n). rewrite forallb_forall in T.
  assert (In j (seq 0 n)) as In_j by (apply in_seq; lia).
  specialize (T j In_j).
  destruct (cyclicPick n j) as [m|] eqn:P; [|discriminate].
  unfold cyclicPick in P. apply find_some in P. destruct P as [Hm Em].
  apply in_seq in Hm. apply Z.eqb_eq in Em.
  exists (m + k * 9)%nat. split; [lia|].
  rewrite cyclicRand_mod by lia. exact Em.
Qed.

Lemma getDistributedPalette_terminates_witness :
  let run := ColorPaletteGenerator.constructor cyclicRand
               (mkParams (Some 1%Z) None (Some "#3459c7"%string) None) 0%nat in
  let o := mkOptions 4 true true true 0 100 0 100 in
  exists fuel0 result k',
    forall fuel, (fuel0 <= fuel)%nat ->
      ColorPaletteGenerator.getDistributedPalette (HS := insertionSort)
        cyclicRand fuel (fst run) o (snd run) = Done result k'.
Proof.
  intros run o.
  apply (getDistributedPalette_terminates (HS := insertionSort)
           cyclicRand (fst run) o (snd run)).
  - exact cyclicRand_unit.
  - replace (List.length (ColorPaletteGenerator.fullPalette (fst run)))
      with 9%nat by (vm_compute; reflexivity).
    exact cyclicRand_fair.
  - intros _. vm_compute. repeat split; repeat constructor.
Defined.

(** *** The rounds that a band can serve *)

Lemma positions_complete (A : Type) (p : A -> bool) (l : list A) (start : Z)
      (j : nat) (x : A) :
  nth_error l j = Some x -> p x = true ->
  In (start + Z.of_nat j)%Z (positions p l start).
Proof.
  revert start j; induction l as [|y l IH]; intros start j Hn Hp.
  - destruct j; discriminate.
  - destruct j as [|j]; simpl in *.
    + inversion Hn; subst. rewrite Hp. left. lia.
    + specialize (IH (start + 1)%Z j Hn Hp).
      replace (start + Z.pos (Pos.of_succ_nat j))%Z
        with (start + 1 + Z.of_nat j)%Z by lia.
      destruct (p y); [right|]; exact IH.
Qed.

Section Rounds.

Import ColorPaletteGenerator.

Variable rand : nat -> number.

(** An index that a rejection loop returns is a position of the band that
    holds an admissible color and is not among the indexes taken. *)
Lemma sampleIndex_done_admissible (fuel : nat) (inc : bool) (seed : ColorModel.t)
      (array : ColorPalette) (indexes : list Z) (k : nat) (index : Z) (k1 : nat)
      (c : ColorModel.t) :
  sampleIndex rand fuel inc seed array indexes k = Done index k1 ->
  lookup array index = Some c ->
  ~ In index indexes /\ In index (positions (admissible inc seed) array 0).
Proof.
  intros E Hc.
  destruct (sampleIndex_done _ _ _ _ _ _ _ _ _ E) as (_ & _ & _ & _ & R).
  unfold rejected in R.
  destruct (existsb (Z.eqb index) indexes) eqn:X; [discriminate|].
  split.
  - intros Hin.
    assert (existsb (Z.eqb index) indexes = true) as T; [|congruence].
    apply existsb_exists. exists index. split; [exact Hin|apply Z.eqb_refl].
  - assert (admissible inc seed c = true) as Ha.
    { unfold admissible. destruct inc; [|reflexivity].
      rewrite Hc in R. inversion R as [R']. simpl. now rewrite R'. }
    unfold lookup in Hc.
    destruct (Z.ltb_spec index 0) as [L|L]; [discriminate|].
    pose proof (positions_complete _ (admissible inc seed) array 0
                  (Z.to_nat index) c Hc Ha) as P.
    now rewrite Z2Nat.id, Z.add_0_l in P by exact L.
Qed.

(** A band's loop that returns has drawn distinct admissible positions: the
    rounds, added to the indexes taken before, do not exceed the admissible
    colors of the band.  A band that is asked for more never returns. *)
Lemma sampleBand_done_room (fuel : nat) (inc : bool) (seed : ColorModel.t)
      (array : ColorPalette) (n : nat) :
  forall (indexes : list Z) (returned : ColorPalette) (k : nat)
         (result : ColorPalette) (k' : nat),
    NoDup indexes ->
    incl indexes (positions (admissible inc seed) array 0) ->
    sampleBand rand fuel inc seed array n indexes returned k = Done result k' ->
    (n + List.length indexes <= List.length (filter (admissible inc seed) array))%nat.
Proof.
  induction n as [|n IH]; intros indexes returned k result k' ND I E.
  - simpl. rewrite <- (positions_length _ (admissible inc seed) array 0).
    now apply NoDup_incl_length.
  - rewrite sampleBand_unfold in E.
    destruct (sampleIndex rand fuel inc seed array indexes k)
      as [index k1| |] eqn:Ei; try discriminate.
    destruct (lookup array index) as [c|] eqn:Hc; try discriminate.
    destruct (sampleIndex_done_admissible _ _ _ _ _ _ _ _ _ Ei Hc) as [Hout Hin].
    specialize (IH (indexes ++ [index]) (returned ++ [c]) k1 result k').
    rewrite length_app in IH. simpl in IH.
    assert (n + (List.length indexes + 1)
            <= List.length (filter (admissible inc seed) array))%nat; [|lia].
    apply IH; [| |exact E].
    + apply NoDup_app; [exact ND|repeat constructor; intros []|].
      intros z Hz [<-|[]]. contradiction.
    + intros z Hz. apply in_app_or in Hz.
      destruct Hz as [Hz|[<-|[]]]; [now apply I|exact Hin].
Qed.

End Rounds.

(** With [includeBaseColor], a call outside the fallback that asks the
    middle band for more colors than it holds besides the base color does
    not return, whatever [rand] is. *)
Lemma getDistributedPalette_starved {HS : ArraySort} (rand : nat -> number)
      (fuel : nat) (g : ColorPaletteGenerator.t) (o : PaletteOptions)
      (k k' : nat) (result : ColorPalette) :
  let pool := ColorPaletteGenerator.saturationFilter o
                (ColorPaletteGenerator.fullPalette g) in
  let target := ColorPaletteGenerator.targetLength o in
  let darkIterations :=
    ColorPaletteGenerator.guardedIterations
      (ColorPaletteGenerator.darkBand pool) (target / 4)%Z in
  let lightIterations :=
    ColorPaletteGenerator.guardedIterations
      (ColorPaletteGenerator.lightBand pool) (target / 4)%Z in
  let baseIterations :=
    ColorPaletteGenerator.iterations
      (ColorPaletteGenerator.baseBand pool)
      (target - Z.of_nat (darkIterations + lightIterations))%Z in
  includeBaseColor o = true ->
  (Z.of_nat (List.length pool) <=? target + 1)%Z = false ->
  (seedFree (ColorPaletteGenerator.baseColor g)
            (ColorPaletteGenerator.baseBand pool) < baseIterations)%nat ->
  ColorPaletteGenerator.getDistributedPalette rand fuel g o k <> Done result k'.
Proof.
  intros pool target dI lI bI Hinc Hmain Hstarved E.
  rewrite getDistributedPalette_sampling in E by exact Hmain.
  fold pool target dI lI bI in E. rewrite Hinc in E.
  destruct (ColorPaletteGenerator.sampleBand rand fuel true _ _ dI _ _ _)
    as [r1 k1| |]; try discriminate.
  destruct (ColorPaletteGenerator.sampleBand rand fuel true _ _ lI _ _ _)
    as [r2 k2| |]; try discriminate.
  destruct (ColorPaletteGenerator.sampleBand rand fuel true _ _ bI _ _ _)
    as [r3 k3| |] eqn:E3; try discriminate.
  apply sampleBand_done_room in E3; [|constructor|intros z []].
  simpl in E3. unfold seedFree in Hstarved.
  change (filter (admissible true (ColorPaletteGenerator.baseColor g)))
    with (filter (fun c => negb (ColorModel.equals c (ColorPaletteGenerator.baseColor g))))
    in E3.
  lia.
Qed.

(** An instance: the generator is built from ['#3459c7'] with the default
    parameters while [rand] returns 0.5, and [rand] continues with any
    sequence [r] whatever.  [getDistributedPalette({length: 26,
    includeBaseColor: true})] takes 5 dark and 6 light colors and asks the
    middle band, 14 colors one of which is the base color, for 14: it does
    not return. *)
Lemma distributed_palette_starved_example (r : nat -> number) (fuel : nat)
      (result : ColorPalette) (k' : nat) :
  let rand := fun k : nat => if (k <? 10)%nat then 1 # 2 else r k in
  let run := ColorPaletteGenerator.constructor rand
               (mkParams None None (Some "#3459c7"%string) None) 0%nat in
  ColorPaletteGenerator.getDistributedPalette (HS := insertionSort)
    rand fuel (fst run) (mkOptions 26 true true true 0 100 0 100) (snd run)
  <> Done result k'.
Proof.
  intros rand run.
  apply getDistributedPalette_starved.
  - reflexivity.
  - vm_compute. reflexivity.
  - vm_compute. repeat constructor.
Qed.


(** * Further properties *)

(** ** Hexadecimal codes and channels *)

Lemma hex_digit_value_bound (c : ascii) (d : Z) :
  hex_digit_value c = Some d -> (0 <= d <= 15)%Z.
Proof.
  unfold hex_digit_value.
  destruct ((48 <=? nat_of_ascii c) && (nat_of_ascii c <=? 57))%nat eqn:A.
  - apply andb_true_iff in A. destruct A as [A1 A2].
    apply Nat.leb_le in A1, A2. intros E; inversion E; lia.
  - destruct ((97 <=? nat_of_ascii c) && (nat_of_ascii c <=? 102))%nat eqn:B.
    + apply andb_true_iff in B. destruct B as [B1 B2].
      apply Nat.leb_le in B1, B2. intros E; inversion E; lia.
    + destruct ((65 <=? nat_of_ascii c) && (nat_of_ascii c <=? 70))%nat eqn:C;
        [|discriminate].
      apply andb_true_iff in C. destruct C as [C1 C2].
      apply Nat.leb_le in C1, C2. intros E; inversion E; lia.
Qed.

(** Whatever two characters [parseInt] is given, it reads a byte. *)
Lemma parseInt16_two_bound (a b : ascii) :
  (0 <= parseInt16_from 0 (String a (String b EmptyString)) <= 255)%Z.
Proof.
  cbn [parseInt16_from]. destruct (hex_digit_value a) as [x|] eqn:A; [|lia].
  apply hex_digit_value_bound in A.
  destruct (hex_digit_value b) as [y|] eqn:B; [|lia].
  apply hex_digit_value_bound in B. lia.
Qed.

Lemma six_hex_groups_inv (s g1 g2 g3 : string) :
  ColorModel.six_hex_groups s = Some (g1, g2, g3) ->
  exists a b c d e f,
    g1 = String a (String b EmptyString)
    /\ g2 = String c (String d EmptyString)
    /\ g3 = String e (String f EmptyString).
Proof.
  unfold ColorModel.six_hex_groups.
  destruct (Nat.eqb_spec (String.length s) 6) as [L|L]; [|discriminate].
  destruct s as [|a [|b [|c [|d [|e [|f [|x s]]]]]]]; try discriminate L.
  destruct (string_forallb _ _); [|discriminate].
  simpl. intros E; inversion E; subst. now exists a, b, c, d, e, f.
Qed.

Lemma hexToRgb_bytes (hexCode : string) :
  exists r g b : Z,
    ColorModel.hexToRgb hexCode = mkRGB (Js.of_Z r) (Js.of_Z g) (Js.of_Z b)
    /\ (0 <= r <= 255)%Z /\ (0 <= g <= 255)%Z /\ (0 <= b <= 255)%Z.
Proof.
  unfold ColorModel.hexToRgb.
  destruct (ColorModel.hex_pattern_exec hexCode) as [[[g1 g2] g3]|] eqn:E.
  - assert (exists s, ColorModel.six_hex_groups s = Some (g1, g2, g3)) as [s Hs].
    { unfold ColorModel.hex_pattern_exec in E.
      destruct hexCode as [|c rest]; [now exists EmptyString|].
      destruct c as [[] [] [] [] [] [] [] []]; eauto. }
    destruct (six_hex_groups_inv _ _ _ _ Hs)
      as (a & b & c & d & e & f & -> & -> & ->).
    unfold parseInt16.
    exists (parseInt16_from 0 (String a (String b EmptyString))),
           (parseInt16_from 0 (String c (String d EmptyString))),
           (parseInt16_from 0 (String e (String f EmptyString))).
    split; [reflexivity|].
    split; [|split]; apply parseInt16_two_bound.
  - exists 0%Z, 0%Z, 0%Z. split; [reflexivity|lia].
Qed.

(** X1. Whatever the string, [hexToRgb] returns three integer channels
    from 0 to 255. *)
Theorem hexToRgb_channels_are_bytes (hexCode : string) :
  let c := ColorModel.hexToRgb hexCode in
  byteChannels c
  /\ whole (rgb_r c) /\ whole (rgb_g c) /\ whole (rgb_b c).
Proof.
  destruct (hexToRgb_bytes hexCode) as (r & g & b & E & Hr & Hg & Hb).
  cbv zeta. rewrite E. cbn [rgb_r rgb_g rgb_b].
  unfold byteChannels, in_range, whole, Js.of_Z. cbn [rgb_r rgb_g rgb_b].
  change 0%Q with (inject_Z 0). change 255%Q with (inject_Z 255).
  rewrite <- !Zle_Qle.
  repeat split; try lia; eexists; reflexivity.
Qed.

(** *** Writing a code and reading it back *)

Lemma roundZ_of_Z (n : Z) : Js.roundZ (Js.of_Z n) = n.
Proof.
  unfold Js.roundZ, Js.of_Z.
  apply Z.le_antisymm.
  - apply Z.lt_succ_r. rewrite Zlt_Qlt.
    apply Qle_lt_trans with (inject_Z n + (1 # 2))%Q; [apply Qfloor_le|].
    unfold Z.succ. rewrite inject_Z_plus.
    change (inject_Z 1) with 1%Q. lra.
  - rewrite <- (Qfloor_Z n) at 1. apply Qfloor_resp_le. lra.
Qed.

Lemma toHex_roundZ (x : number) :
  ColorModel.toHex x = ColorModel.toHex (Js.of_Z (Js.roundZ x)).
Proof. unfold ColorModel.toHex. now rewrite roundZ_of_Z. Qed.

Lemma toHex_table :
  forallb toHex_reads_back (map Z.of_nat (seq 0 256)) = true.
Proof. vm_compute. reflexivity. Qed.

(** A channel that rounds to a byte is written as two hexadecimal digits,
    which read back as that byte. *)
Lemma toHex_byte (x : number) :
  rounds_to_byte x ->
  exists hi lo,
    ColorModel.toHex x = String hi (String lo EmptyString)
    /\ is_hex_digit hi = true /\ is_hex_digit lo = true
    /\ parseInt16 (String hi (String lo EmptyString)) = Js.round x.
Proof.
  intros H. rewrite toHex_roundZ.
  pose proof toHex_table as T. rewrite forallb_forall in T.
  specialize (T (Js.roundZ x)).
  assert (In (Js.roundZ x) (map Z.of_nat (seq 0 256))) as I.
  { apply in_map_iff. exists (Z.to_nat (Js.roundZ x)).
    unfold rounds_to_byte in H.
    split; [lia|]. apply in_seq. lia. }
  specialize (T I). unfold toHex_reads_back in T.
  destruct (ColorModel.toHex (Js.of_Z (Js.roundZ x))) as [|hi [|lo [|? ?]]];
    try discriminate T.
  apply andb_true_iff in T. destruct T as [T T3].
  apply andb_true_iff in T. destruct T as [T1 T2].
  apply Z.eqb_eq in T3.
  exists hi, lo. split; [reflexivity|]. split; [exact T1|]. split; [exact T2|].
  unfold parseInt16, Js.round. now rewrite T3.
Qed.

Lemma hex_round_trip (c : RGBColor) :
  rounds_to_byte (rgb_r c) -> rounds_to_byte (rgb_g c) ->
  rounds_to_byte (rgb_b c) ->
  HexPattern (ColorModel.rgbToHex c)
  /\ ColorModel.hexToRgb (ColorModel.rgbToHex c) = roundedChannels c.
Proof.
  intros Hr Hg Hb.
  destruct (toHex_byte _ Hr) as (r1 & r2 & Er & R1 & R2 & Pr).
  destruct (toHex_byte _ Hg) as (g1 & g2 & Eg & G1 & G2 & Pg).
  destruct (toHex_byte _ Hb) as (b1 & b2 & Eb & B1 & B2 & Pb).
  unfold ColorModel.rgbToHex. rewrite Er, Eg, Eb. simpl append.
  assert (Forall (fun x => In x hex_alphabet) [r1; r2; g1; g2; b1; b2]) as F.
  { repeat (apply Forall_cons; [now apply is_hex_digit_alphabet|]).
    apply Forall_nil. }
  split.
  - right. eexists. split; [reflexivity|]. split; [reflexivity|exact F].
  - unfold ColorModel.hexToRgb. rewrite hex_pattern_exec_sharp.
    unfold ColorModel.six_hex_groups.
    assert (string_forallb is_hex_digit
              (String r1 (String r2 (String g1 (String g2
                 (String b1 (String b2 EmptyString)))))) = true) as S.
    { simpl. now rewrite R1, R2, G1, G2, B1, B2. }
    rewrite S. simpl Nat.eqb. simpl andb. cbv iota. simpl substring.
    unfold roundedChannels. now rewrite Pr, Pg, Pb.
Qed.

(** X2. When every channel rounds to an integer from 0 to 255, [rgbToHex]
    writes a code that matches the pattern of [hexToRgb], and reading the
    code back gives the rounded channels: on integer channels from 0 to
    255, [hexToRgb] undoes [rgbToHex]. *)
Theorem hexToRgb_undoes_rgbToHex (c : RGBColor) :
  rounds_to_byte (rgb_r c) -> rounds_to_byte (rgb_g c) ->
  rounds_to_byte (rgb_b c) ->
  HexPattern (ColorModel.rgbToHex c)
  /\ ColorModel.hexToRgb (ColorModel.rgbToHex c) = roundedChannels c
  /\ (whole (rgb_r c) -> whole (rgb_g c) -> whole (rgb_b c) ->
      ColorModel.hexToRgb (ColorModel.rgbToHex c) = c).
Proof.
  intros Hr Hg Hb. destruct (hex_round_trip c Hr Hg Hb) as [P E].
  split; [exact P|]. split; [exact E|].
  intros [r Wr] [g Wg] [b Wb]. rewrite E.
  destruct c as [cr cg cb]. unfold roundedChannels, Js.round.
  cbn [rgb_r rgb_g rgb_b] in *. subst. now rewrite !roundZ_of_Z.
Qed.

Lemma hexToRgb_undoes_rgbToHex_witness :
  ColorModel.hexToRgb (ColorModel.rgbToHex (mkRGB 52 (891 # 10) 199))
  = roundedChannels (mkRGB 52 (891 # 10) 199).
Proof.
  apply (hexToRgb_undoes_rgbToHex (mkRGB 52 (891 # 10) 199));
    vm_compute; split; discriminate.
Defined.

(** *** Reading a code and writing it back *)

Lemma toHex_byte_value (a b : ascii) :
  In a hex_alphabet -> In b hex_alphabet ->
  ColorModel.toHex (byte_value a b)
  = String (to_lower a) (String (to_lower b) EmptyString).
Proof.
  intros Ha Hb. simpl in Ha, Hb.
  repeat (destruct Ha as [<-|Ha]; [|]); try contradiction;
    repeat (destruct Hb as [<-|Hb]; [|]); try contradiction;
    vm_compute; reflexivity.
Qed.

(** X3. Reading a code of six hexadecimal digits, with or without the
    leading [#], and writing it back gives the code in its normal form:
    a [#] followed by the same digits in lower case. *)
Theorem rgbToHex_normalises_the_code (s : string) :
  SixHexDigits s ->
  ColorModel.rgbToHex (ColorModel.hexToRgb s) = String "#" (lowercase s)
  /\ ColorModel.rgbToHex (ColorModel.hexToRgb (String "#" s))
     = String "#" (lowercase s).
Proof.
  intros H.
  assert (ColorModel.hexToRgb (String "#" s) = ColorModel.hexToRgb s) as E.
  { unfold ColorModel.hexToRgb.
    now rewrite hex_pattern_exec_sharp, hex_pattern_exec_plain. }
  rewrite E. clear E.
  assert (ColorModel.rgbToHex (ColorModel.hexToRgb s) = String "#" (lowercase s))
    as R; [|now split].
  destruct (SixHexDigits_inv s H) as (a & b & c & d & e & f & -> & F).
  rewrite (hexToRgb_digits _ _ _ _ _ _ F).
  repeat match goal with
         | H : Forall _ (_ :: _) |- _ => inversion H; clear H; subst
         end.
  unfold ColorModel.rgbToHex; cbn [rgb_r rgb_g rgb_b].
  rewrite !toHex_byte_value by assumption.
  reflexivity.
Qed.

Lemma rgbToHex_normalises_the_code_witness :
  ColorModel.rgbToHex (ColorModel.hexToRgb "3459C7") = "#3459c7"%string.
Proof.
  apply (rgbToHex_normalises_the_code "3459C7").
  split; [reflexivity|].
  repeat (apply Forall_cons; [apply is_hex_digit_alphabet; reflexivity|]).
  apply Forall_nil.
Defined.

(** *** Channels that do not fit two digits *)

Lemma string_length_append (a b : string) :
  String.length (a ++ b) = (String.length a + String.length b)%nat.
Proof. induction a as [|c a IH]; simpl; [reflexivity|now rewrite IH]. Qed.

Lemma string_forallb_append (p : ascii -> bool) (a b : string) :
  string_forallb p (a ++ b) = string_forallb p a && string_forallb p b.
Proof.
  induction a as [|c a IH]; simpl; [reflexivity|].
  now rewrite IH, andb_assoc.
Qed.

Lemma hex_digits_length (fuel : nat) (n : Z) (acc : string) :
  (String.length acc <= String.length (hex_digits fuel n acc))%nat.
Proof.
  revert n acc; induction fuel as [|fuel IH]; intros n acc; simpl; [lia|].
  destruct (n / 16 =? 0)%Z; simpl; [lia|].
  specialize (IH (n / 16)%Z (String (hex_char (n mod 16)) acc)). simpl in IH. lia.
Qed.

Lemma toString16_nonempty (n : Z) : (1 <= String.length (toString16 n))%nat.
Proof.
  unfold toString16. destruct (n <? 0)%Z; simpl; [lia|].
  destruct (n / 16 =? 0)%Z; simpl; [lia|].
  pose proof (hex_digits_length (Z.to_nat (Z.log2 n)) (n / 16)
                (String (hex_char (n mod 16)) EmptyString)) as H.
  simpl in H. lia.
Qed.

Lemma toString16_three (n : Z) :
  (256 <= n)%Z -> (3 <= String.length (toString16 n))%nat.
Proof.
  intros H. unfold toString16.
  destruct (Z.ltb_spec n 0) as [N|_]; [lia|].
  assert (8 <= Z.log2 n)%Z as L.
  { change 8%Z with (Z.log2 256). now apply Z.log2_le_mono. }
  destruct (Z.to_nat (Z.log2 n)) as [|[|f]] eqn:F; try lia.
  cbn [hex_digits].
  destruct (Z.eqb_spec (n / 16) 0) as [E|_].
  { exfalso. assert (16 <= n / 16)%Z by (apply Z.div_le_lower_bound; lia). lia. }
  destruct (Z.eqb_spec (n / 16 / 16) 0) as [E|_].
  { exfalso. rewrite Z.div_div in E by lia.
    assert (1 <= n / (16 * 16))%Z by (apply Z.div_le_lower_bound; lia). lia. }
  destruct (n / 16 / 16 / 16 =? 0)%Z; [simpl; lia|].
  match goal with
  | |- (_ <= String.length (hex_digits ?f ?m ?acc))%nat =>
      pose proof (hex_digits_length f m acc) as H1
  end.
  simpl in H1. lia.
Qed.

Lemma toHex_length (x : number) : (2 <= String.length (ColorModel.toHex x))%nat.
Proof.
  unfold ColorModel.toHex. pose proof (toString16_nonempty (Js.roundZ x)) as H.
  destruct (Nat.eqb_spec (String.length (toString16 (Js.roundZ x))) 1) as [E|E].
  - simpl. lia.
  - lia.
Qed.

(** A channel that does not round to a byte is written with a sign or
    with more than two digits. *)
Lemma toHex_not_byte (x : number) :
  ~ rounds_to_byte x ->
  string_forallb is_hex_digit (ColorModel.toHex x) = false
  \/ (3 <= String.length (ColorModel.toHex x))%nat.
Proof.
  intros H. unfold rounds_to_byte in H.
  destruct (Z.ltb_spec (Js.roundZ x) 0) as [N|P].
  - left. unfold ColorModel.toHex, toString16.
    apply Z.ltb_lt in N. rewrite N.
    match goal with |- context [Nat.eqb ?a 1] => destruct (Nat.eqb a 1) end;
      reflexivity.
  - right. assert (256 <= Js.roundZ x)%Z as B by lia.
    apply toString16_three in B. unfold ColorModel.toHex.
    destruct (Nat.eqb_spec (String.length (toString16 (Js.roundZ x))) 1) as [E|E];
      [lia|exact B].
Qed.

(** X4. [rgbToHex] does not clamp: when a channel rounds to an integer
    below 0 or above 255, the code that is written does not match the
    pattern of [hexToRgb], and reading it back gives black, whatever the
    other channels. *)
Theorem rgbToHex_does_not_clamp (c : RGBColor) :
  ~ rounds_to_byte (rgb_r c) \/ ~ rounds_to_byte (rgb_g c)
  \/ ~ rounds_to_byte (rgb_b c) ->
  ~ HexPattern (ColorModel.rgbToHex c)
  /\ ColorModel.hexToRgb (ColorModel.rgbToHex c) = mkRGB 0 0 0.
Proof.
  intros H.
  assert (ColorModel.hex_pattern_exec (ColorModel.rgbToHex c) = None) as E.
  { unfold ColorModel.rgbToHex. rewrite hex_pattern_exec_sharp.
    unfold ColorModel.six_hex_groups.
    rewrite !string_forallb_append, !string_length_append.
    pose proof (toHex_length (rgb_r c)) as Lr.
    pose proof (toHex_length (rgb_g c)) as Lg.
    pose proof (toHex_length (rgb_b c)) as Lb.
    destruct H as [H|[H|H]]; apply toHex_not_byte in H; destruct H as [H|H].
    - rewrite H. cbn [andb]. now rewrite andb_false_r.
    - destruct (Nat.eqb_spec (String.length (ColorModel.toHex (rgb_r c))
               + (String.length (ColorModel.toHex (rgb_g c))
                  + String.length (ColorModel.toHex (rgb_b c)))) 6);
        [lia|reflexivity].
    - rewrite H. cbn [andb]. now rewrite andb_false_r, andb_false_r.
    - destruct (Nat.eqb_spec (String.length (ColorModel.toHex (rgb_r c))
               + (String.length (ColorModel.toHex (rgb_g c))
                  + String.length (ColorModel.toHex (rgb_b c)))) 6);
        [lia|reflexivity].
    - rewrite H. now rewrite !andb_false_r.
    - destruct (Nat.eqb_spec (String.length (ColorModel.toHex (rgb_r c))
               + (String.length (ColorModel.toHex (rgb_g c))
                  + String.length (ColorModel.toHex (rgb_b c)))) 6);
        [lia|reflexivity]. }
  split.
  - intros P. apply hex_pattern_exec_Some in P. now apply P.
  - unfold ColorModel.hexToRgb. now rewrite E.
Qed.

Lemma rgbToHex_does_not_clamp_witness :
  ColorModel.hexToRgb (ColorModel.rgbToHex (mkRGB 256 10 (-1))) = mkRGB 0 0 0.
Proof.
  apply (rgbToHex_does_not_clamp (mkRGB 256 10 (-1))).
  left. vm_compute. intros [_ H]. now apply H.
Defined.

(** ** The ranges of the conversions *)

Section Ranges.

Local Open Scope Q_scope.

Lemma max_spec (x y : Q) :
  x <= Js.max x y /\ y <= Js.max x y /\ (Js.max x y = x \/ Js.max x y = y).
Proof.
  unfold Js.max. destruct (Qle_bool x y) eqn:E.
  - apply Qle_bool_iff in E. split; [exact E|]. split; [apply Qle_refl|now right].
  - apply Qle_bool_false in E. split; [apply Qle_refl|].
    split; [now apply Qlt_le_weak|now left].
Qed.

Lemma min_spec (x y : Q) :
  Js.min x y <= x /\ Js.min x y <= y /\ (Js.min x y = x \/ Js.min x y = y).
Proof.
  unfold Js.min. destruct (Qle_bool x y) eqn:E.
  - apply Qle_bool_iff in E. split; [apply Qle_refl|]. split; [exact E|now left].
  - apply Qle_bool_false in E. split; [now apply Qlt_le_weak|].
    split; [apply Qle_refl|now right].
Qed.

Lemma floor_bounds (x : Q) (a b : Z) :
  inject_Z a <= x -> x < inject_Z b + 1 ->
  (a <= Qfloor x <= b)%Z.
Proof.
  intros Ha Hb. split.
  - rewrite <- (Qfloor_Z a). now apply Qfloor_resp_le.
  - apply Z.lt_succ_r. rewrite Zlt_Qlt.
    apply Qle_lt_trans with x; [apply Qfloor_le|].
    unfold Z.succ. rewrite inject_Z_plus. exact Hb.
Qed.

Lemma ratio_bounds (n d : Q) :
  0 < d -> - d <= n -> n <= d -> -1 <= n / d /\ n / d <= 1.
Proof.
  intros Hd H1 H2. split.
  - apply Qle_shift_div_l; [exact Hd|]. lra.
  - apply Qle_shift_div_r; [exact Hd|]. lra.
Qed.

(** [rgbToHsl] on channels between 0 and 255. *)
Lemma rgbToHsl_range (r g b : Q) :
  0 <= r -> r <= 255 -> 0 <= g -> g <= 255 -> 0 <= b -> b <= 255 ->
  let c := ColorModel.rgbToHsl (mkRGB r g b) in
  exists h s l : Z,
    c = mkHSL (inject_Z h) (inject_Z s) (inject_Z l)
    /\ (0 <= h <= 359)%Z /\ (0 <= s <= 100)%Z /\ (0 <= l <= 100)%Z.
Proof.
  intros Hr0 Hr1 Hg0 Hg1 Hb0 Hb1.
  unfold ColorModel.rgbToHsl. cbv zeta. cbn [rgb_r rgb_g rgb_b].
  set (R := Js.div r 255). set (G := Js.div g 255). set (B := Js.div b 255).
  assert (R == r * (1 # 255)) as ER
    by (unfold R, Js.div; rewrite Qred_correct; field).
  assert (G == g * (1 # 255)) as EG
    by (unfold G, Js.div; rewrite Qred_correct; field).
  assert (B == b * (1 # 255)) as EB
    by (unfold B, Js.div; rewrite Qred_correct; field).
  destruct (max_spec R G) as (M1 & M2 & M3).
  destruct (max_spec (Js.max R G) B) as (M4 & M5 & M6).
  destruct (min_spec R G) as (N1 & N2 & N3).
  destruct (min_spec (Js.min R G) B) as (N4 & N5 & N6).
  set (mx := Js.max (Js.max R G) B) in *.
  set (mn := Js.min (Js.min R G) B) in *.
  assert (0 <= mn /\ mx <= 1) as [Hmn Hmx].
  { split.
    - destruct N6 as [-> | ->]; [destruct N3 as [-> | ->]|]; lra.
    - destruct M6 as [-> | ->]; [destruct M3 as [-> | ->]|]; lra. }
  assert (mn <= R /\ mn <= G /\ mn <= B /\ R <= mx /\ G <= mx /\ B <= mx)
    as (A1 & A2 & A3 & A4 & A5 & A6) by (repeat split; lra).
  unfold Js.add, Js.sub, Js.mul, Js.div.
  set (l := Qred (Qred (mx + mn) / 2)).
  assert (l == (mx + mn) * (1 # 2)) as El.
  { unfold l. rewrite !Qred_correct. field. }
  assert (exists lz : Z, Js.floor (Qred (l * 100)) = inject_Z lz /\ (0 <= lz <= 100)%Z)
    as (lz & Elz & Hlz).
  { exists (Qfloor (Qred (l * 100))). split; [reflexivity|].
    apply floor_bounds; rewrite Qred_correct; cbv [inject_Z]; lra. }
  unfold Js.eqb.
  destruct (Qeq_bool mx mn) eqn:Emm.
  - cbv beta iota. exists 0%Z, 0%Z, lz. rewrite Elz.
    split; [reflexivity|]. repeat split; try lia.
  - apply Qeq_bool_false in Emm.
    assert (mn < mx) as Hlt.
    { apply Qnot_le_lt. intros C. apply Emm. apply Qle_antisym; lra. }
    set (d := Qred (mx - mn)).
    assert (d == mx - mn) as Ed by (unfold d; apply Qred_correct).
    assert (0 < d) as Hd by lra.
    (* saturation *)
    set (sq := if Js.gt l (1 # 2)
               then Qred (d / Qred (Qred (2 - mx) - mn))
               else Qred (d / Qred (mx + mn))).
    assert (0 <= sq /\ sq <= 1) as [Hs0 Hs1].
    { unfold sq. destruct (Js.gt l (1 # 2)) eqn:Egt.
      - apply gt_true_iff in Egt.
        set (D := Qred (Qred (2 - mx) - mn)).
        assert (D == 2 - mx - mn) as ED by (unfold D; now rewrite !Qred_correct).
        assert (0 < D) as HD by lra.
        destruct (ratio_bounds d D HD) as [_ U]; try lra.
        rewrite Qred_correct. split; [|exact U].
        apply Qle_shift_div_l; [exact HD|]. lra.
      - set (D := Qred (mx + mn)).
        assert (D == mx + mn) as ED by (unfold D; apply Qred_correct).
        assert (0 < D) as HD by lra.
        destruct (ratio_bounds d D HD) as [_ U]; try lra.
        rewrite Qred_correct. split; [|exact U].
        apply Qle_shift_div_l; [exact HD|]. lra. }
    (* hue *)
    set (hq := if Qeq_bool mx R
               then Qred (Qred (Qred (G - B) / d) + (if Js.lt G B then 6 else 0))
               else if Qeq_bool mx G
                    then Qred (Qred (Qred (B - R) / d) + 2)
                    else Qred (Qred (Qred (R - G) / d) + 4)).
    assert (0 <= hq /\ hq < 6) as [Hh0 Hh1].
    { unfold hq. destruct (Qeq_bool mx R) eqn:E1.
      - apply Qeq_bool_iff in E1.
        set (q := Qred (Qred (G - B) / d)).
        assert (q == (G - B) / d) as Eq by (unfold q; now rewrite !Qred_correct).
        destruct (ratio_bounds (G - B) d Hd) as [Lq Uq]; try lra.
        destruct (Js.lt G B) eqn:E2.
        + apply lt_true_iff in E2.
          assert ((G - B) / d < 0) as Neg.
          { apply Qlt_shift_div_r; [exact Hd|]. lra. }
          rewrite Qred_correct. lra.
        + apply lt_false_iff in E2.
          assert (0 <= (G - B) / d) as Pos.
          { apply Qle_shift_div_l; [exact Hd|]. lra. }
          rewrite Qred_correct. lra.
      - destruct (Qeq_bool mx G) eqn:E2.
        + set (q := Qred (Qred (B - R) / d)).
          assert (q == (B - R) / d) as Eq by (unfold q; now rewrite !Qred_correct).
          destruct (ratio_bounds (B - R) d Hd) as [Lq Uq]; try lra.
          rewrite Qred_correct. lra.
        + set (q := Qred (Qred (R - G) / d)).
          assert (q == (R - G) / d) as Eq by (unfold q; now rewrite !Qred_correct).
          destruct (ratio_bounds (R - G) d Hd) as [Lq Uq]; try lra.
          rewrite Qred_correct. lra. }
    fold d. fold sq. fold hq. cbv beta iota.
    exists (Qfloor (Qred (Qred (hq / 6) * 360))), (Qfloor (Qred (sq * 100))), lz.
    rewrite Elz. split; [reflexivity|].
    split; [|split; [|exact Hlz]].
    + apply floor_bounds; rewrite !Qred_correct; cbv [inject_Z].
      * setoid_replace (hq / 6 * 360) with (hq * 60) by field. lra.
      * setoid_replace (hq / 6 * 360) with (hq * 60) by field. lra.
    + apply floor_bounds; rewrite Qred_correct; cbv [inject_Z]; lra.
Qed.


Lemma sub_correct (x y : Q) : Js.sub x y == x - y.
Proof. unfold Js.sub. apply Qred_correct. Qed.

Lemma mul_correct (x y : Q) : Js.mul x y == x * y.
Proof. unfold Js.mul. apply Qred_correct. Qed.

Lemma div_correct (x y : Q) : Js.div x y == x / y.
Proof. unfold Js.div. apply Qred_correct. Qed.

Lemma scale_bounds (u w : Q) :
  0 <= u -> 0 <= w -> w <= 1 -> 0 <= u * w /\ u * w <= u.
Proof.
  intros Hu Hw0 Hw1. split.
  - now apply Qmult_le_0_compat.
  - assert (0 <= u * (1 - w)) as H by (apply Qmult_le_0_compat; lra).
    assert (u * (1 - w) == u - u * w) as E by ring.
    lra.
Qed.

(** [hue2rgb] stays between its two levels as long as the hue offset is
    not below -1. *)
Lemma hue2rgb_between (p q t : Q) :
  p <= q -> -1 <= t ->
  p <= ColorModel.hue2rgb p q t /\ ColorModel.hue2rgb p q t <= q.
Proof.
  intros Hpq Ht. unfold ColorModel.hue2rgb. cbv zeta.
  set (t1 := if Js.lt t 0 then Js.add t 1 else t).
  assert (0 <= t1) as H1.
  { unfold t1. destruct (Js.lt t 0) eqn:E.
    - rewrite add_correct. lra.
    - now apply lt_false_iff in E. }
  set (t2 := if Js.gt t1 1 then Js.sub t1 1 else t1).
  assert (0 <= t2) as H2.
  { unfold t2. destruct (Js.gt t1 1) eqn:E.
    - apply gt_true_iff in E. rewrite sub_correct. lra.
    - exact H1. }
  change (Js.div 1 6) with (1 # 6). change (Js.div 1 2) with (1 # 2).
  change (Js.div 2 3) with (2 # 3).
  destruct (Js.lt t2 (1 # 6)) eqn:A.
  - apply lt_true_iff in A.
    assert (Js.add p (Js.mul (Js.mul (Js.sub q p) 6) t2) == p + (q - p) * (6 * t2)) as E.
    { unfold Js.add, Js.mul, Js.sub. rewrite !Qred_correct. ring. }
    destruct (scale_bounds (q - p) (6 * t2)); try lra.
  - destruct (Js.lt t2 (1 # 2)) eqn:B; [lra|].
    apply lt_false_iff in B.
    destruct (Js.lt t2 (2 # 3)) eqn:C; [|lra].
    apply lt_true_iff in C.
    assert (Js.add p (Js.mul (Js.mul (Js.sub q p) (Js.sub (2 # 3) t2)) 6)
            == p + (q - p) * (((2 # 3) - t2) * 6)) as E.
    { unfold Js.add, Js.mul, Js.sub. rewrite !Qred_correct. ring. }
    destruct (scale_bounds (q - p) (((2 # 3) - t2) * 6)); try lra.
Qed.

(** [hslToRgb] on a hue not below -240 and a saturation and a lightness
    between 0 and 100. *)
Lemma hslToRgb_range (h s l : Q) :
  -240 <= h -> 0 <= s -> s <= 100 -> 0 <= l -> l <= 100 ->
  let c := ColorModel.hslToRgb (mkHSL h s l) in
  (0 <= rgb_r c /\ rgb_r c <= 255)
  /\ (0 <= rgb_g c /\ rgb_g c <= 255)
  /\ (0 <= rgb_b c /\ rgb_b c <= 255).
Proof.
  intros Hh Hs0 Hs1 Hl0 Hl1.
  unfold ColorModel.hslToRgb. cbv zeta. cbn [hsl_h hsl_s hsl_l].
  change (Js.div 1 3) with (1 # 3).
  set (H := Js.div h 360). set (S := Js.div s 100). set (L := Js.div l 100).
  assert (H == h * (1 # 360)) as EH by (unfold H; rewrite div_correct; field).
  assert (S == s * (1 # 100)) as ES by (unfold S; rewrite div_correct; field).
  assert (L == l * (1 # 100)) as EL by (unfold L; rewrite div_correct; field).
  assert (forall x : Q, 0 <= x -> x <= 1 ->
            0 <= Js.mul x 255 /\ Js.mul x 255 <= 255) as Scale.
  { intros x X0 X1. rewrite mul_correct. lra. }
  destruct (Js.eqb S 0).
  - cbv beta iota. cbn [rgb_r rgb_g rgb_b].
    destruct (Scale L); try lra; tauto.
  - set (q := if Js.lt L (1 # 2)
              then Js.mul L (Js.add 1 S)
              else Js.sub (Js.add L S) (Js.mul L S)).
    set (p := Js.sub (Js.mul 2 L) q).
    destruct (scale_bounds L S) as [LS0 LS1]; try lra.
    destruct (scale_bounds (1 - L) (1 - S)) as [MS0 MS1]; try lra.
    assert ((1 - L) * (1 - S) == 1 - L - S + L * S) as EM by ring.
    assert (q == if Js.lt L (1 # 2) then L + L * S else L + S - L * S) as Eq.
    { unfold q. destruct (Js.lt L (1 # 2)).
      - unfold Js.mul, Js.add. rewrite !Qred_correct. ring.
      - unfold Js.mul, Js.add, Js.sub. rewrite !Qred_correct. ring. }
    assert (p == 2 * L - q) as Ep.
    { unfold p, Js.mul, Js.sub. rewrite !Qred_correct. ring. }
    assert (0 <= p /\ p <= q /\ q <= 1) as (P0 & PQ & Q1).
    { destruct (Js.lt L (1 # 2)) eqn:E.
      - apply lt_true_iff in E. repeat split; lra.
      - apply lt_false_iff in E. repeat split; lra. }
    cbv beta iota. cbn [rgb_r rgb_g rgb_b].
    destruct (hue2rgb_between p q (Js.add H (1 # 3)) PQ) as [R0 R1].
    { rewrite add_correct. lra. }
    destruct (hue2rgb_between p q H PQ) as [G0 G1]; [lra|].
    destruct (hue2rgb_between p q (Js.sub H (1 # 3)) PQ) as [B0 B1].
    { rewrite sub_correct. lra. }
    split; [|split]; apply Scale; lra.
Qed.

(** [hslToHsv] on a saturation and a lightness between 0 and 100. *)
Lemma hslToHsv_range (h s l : Q) :
  0 <= s -> s <= 100 -> 0 <= l -> l <= 100 ->
  let c := ColorModel.hslToHsv (mkHSL h s l) in
  hsv_h c = h
  /\ (0 <= hsv_s c /\ hsv_s c <= 100)
  /\ (0 <= hsv_v c /\ hsv_v c <= 100).
Proof.
  intros Hs0 Hs1 Hl0 Hl1.
  unfold ColorModel.hslToHsv. cbv zeta. cbn [hsl_h hsl_s hsl_l hsv_h hsv_s hsv_v].
  set (L := Js.div l 100). set (S := Js.div s 100).
  assert (S == s * (1 # 100)) as ES by (unfold S; rewrite div_correct; field).
  assert (L == l * (1 # 100)) as EL by (unfold L; rewrite div_correct; field).
  destruct (min_spec L (Js.sub 1 L)) as (N1 & N2 & N3).
  set (m := Js.min L (Js.sub 1 L)) in *.
  pose proof (sub_correct 1 L) as E1.
  assert (0 <= m) as Hm by (destruct N3 as [-> | ->]; lra).
  set (V := Js.add (Js.mul S m) L).
  assert (V == S * m + L) as EV.
  { unfold V, Js.add, Js.mul. now rewrite !Qred_correct. }
  destruct (scale_bounds m S) as [SM0 SM1]; try lra.
  assert (S * m == m * S) as Ec by ring.
  split; [reflexivity|]. split.
  - unfold Js.truthy. destruct (Qeq_bool V 0) eqn:EV0; cbn [negb]; [lra|].
    apply Qeq_bool_false in EV0.
    assert (0 < V) as PV.
    { apply Qnot_le_lt. intros C. apply EV0. apply Qle_antisym; lra. }
    assert (1 <= 2 * L / V /\ 2 * L / V <= 2) as [D0 D1].
    { split.
      - apply Qle_shift_div_l; [exact PV|]. lra.
      - apply Qle_shift_div_r; [exact PV|]. lra. }
    assert (Js.mul 100 (Js.sub 2 (Js.div (Js.mul 2 L) V))
            == 100 * (2 - 2 * L / V)) as E.
    { unfold Js.mul, Js.sub, Js.div. now rewrite !Qred_correct. }
    lra.
  - rewrite mul_correct. lra.
Qed.

(** [hsvToHsl] on a saturation and a value between 0 and 100. *)
Lemma hsvToHsl_range (h s v : Q) :
  0 <= s -> s <= 100 -> 0 <= v -> v <= 100 ->
  let c := ColorModel.hsvToHsl (mkHSV h s v) in
  hsl_h c = h
  /\ (0 <= hsl_s c /\ hsl_s c <= 100)
  /\ (0 <= hsl_l c /\ hsl_l c <= 100).
Proof.
  intros Hs0 Hs1 Hv0 Hv1.
  unfold ColorModel.hsvToHsl. cbv zeta. cbn [hsl_h hsl_s hsl_l hsv_h hsv_s hsv_v].
  set (V := Js.div v 100).
  assert (V == v * (1 # 100)) as EV by (unfold V; rewrite div_correct; field).
  set (L := Js.sub V (Js.div (Js.mul V s) 200)).
  assert (L == V - V * (s * (1 # 200))) as EL.
  { unfold L, Js.sub, Js.div, Js.mul. rewrite !Qred_correct. field. }
  destruct (scale_bounds V (s * (1 # 200))) as [VS0 VS1]; try lra.
  destruct (scale_bounds V (s * (1 # 100))) as [WS0 WS1]; try lra.
  assert (V * (s * (1 # 100)) == 2 * (V * (s * (1 # 200)))) as Ew by ring.
  destruct (min_spec L (Js.sub 1 L)) as (N1 & N2 & N3).
  set (m := Js.min L (Js.sub 1 L)) in *.
  pose proof (sub_correct 1 L) as E1.
  split; [reflexivity|]. split.
  - unfold Js.truthy. destruct (Qeq_bool m 0) eqn:Em0; cbn [negb]; [lra|].
    apply Qeq_bool_false in Em0.
    assert (0 <= m) as Hm by (destruct N3 as [-> | ->]; lra).
    assert (0 < m) as Pm.
    { apply Qnot_le_lt. intros C. apply Em0. apply Qle_antisym; lra. }
    assert (Js.div (Js.mul 100 (Js.sub V L)) m == 100 * (V - L) / m) as E.
    { unfold Js.mul, Js.sub, Js.div. now rewrite !Qred_correct. }
    assert (0 <= 100 * (V - L) / m /\ 100 * (V - L) / m <= 100) as [D0 D1].
    { split.
      - apply Qle_shift_div_l; [exact Pm|]. lra.
      - apply Qle_shift_div_r; [exact Pm|].
        destruct N3 as [-> | ->]; lra. }
    lra.
  - rewrite mul_correct. lra.
Qed.

End Ranges.

(** ** From HSL to HSV and back *)

Section HslRoundTrip.

Local Open Scope Q_scope.

Lemma min_compat (x x' y y' : Q) :
  x == x' -> y == y' -> Js.min x y == Js.min x' y'.
Proof.
  intros Ex Ey. unfold Js.min.
  destruct (Qle_bool x y) eqn:B1; destruct (Qle_bool x' y') eqn:B2;
    try (apply Qle_bool_iff in B1); try (apply Qle_bool_iff in B2);
    try (apply Qle_bool_false in B1); try (apply Qle_bool_false in B2); lra.
Qed.

Lemma truthy_positive (x : Q) : 0 < x -> Js.truthy x = true.
Proof.
  intros H. unfold Js.truthy. destruct (Qeq_bool x 0) eqn:E; [|reflexivity].
  apply Qeq_bool_iff in E. lra.
Qed.

Lemma truthy_zero (x : Q) : x == 0 -> Js.truthy x = false.
Proof.
  intros H. unfold Js.truthy. apply Qeq_bool_iff in H. now rewrite H.
Qed.

(** In exact arithmetic, [hsvToHsl] undoes [hslToHsv] on a triple whose
    lightness is strictly between 0 and 100. *)
Lemma hsl_round_trip (h s l : Q) :
  0 < l -> l < 100 -> 0 <= s -> s <= 100 ->
  let t := ColorModel.hsvToHsl (ColorModel.hslToHsv (mkHSL h s l)) in
  hsl_h t = h /\ hsl_s t == s /\ hsl_l t == l.
Proof.
  intros Hl0 Hl1 Hs0 Hs1.
  unfold ColorModel.hslToHsv, ColorModel.hsvToHsl. cbv zeta.
  cbn [hsv_h hsv_s hsv_v hsl_h hsl_s hsl_l].
  set (L := Js.div l 100).
  assert (L == l * (1 # 100)) as EL by (unfold L; rewrite div_correct; field).
  set (S := Js.div s 100).
  assert (S == s * (1 # 100)) as ES by (unfold S; rewrite div_correct; field).
  destruct (min_spec L (Js.sub 1 L)) as (N1 & N2 & N3).
  set (m := Js.min L (Js.sub 1 L)) in *.
  pose proof (sub_correct 1 L) as E1.
  assert (0 < m) as Hm by (destruct N3 as [-> | ->]; lra).
  set (V := Js.add (Js.mul S m) L).
  assert (V == S * m + L) as EV.
  { unfold V, Js.add, Js.mul. now rewrite !Qred_correct. }
  assert (0 <= S * m) as SM by (apply Qmult_le_0_compat; lra).
  assert (0 < V) as PV by lra.
  rewrite (truthy_positive V PV).
  set (sv := Js.mul 100 (Js.sub 2 (Js.div (Js.mul 2 L) V))).
  assert (sv == 100 * (2 - 2 * L / V)) as Esv.
  { unfold sv, Js.mul, Js.sub, Js.div. now rewrite !Qred_correct. }
  set (V' := Js.div (Js.mul V 100) 100).
  assert (V' == V) as EV'.
  { unfold V', Js.div, Js.mul. rewrite !Qred_correct. field. }
  set (L' := Js.sub V' (Js.div (Js.mul V' sv) 200)).
  assert (L' == L) as EL'.
  { unfold L', Js.sub, Js.div, Js.mul. rewrite !Qred_correct.
    rewrite EV', Esv. field. lra. }
  assert (Js.min L' (Js.sub 1 L') == m) as Em.
  { apply min_compat; [exact EL'|]. rewrite !sub_correct. now rewrite EL'. }
  set (m' := Js.min L' (Js.sub 1 L')) in *.
  assert (0 < m') as Hm' by lra.
  rewrite (truthy_positive m' Hm').
  split; [reflexivity|]. split.
  - unfold Js.div, Js.mul, Js.sub. rewrite !Qred_correct.
    rewrite Em, EV', EL', EV, ES. field. lra.
  - rewrite mul_correct, EL', EL. field.
Qed.

(** At lightness 0 and at lightness 100 the saturation does not survive
    the round trip. *)
Lemma hsl_round_trip_ends (h s l : Q) :
  l == 0 \/ l == 100 ->
  0 <= s -> s <= 100 ->
  let t := ColorModel.hsvToHsl (ColorModel.hslToHsv (mkHSL h s l)) in
  hsl_h t = h /\ hsl_s t = 0 /\ hsl_l t == l.
Proof.
  intros Hl Hs0 Hs1.
  unfold ColorModel.hslToHsv, ColorModel.hsvToHsl. cbv zeta.
  cbn [hsv_h hsv_s hsv_v hsl_h hsl_s hsl_l].
  set (L := Js.div l 100).
  assert (L == l * (1 # 100)) as EL by (unfold L; rewrite div_correct; field).
  set (S := Js.div s 100).
  destruct (min_spec L (Js.sub 1 L)) as (N1 & N2 & N3).
  set (m := Js.min L (Js.sub 1 L)) in *.
  pose proof (sub_correct 1 L) as E1.
  assert (0 <= m) as Hm0.
  { destruct Hl as [Hl|Hl]; destruct N3 as [-> | ->]; lra. }
  assert (m == 0) as Hm by (destruct Hl as [Hl|Hl]; lra).
  set (V := Js.add (Js.mul S m) L).
  assert (V == L) as EV.
  { unfold V, Js.add, Js.mul. rewrite !Qred_correct, Hm. ring. }
  set (sv := if Js.truthy V
             then Js.mul 100 (Js.sub 2 (Js.div (Js.mul 2 L) V)) else 0).
  assert (sv == 0) as Esv.
  { unfold sv. destruct Hl as [Hl|Hl].
    - rewrite truthy_zero by lra. reflexivity.
    - rewrite truthy_positive by lra.
      unfold Js.mul, Js.sub, Js.div. rewrite !Qred_correct, EV. field. lra. }
  set (V' := Js.div (Js.mul V 100) 100).
  assert (V' == V) as EV'.
  { unfold V', Js.div, Js.mul. rewrite !Qred_correct. field. }
  set (L' := Js.sub V' (Js.div (Js.mul V' sv) 200)).
  assert (L' == L) as EL'.
  { unfold L', Js.sub, Js.div, Js.mul. rewrite !Qred_correct.
    rewrite EV', Esv, EV. field. }
  assert (Js.min L' (Js.sub 1 L') == 0) as Em.
  { rewrite <- Hm. apply min_compat; [exact EL'|].
    rewrite !sub_correct. now rewrite EL'. }
  rewrite (truthy_zero _ Em).
  split; [reflexivity|]. split; [reflexivity|].
  rewrite mul_correct, EL', EL. field.
Qed.

End HslRoundTrip.

(** ** The conversions on colors in range *)

Section WellFormed.

Local Open Scope Q_scope.



(** X6. On a hue of at least -240 degrees and a saturation and a lightness
    from 0 to 100, [hslToRgb] gives channels from 0 to 255. *)
Theorem hslToRgb_stays_in_range (c : HSLColor) :
  -240 <= hsl_h c -> in_range 0 100 (hsl_s c) -> in_range 0 100 (hsl_l c) ->
  byteChannels (ColorModel.hslToRgb c).
Proof.
  destruct c as [h s l]. cbn [hsl_h hsl_s hsl_l].
  intros Hh [S0 S1] [L0 L1].
  exact (hslToRgb_range h s l Hh S0 S1 L0 L1).
Qed.

Lemma hslToRgb_stays_in_range_witness :
  byteChannels (ColorModel.hslToRgb (mkHSL 225 58 49)).
Proof.
  apply (hslToRgb_stays_in_range (mkHSL 225 58 49));
    vm_compute; try split; discriminate.
Defined.





End WellFormed.

(** ** Colors stay in range *)

Section Invariant.

Local Open Scope Q_scope.

Lemma round_byte (x : Q) : in_range 0 255 x -> rounds_to_byte x.
Proof.
  intros [H0 H1]. unfold rounds_to_byte, Js.roundZ.
  apply floor_bounds; cbv [inject_Z]; lra.
Qed.

Lemma byteChannels_coherent (v : RGBColor) :
  byteChannels v ->
  HexPattern (ColorModel.rgbToHex v)
  /\ ColorModel.hexToRgb (ColorModel.rgbToHex v) = roundedChannels v.
Proof.
  intros (R & G & B). apply hex_round_trip; now apply round_byte.
Qed.

Lemma rgbToHsl_in_range (v : RGBColor) :
  byteChannels v -> hslInRange (ColorModel.rgbToHsl v).
Proof.
  destruct v as [r g b]. intros ((R0 & R1) & (G0 & G1) & (B0 & B1)).
  cbn [rgb_r rgb_g rgb_b] in *.
  destruct (rgbToHsl_range r g b R0 R1 G0 G1 B0 B1)
    as (h & s & l & E & Hh & Hs & Hl).
  cbv zeta in E. rewrite E. unfold hslInRange, in_range.
  cbn [hsl_h hsl_s hsl_l].
  change 0 with (inject_Z 0). change 360 with (inject_Z 360).
  change 100 with (inject_Z 100). rewrite <- !Zle_Qle. lia.
Qed.

Lemma hslToRgb_in_range (v : HSLColor) :
  hslInRange v -> byteChannels (ColorModel.hslToRgb v).
Proof.
  destruct v as [h s l]. intros ((H0 & H1) & (S0 & S1) & (L0 & L1)).
  cbn [hsl_h hsl_s hsl_l] in *.
  apply (hslToRgb_range h s l); lra.
Qed.

Lemma hslToHsv_in_range (v : HSLColor) :
  hslInRange v -> hsvInRange (ColorModel.hslToHsv v).
Proof.
  destruct v as [h s l]. intros ((H0 & H1) & (S0 & S1) & (L0 & L1)).
  cbn [hsl_h hsl_s hsl_l] in *.
  destruct (hslToHsv_range h s l S0 S1 L0 L1) as (E & A & B).
  cbv zeta in E, A, B. unfold hsvInRange, in_range. rewrite E. tauto.
Qed.

Lemma hsvToHsl_in_range (v : HSVColor) :
  hsvInRange v -> hslInRange (ColorModel.hsvToHsl v).
Proof.
  destruct v as [h s l]. intros ((H0 & H1) & (S0 & S1) & (L0 & L1)).
  cbn [hsv_h hsv_s hsv_v] in *.
  destruct (hsvToHsl_range h s l S0 S1 L0 L1) as (E & A & B).
  cbv zeta in E, A, B. unfold hslInRange, in_range. rewrite E. tauto.
Qed.

Lemma byteChannels_hexToRgb (s : string) : byteChannels (ColorModel.hexToRgb s).
Proof.
  destruct (hexToRgb_bytes s) as (r & g & b & E & Hr & Hg & Hb).
  rewrite E. unfold byteChannels, in_range, Js.of_Z. cbn [rgb_r rgb_g rgb_b].
  change 0 with (inject_Z 0). change 255 with (inject_Z 255).
  rewrite <- !Zle_Qle. lia.
Qed.

Lemma new_wellFormed (s : string) : wellFormed (ColorModel.new s).
Proof.
  unfold wellFormed, ColorModel.new, ColorModel.set_hex, ColorModel.write_hex,
    ColorModel.write_rgb, ColorModel.write_hsl, ColorModel.write_hsv.
  cbn [ColorModel.rgb ColorModel.hsl ColorModel.hsv].
  pose proof (byteChannels_hexToRgb s) as B.
  split; [exact B|]. split.
  - now apply rgbToHsl_in_range.
  - now apply hslToHsv_in_range, rgbToHsl_in_range.
Qed.

Lemma set_rgb_sound (v : RGBColor) (c : ColorModel.t) :
  byteChannels v ->
  wellFormed (ColorModel.set_rgb v c) /\ coherentHex (ColorModel.set_rgb v c).
Proof.
  intros B.
  unfold wellFormed, coherentHex, ColorModel.set_rgb, ColorModel.write_hex,
    ColorModel.write_rgb, ColorModel.write_hsl, ColorModel.write_hsv.
  cbn [ColorModel.rgb ColorModel.hsl ColorModel.hsv ColorModel.hex].
  split; [|now apply byteChannels_coherent].
  split; [exact B|]. split.
  - now apply rgbToHsl_in_range.
  - now apply hslToHsv_in_range, rgbToHsl_in_range.
Qed.

Lemma set_hsl_sound (v : HSLColor) (c : ColorModel.t) :
  hslInRange v ->
  wellFormed (ColorModel.set_hsl v c) /\ coherentHex (ColorModel.set_hsl v c).
Proof.
  intros B.
  unfold wellFormed, coherentHex, ColorModel.set_hsl, ColorModel.write_hex,
    ColorModel.write_rgb, ColorModel.write_hsl, ColorModel.write_hsv.
  cbn [ColorModel.rgb ColorModel.hsl ColorModel.hsv ColorModel.hex].
  pose proof (hslToRgb_in_range v B) as R.
  split; [|now apply byteChannels_coherent].
  split; [exact R|]. split; [exact B|now apply hslToHsv_in_range].
Qed.

Lemma set_hsv_sound (v : HSVColor) (c : ColorModel.t) :
  hsvInRange v ->
  wellFormed (ColorModel.set_hsv v c) /\ coherentHex (ColorModel.set_hsv v c).
Proof.
  intros B.
  unfold wellFormed, coherentHex, ColorModel.set_hsv, ColorModel.write_hex,
    ColorModel.write_rgb, ColorModel.write_hsl, ColorModel.write_hsv.
  cbn [ColorModel.rgb ColorModel.hsl ColorModel.hsv ColorModel.hex].
  pose proof (hsvToHsl_in_range v B) as L.
  pose proof (hslToRgb_in_range _ L) as R.
  split; [|now apply byteChannels_coherent].
  split; [exact R|]. split; [exact L|exact B].
Qed.

Lemma clamp_range (x hi lo : Q) :
  lo <= hi -> in_range lo hi (Js.clamp x hi lo).
Proof.
  intros H. unfold in_range, Js.clamp.
  destruct (Js.gt x hi) eqn:A; [lra|]. apply gt_false_iff in A.
  destruct (Js.lt x lo) eqn:B; [lra|]. apply lt_false_iff in B. lra.
Qed.

Lemma in_range_weaken (lo hi lo' hi' x : Q) :
  lo' <= lo -> hi <= hi' -> in_range lo hi x -> in_range lo' hi' x.
Proof. unfold in_range. intros A B [C D]. lra. Qed.

Lemma saturate_sound (delta max min : Q) (c : ColorModel.t) :
  0 <= min -> min <= max -> max <= 100 -> wellFormed c ->
  wellFormed (ColorModel.saturate delta max min c)
  /\ coherentHex (ColorModel.saturate delta max min c).
Proof.
  intros H0 H1 H2 (_ & _ & (Hh & Hs & Hv)).
  unfold ColorModel.saturate. cbv zeta. apply set_hsl_sound.
  apply hsvToHsl_in_range.
  unfold ColorModel.write_hsv_s, ColorModel.write_hsv.
  cbn [ColorModel.hsv]. unfold hsvInRange. cbn [hsv_h hsv_s hsv_v].
  split; [exact Hh|]. split; [|exact Hv].
  apply (in_range_weaken min max); [exact H0|exact H2|].
  now apply clamp_range.
Qed.

Lemma brighten_sound (delta max min : Q) (c : ColorModel.t) :
  wellFormed c ->
  wellFormed (ColorModel.brighten delta max min c)
  /\ coherentHex (ColorModel.brighten delta max min c).
Proof.
  intros (_ & _ & V).
  unfold ColorModel.brighten. cbv zeta. apply set_hsl_sound.
  apply hsvToHsl_in_range.
  unfold ColorModel.write_hsl_l, ColorModel.write_hsl.
  cbn [ColorModel.hsv]. exact V.
Qed.

Lemma saturateHsl_sound (delta max min : Q) (c : ColorModel.t) :
  0 <= min -> min <= max -> max <= 100 -> wellFormed c ->
  wellFormed (ColorModel.saturateHsl delta max min c)
  /\ coherentHex (ColorModel.saturateHsl delta max min c).
Proof.
  intros H0 H1 H2 (_ & (Hh & Hs & Hl) & _).
  unfold ColorModel.saturateHsl. cbv zeta. apply set_rgb_sound.
  apply hslToRgb_in_range.
  unfold ColorModel.write_hsl_s, ColorModel.write_hsl.
  cbn [ColorModel.hsl]. unfold hslInRange. cbn [hsl_h hsl_s hsl_l].
  split; [exact Hh|]. split; [|exact Hl].
  apply (in_range_weaken min max); [exact H0|exact H2|].
  now apply clamp_range.
Qed.

Lemma lighten_sound (delta max min : Q) (c : ColorModel.t) :
  0 <= min -> min <= max -> max <= 100 -> wellFormed c ->
  wellFormed (ColorModel.lighten delta max min c)
  /\ coherentHex (ColorModel.lighten delta max min c).
Proof.
  intros H0 H1 H2 (_ & (Hh & Hs & Hl) & _).
  unfold ColorModel.lighten. cbv zeta. apply set_rgb_sound.
  apply hslToRgb_in_range.
  unfold ColorModel.write_hsl_l, ColorModel.write_hsl.
  cbn [ColorModel.hsl]. unfold hslInRange. cbn [hsl_h hsl_s hsl_l].
  split; [exact Hh|]. split; [exact Hs|].
  apply (in_range_weaken min max); [exact H0|exact H2|].
  now apply clamp_range.
Qed.

End Invariant.

(** X9. Whatever string a color is built from, its channels are from 0 to
    255, its HSL and HSV hues from 0 to 360 and its saturations, lightness
    and value from 0 to 100; the string itself is kept as the code, and
    the channels are those that [hexToRgb] reads from it. *)
Theorem new_color_is_well_formed (hexCode : string) :
  let c := ColorModel.new hexCode in
  wellFormed c
  /\ ColorModel.hex c = hexCode
  /\ ColorModel.rgb c = ColorModel.hexToRgb hexCode.
Proof.
  split; [apply new_wellFormed|]. split; reflexivity.
Qed.





(** ** The shape of the generated palettes *)

Lemma fold_unshift_eq (A B : Type) (f : B -> A) (l : list B) (init : list A) :
  fold_left (fun acc i => f i :: acc) l init = rev (map f l) ++ init.
Proof.
  revert init; induction l as [|x l IH]; intros init; simpl.
  - reflexivity.
  - rewrite IH, <- app_assoc. reflexivity.
Qed.

Lemma fold_push_eq (A B : Type) (f : B -> A) (l : list B) (init : list A) :
  fold_left (fun acc i => acc ++ [f i]) l init = init ++ map f l.
Proof.
  revert init; induction l as [|x l IH]; intros init; simpl.
  - now rewrite app_nil_r.
  - rewrite IH, <- app_assoc. reflexivity.
Qed.

Section Shape.

Import ColorPaletteGenerator.

Variable rand : nat -> number.

(** The palettes that [generatePalettes] builds, written out draw by draw:
    the colors of the first loop in reverse order, the base color, the
    colors of the second loop; and the light and dark palettes color by
    color from the base palette. *)
Lemma generatePalettes_shape (g : t) (k : nat) :
  let g' := fst (generatePalettes rand g k) in
  let g0 := with_palettes (mkPalettes [] [] []) g in
  let steps := one_to (precision g) in
  let hueStep := (hueRange g * (1 # 2)) / Js.of_Z (precision g) in
  basePalette g'
  = rev (map (baseColorUp g0 hueStep (rand k * 5 + (45 # 2))
                          (rand (S k) * (15 # 2) + 90)) steps)
    ++ baseColor g
    :: map (baseColorDown g0 hueStep (rand (S (S k)) * (15 # 2) + 90)
                          (rand (S (S (S k))) * 5 + (45 # 2))) steps
  /\ lightPalette g'
     = map (lightColor (rand (4 + k)%nat * 5 + (15 # 2))
                       (rand (5 + k)%nat * (15 # 2) + (45 # 2))
                       (rand (6 + k)%nat * (15 # 2) + (55 # 2)))
           (basePalette g')
  /\ darkPalette g'
     = map (darkColor (rand (7 + k)%nat * 5 + (15 # 2))
                      (rand (8 + k)%nat * (15 # 2) + (45 # 2))
                      (rand (9 + k)%nat * (15 # 2) + (55 # 2)))
           (basePalette g')
  /\ baseColor g' = baseColor g
  /\ precision g' = precision g
  /\ hueRange g' = hueRange g.
Proof.
  unfold generatePalettes, generateBasePalette, generateLightPalette,
    generateDarkPalette, bind, callRand, ret.
  cbn [fst snd basePalette lightPalette darkPalette palettes with_palettes
       baseColor precision hueRange base light dark app].
  rewrite fold_push_eq, fold_unshift_eq.
  split; [rewrite <- app_assoc; reflexivity|].
  repeat split.
Qed.

End Shape.

Lemma clamp100_bounds (x : Q) :
  in_range 0 100 (ColorPaletteGenerator.clamp100 x).
Proof.
  unfold in_range, ColorPaletteGenerator.clamp100, Js.max, Js.min.
  destruct (Qle_bool 100 x) eqn:A.
  - destruct (Qle_bool 0 100) eqn:B; split; try discriminate; apply Qle_refl.
  - destruct (Qle_bool 0 x) eqn:B.
    + apply Qle_bool_iff in B. split; [exact B|].
      apply Qlt_le_weak. now apply Qle_bool_false.
    + split; [apply Qle_refl|discriminate].
Qed.

(** X12. The base color sits in the middle of the base palette, at index
    [precision], with [precision] colors on each side; the generator keeps
    it as its base color and [fullPalette] holds it. *)
Theorem base_color_is_the_middle (rand : nat -> number)
        (g : ColorPaletteGenerator.t) (k : nat) :
  let g' := fst (ColorPaletteGenerator.generatePalettes rand g k) in
  let n := Z.to_nat (ColorPaletteGenerator.precision g) in
  nth_error (ColorPaletteGenerator.basePalette g') n
  = Some (ColorPaletteGenerator.baseColor g)
  /\ List.length (ColorPaletteGenerator.basePalette g') = (n + 1 + n)%nat
  /\ ColorPaletteGenerator.baseColor g' = ColorPaletteGenerator.baseColor g
  /\ In (ColorPaletteGenerator.baseColor g') (ColorPaletteGenerator.fullPalette g').
Proof.
  intros g' n.
  destruct (generatePalettes_shape rand g k) as (B & _ & _ & S & _).
  fold g' in B, S.
  set (up := ColorPaletteGenerator.baseColorUp _ _ _ _) in B.
  set (down := ColorPaletteGenerator.baseColorDown _ _ _ _) in B.
  assert (List.length (rev (map up (one_to (ColorPaletteGenerator.precision g)))) = n) as L.
  { now rewrite length_rev, length_map, one_to_length. }
  split; [|split; [|split]].
  - rewrite B, nth_error_app2 by lia. rewrite L, Nat.sub_diag. reflexivity.
  - rewrite B, length_app, L. simpl. rewrite length_map, one_to_length. lia.
  - exact S.
  - unfold ColorPaletteGenerator.fullPalette.
    fold (ColorPaletteGenerator.basePalette g'). rewrite S, B.
    apply in_or_app. right. apply in_or_app. left.
    apply in_or_app. right. now left.
Qed.

(** X13. The light and the dark palette follow the base palette color by
    color: one hue shift, one saturation offset and one value offset,
    drawn once, give the light color of every base color, and three more
    the dark color.  When the draws are in the unit interval, each hue
    shift is from 7.5 to 12.5 degrees, each saturation offset from 22.5 to
    30 and each value offset from 27.5 to 35. *)
Theorem light_and_dark_follow_base (rand : nat -> number)
        (g : ColorPaletteGenerator.t) (k : nat) :
  unit_interval rand ->
  let g' := fst (ColorPaletteGenerator.generatePalettes rand g k) in
  exists hue saturation value hue' saturation' value',
    (in_range (15 # 2) (25 # 2) hue /\ in_range (45 # 2) 30 saturation
     /\ in_range (55 # 2) 35 value)
    /\ (in_range (15 # 2) (25 # 2) hue' /\ in_range (45 # 2) 30 saturation'
        /\ in_range (55 # 2) 35 value')
    /\ forall i b,
         nth_error (ColorPaletteGenerator.basePalette g') i = Some b ->
         nth_error (ColorPaletteGenerator.lightPalette g') i
         = Some (ColorPaletteGenerator.lightColor hue saturation value b)
         /\ nth_error (ColorPaletteGenerator.darkPalette g') i
            = Some (ColorPaletteGenerator.darkColor hue' saturation' value' b).
Proof.
  intros U g'.
  destruct (generatePalettes_shape rand g k) as (_ & L & D & _).
  fold g' in L, D.
  assert (forall n, in_range (15 # 2) (25 # 2) (rand n * 5 + (15 # 2))) as H1.
  { intros n. destruct (U n). unfold in_range.
    rewrite add_correct, mul_correct. lra. }
  assert (forall n, in_range (45 # 2) 30 (rand n * (15 # 2) + (45 # 2))) as H2.
  { intros n. destruct (U n). unfold in_range.
    rewrite add_correct, mul_correct. lra. }
  assert (forall n, in_range (55 # 2) 35 (rand n * (15 # 2) + (55 # 2))) as H3.
  { intros n. destruct (U n). unfold in_range.
    rewrite add_correct, mul_correct. lra. }
  do 6 eexists. split; [|split].
  3: { intros i b H. rewrite L, D. split; now apply map_nth_error. }
  - split; [apply H1|]. split; [apply H2|apply H3].
  - split; [apply H1|]. split; [apply H2|apply H3].
Qed.

Lemma light_and_dark_follow_base_witness :
  exists hue saturation value hue' saturation' value',
    (in_range (15 # 2) (25 # 2) hue /\ in_range (45 # 2) 30 saturation
     /\ in_range (55 # 2) 35 value)
    /\ (in_range (15 # 2) (25 # 2) hue' /\ in_range (45 # 2) 30 saturation'
        /\ in_range (55 # 2) 35 value')
    /\ forall i b,
         nth_error (ColorPaletteGenerator.basePalette
                      (fst (ColorPaletteGenerator.generatePalettes cyclicRand
                              (ColorPaletteGenerator.mk 1 180 (ColorModel.new "#3459c7")
                                 (mkPalettes [] [] [])) 0%nat))) i = Some b ->
         nth_error (ColorPaletteGenerator.lightPalette
                      (fst (ColorPaletteGenerator.generatePalettes cyclicRand
                              (ColorPaletteGenerator.mk 1 180 (ColorModel.new "#3459c7")
                                 (mkPalettes [] [] [])) 0%nat))) i
         = Some (ColorPaletteGenerator.lightColor hue saturation value b)
         /\ nth_error (ColorPaletteGenerator.darkPalette
                      (fst (ColorPaletteGenerator.generatePalettes cyclicRand
                              (ColorPaletteGenerator.mk 1 180 (ColorModel.new "#3459c7")
                                 (mkPalettes [] [] [])) 0%nat))) i
            = Some (ColorPaletteGenerator.darkColor hue' saturation' value' b).
Proof.
  exact (light_and_dark_follow_base cyclicRand
           (ColorPaletteGenerator.mk 1 180 (ColorModel.new "#3459c7")
              (mkPalettes [] [] [])) 0%nat cyclicRand_unit).
Defined.

Lemma set_hsv_clamped (h s v : number) (c : ColorModel.t) :
  let c' := ColorModel.set_hsv
              (mkHSV h (ColorPaletteGenerator.clamp100 s)
                     (ColorPaletteGenerator.clamp100 v)) c in
  in_range 0 100 (hsv_s (ColorModel.hsv c'))
  /\ in_range 0 100 (hsv_v (ColorModel.hsv c')).
Proof.
  unfold ColorModel.set_hsv, ColorModel.write_hex,
    ColorModel.write_rgb, ColorModel.write_hsl, ColorModel.write_hsv.
  cbn [ColorModel.hsv hsv_s hsv_v].
  split; apply clamp100_bounds.
Qed.

(** X14. Whatever [rand] returns and whatever the hue range, every
    generated color other than the base color has an HSV saturation and an
    HSV value between 0 and 100: all the light and dark colors, and the
    base palette but for the base color, which is kept as it was given. *)
Theorem generated_colors_are_percentages (rand : nat -> number)
        (g : ColorPaletteGenerator.t) (k : nat) :
  let g' := fst (ColorPaletteGenerator.generatePalettes rand g k) in
  let percentages c :=
    in_range 0 100 (hsv_s (ColorModel.hsv c))
    /\ in_range 0 100 (hsv_v (ColorModel.hsv c)) in
  Forall percentages (ColorPaletteGenerator.lightPalette g')
  /\ Forall percentages (ColorPaletteGenerator.darkPalette g')
  /\ Forall (fun c => c = ColorPaletteGenerator.baseColor g \/ percentages c)
            (ColorPaletteGenerator.basePalette g').
Proof.
  intros g' percentages.
  destruct (generatePalettes_shape rand g k) as (B & L & D & _).
  fold g' in B, L, D.
  split; [|split].
  - rewrite L. apply Forall_map, Forall_forall. intros b _.
    apply set_hsv_clamped.
  - rewrite D. apply Forall_map, Forall_forall. intros b _.
    apply set_hsv_clamped.
  - rewrite B. apply Forall_app. split; [|constructor; [now left|]].
    + apply Forall_rev, Forall_map, Forall_forall. intros i _. right.
      apply set_hsv_clamped.
    + apply Forall_map, Forall_forall. intros i _. right.
      apply set_hsv_clamped.
Qed.

(** ** Generated colors are in range *)

Section Sound.

Local Open Scope Q_scope.

Lemma one_to_In (p i : Z) : In i (one_to p) -> (1 <= i <= p)%Z.
Proof.
  unfold one_to. intros H. apply in_map_iff in H.
  destruct H as (n & <- & H). apply in_seq in H. lia.
Qed.

Lemma scale_abs (a w M : Q) :
  - M <= a -> a <= M -> 0 <= w -> w <= 1 -> - M <= a * w /\ a * w <= M.
Proof.
  intros A0 A1 W0 W1.
  destruct (Qlt_le_dec a 0) as [N|P].
  - destruct (scale_bounds (- a) w) as [B0 B1]; lra.
  - destruct (scale_bounds a w) as [B0 B1]; lra.
Qed.

(** A hue from 0 to 360 to which not less than -360 is added. *)
Lemma addToHue_in_range (h add : Q) :
  in_range 0 360 h -> -360 <= add ->
  in_range 0 360 (ColorModel.addToHue h add).
Proof.
  intros [H0 H1] Ha. unfold in_range, ColorModel.addToHue.
  pose proof (add_correct h add) as E.
  destruct (Js.gt (Js.add h add) 360) eqn:A.
  - apply gt_true_iff in A.
    destruct (rem_360 _ A) as [[R0 R1] _]. lra.
  - apply gt_false_iff in A.
    destruct (Js.lt (Js.add h add) 0) eqn:B.
    + apply lt_true_iff in B.
      assert (Js.add (Js.add 360 h) add == 360 + h + add) as E2.
      { unfold Js.add. now rewrite !Qred_correct. }
      lra.
    + apply lt_false_iff in B. lra.
Qed.

(** The hue shift of step [i] is at most half the hue range. *)
Lemma hue_step_bound (hr : Q) (p i : Z) :
  in_range (-720) 720 hr -> (1 <= i <= p)%Z ->
  let hueStep := Js.div (Js.mul hr (1 # 2)) (Js.of_Z p) in
  in_range (-360) 360 (Js.mul hueStep (Js.of_Z i))
  /\ in_range (-360) 360 (Js.mul (Js.neg hueStep) (Js.of_Z i)).
Proof.
  intros [R0 R1] Hi hueStep.
  assert (0 < inject_Z p) as Pp.
  { change 0 with (inject_Z 0). rewrite <- Zlt_Qlt. lia. }
  assert (0 <= inject_Z i / inject_Z p /\ inject_Z i / inject_Z p <= 1) as [W0 W1].
  { split.
    - apply Qle_shift_div_l; [exact Pp|]. rewrite Qmult_0_l.
      change 0 with (inject_Z 0). rewrite <- Zle_Qle. lia.
    - apply Qle_shift_div_r; [exact Pp|]. rewrite Qmult_1_l.
      rewrite <- Zle_Qle. lia. }
  destruct (scale_abs (hr * (1 # 2)) (inject_Z i / inject_Z p) 360)
    as [B0 B1]; try lra.
  assert (Js.mul hueStep (Js.of_Z i)
          == hr * (1 # 2) * (inject_Z i / inject_Z p)) as E1.
  { unfold hueStep, Js.mul, Js.div, Js.of_Z. rewrite !Qred_correct.
    field. lra. }
  assert (Js.mul (Js.neg hueStep) (Js.of_Z i)
          == - (hr * (1 # 2) * (inject_Z i / inject_Z p))) as E2.
  { unfold hueStep, Js.mul, Js.div, Js.neg, Js.of_Z. rewrite !Qred_correct.
    field. lra. }
  unfold in_range. lra.
Qed.

Import ColorPaletteGenerator.

Lemma baseColorUp_sound (g : t) (hueStep es ev : Q) (i : Z) :
  in_range 0 360 (hsv_h (ColorModel.hsv (baseColor g))) ->
  in_range (-360) 360 (Js.mul hueStep (Js.of_Z i)) ->
  wellFormed (baseColorUp g hueStep es ev i)
  /\ coherentHex (baseColorUp g hueStep es ev i).
Proof.
  intros Hh [S0 S1]. unfold baseColorUp. cbv zeta.
  apply set_hsv_sound. unfold hsvInRange. cbn [hsv_h hsv_s hsv_v].
  split; [now apply addToHue_in_range|].
  split; apply clamp100_bounds.
Qed.

Lemma baseColorDown_sound (g : t) (hueStep es ev : Q) (i : Z) :
  in_range 0 360 (hsv_h (ColorModel.hsv (baseColor g))) ->
  in_range (-360) 360 (Js.mul (Js.neg hueStep) (Js.of_Z i)) ->
  wellFormed (baseColorDown g hueStep es ev i)
  /\ coherentHex (baseColorDown g hueStep es ev i).
Proof.
  intros Hh [S0 S1]. unfold baseColorDown. cbv zeta.
  apply set_hsv_sound. unfold hsvInRange. cbn [hsv_h hsv_s hsv_v].
  split; [now apply addToHue_in_range|].
  split; apply clamp100_bounds.
Qed.

Lemma lightColor_sound (hue saturation value : Q) (b : ColorModel.t) :
  hue <= 360 ->
  wellFormed (lightColor hue saturation value b)
  /\ coherentHex (lightColor hue saturation value b).
Proof.
  intros Hh. unfold lightColor. cbv zeta.
  destruct (new_wellFormed (ColorModel.hex b)) as (_ & _ & (H & _)).
  apply set_hsv_sound. unfold hsvInRange. cbn [hsv_h hsv_s hsv_v].
  split; [|split; apply clamp100_bounds].
  apply addToHue_in_range; [exact H|].
  unfold Js.neg. rewrite Qred_correct. lra.
Qed.

Lemma darkColor_sound (hue saturation value : Q) (b : ColorModel.t) :
  -360 <= hue ->
  wellFormed (darkColor hue saturation value b)
  /\ coherentHex (darkColor hue saturation value b).
Proof.
  intros Hh. unfold darkColor. cbv zeta.
  destruct (new_wellFormed (ColorModel.hex b)) as (_ & _ & (H & _)).
  apply set_hsv_sound. unfold hsvInRange. cbn [hsv_h hsv_s hsv_v].
  split; [|split; apply clamp100_bounds].
  now apply addToHue_in_range.
Qed.

Variable rand : nat -> number.
Hypothesis rand_unit : unit_interval rand.

Lemma generatePalettes_sound (g : t) (k : nat) :
  in_range (-720) 720 (hueRange g) ->
  wellFormed (baseColor g) -> coherentHex (baseColor g) ->
  Forall (fun c => wellFormed c /\ coherentHex c)
         (fullPalette (fst (generatePalettes rand g k))).
Proof.
  intros Hr W C.
  destruct (generatePalettes_shape rand g k) as (B & L & D & _).
  cbv zeta in B, L, D.
  set (g' := fst (generatePalettes rand g k)) in *.
  assert (in_range 0 360 (hsv_h (ColorModel.hsv (baseColor g)))) as Hh.
  { destruct W as (_ & _ & (H & _)). exact H. }
  assert (forall n, Js.add (Js.mul (rand n) 5) (15 # 2) <= 360
                    /\ -360 <= Js.add (Js.mul (rand n) 5) (15 # 2)) as Hue.
  { intros n. destruct (rand_unit n).
    unfold Js.add, Js.mul. rewrite !Qred_correct. lra. }
  assert (Forall (fun c => wellFormed c /\ coherentHex c) (basePalette g')) as FB.
  { rewrite B. apply Forall_app. split; [|constructor; [now split|]].
    - apply Forall_rev, Forall_map, Forall_forall. intros i Hi.
      apply one_to_In in Hi.
      apply baseColorUp_sound; [exact Hh|].
      now apply (hue_step_bound (hueRange g) (precision g) i).
    - apply Forall_map, Forall_forall. intros i Hi.
      apply one_to_In in Hi.
      apply baseColorDown_sound; [exact Hh|].
      now apply (hue_step_bound (hueRange g) (precision g) i). }
  unfold fullPalette. fold (lightPalette g') (basePalette g') (darkPalette g').
  apply Forall_app. split; [|apply Forall_app; split; [exact FB|]].
  - rewrite L. apply Forall_map, Forall_forall. intros b _.
    apply lightColor_sound. apply Hue.
  - rewrite D. apply Forall_map, Forall_forall. intros b _.
    apply darkColor_sound. apply Hue.
Qed.

End Sound.



(** ** The constructor *)

Section Constructor.

Local Open Scope Q_scope.

Import ColorPaletteGenerator.

Variable rand : nat -> number.

Lemma round_bounds (x : Q) (a b : Z) :
  inject_Z a - (1 # 2) <= x -> x < inject_Z b + (1 # 2) ->
  (a <= Js.roundZ x <= b)%Z.
Proof.
  intros H0 H1. unfold Js.roundZ. apply floor_bounds; lra.
Qed.

Lemma round_in_range (x : Q) (a b : Z) :
  inject_Z a <= x -> x < inject_Z b ->
  in_range (inject_Z a) (inject_Z b) (Js.round x) /\ whole (Js.round x).
Proof.
  intros H0 H1. split; [|now exists (Js.roundZ x)].
  unfold in_range, Js.round. rewrite <- !Zle_Qle.
  apply round_bounds; lra.
Qed.

Lemma constructor_seedOf (p : ColorPaletteParams) (k : nat) :
  constructor rand p k
  = generatePalettes rand (fst (seedOf rand p k)) (snd (seedOf rand p k)).
Proof.
  unfold constructor, seedOf.
  destruct (param_baseColor p) as [[|c rest]|];
    destruct (param_baseSaturation p); reflexivity.
Qed.


Hypothesis rand_unit : unit_interval rand.

Lemma random_degrees (n : nat) :
  in_range 0 360 (Js.round (Js.mul (Js.mul (rand n) 100) (36 # 10)))
  /\ whole (Js.round (Js.mul (Js.mul (rand n) 100) (36 # 10))).
Proof.
  destruct (rand_unit n) as [R0 R1].
  apply (round_in_range _ 0 360); unfold Js.mul; rewrite !Qred_correct;
    cbv [inject_Z]; lra.
Qed.

Lemma random_percentage (n : nat) :
  in_range 65 85 (Js.round (Js.add (Js.mul (rand n) 20) 65))
  /\ whole (Js.round (Js.add (Js.mul (rand n) 20) 65)).
Proof.
  destruct (rand_unit n) as [R0 R1].
  apply (round_in_range _ 65 85); unfold Js.add, Js.mul; rewrite !Qred_correct;
    cbv [inject_Z]; lra.
Qed.

Lemma black_sound :
  wellFormed (ColorModel.saturate 0 100 0 (ColorModel.new "#000000"))
  /\ coherentHex (ColorModel.saturate 0 100 0 (ColorModel.new "#000000")).
Proof.
  apply saturate_sound; try lra. apply new_wellFormed.
Qed.

Lemma seedOf_sound (p : ColorPaletteParams) (k : nat) :
  match param_baseColor p with
  | Some (String _ _) => True
  | _ => match param_baseSaturation p with
         | Some s => in_range 0 100 s
         | None => True
         end
  end ->
  wellFormed (baseColor (fst (seedOf rand p k)))
  /\ coherentHex (baseColor (fst (seedOf rand p k))).
Proof.
  unfold seedOf.
  assert (forall s n m,
             in_range 0 100 s ->
             hsvInRange
               (mkHSV (Js.round (Js.mul (Js.mul (rand n) 100) (36 # 10))) s
                      (Js.round (Js.add (Js.mul (rand m) 20) 65)))) as R.
  { intros s n m Hs. unfold hsvInRange. cbn [hsv_h hsv_s hsv_v].
    split; [apply random_degrees|]. split; [exact Hs|].
    apply (in_range_weaken 65 85); try lra. apply random_percentage. }
  assert (forall n, in_range 0 100 (Js.round (Js.add (Js.mul (rand n) 20) 65)))
    as P.
  { intros n. apply (in_range_weaken 65 85); try lra. apply random_percentage. }
  assert (forall sat bc,
             wellFormed (ColorModel.saturate sat 100 0 (ColorModel.new bc))
             /\ coherentHex (ColorModel.saturate sat 100 0 (ColorModel.new bc)))
    as B.
  { intros sat bc. apply saturate_sound; try lra. apply new_wellFormed. }
  destruct (param_baseColor p) as [[|c rest]|];
    destruct (param_baseSaturation p) as [s|]; intros H;
    cbn [fst baseColor with_baseColor].
  - apply set_hsv_sound, R, H.
  - apply set_hsv_sound, R, P.
  - unfold setBaseColor. cbn [baseColor with_baseColor]. apply B.
  - unfold setBaseColor. cbn [baseColor with_baseColor]. apply B.
  - apply set_hsv_sound, R, H.
  - apply set_hsv_sound, R, P.
Qed.

End Constructor.

(** X16. Without a base color (none, or the empty string) and without a
    base saturation, the constructor draws its base color with three calls
    of [rand]: when the draws are in the unit interval, the hue is a whole
    number from 0 to 360 and the saturation and the value are whole
    numbers from 65 to 85; ten more draws generate the palettes.  A base
    saturation that is given is taken as it is, and saves one draw. *)
Theorem random_base_color (rand : nat -> number) (p : ColorPaletteParams)
        (k : nat) :
  unit_interval rand ->
  param_baseColor p = None \/ param_baseColor p = Some EmptyString ->
  let g := fst (ColorPaletteGenerator.constructor rand p k) in
  let c := ColorModel.hsv (ColorPaletteGenerator.baseColor g) in
  (whole (hsv_h c) /\ in_range 0 360 (hsv_h c))
  /\ (whole (hsv_v c) /\ in_range 65 85 (hsv_v c))
  /\ match param_baseSaturation p with
     | Some s =>
         hsv_s c = s
         /\ snd (ColorPaletteGenerator.constructor rand p k) = (k + 12)%nat
     | None =>
         (whole (hsv_s c) /\ in_range 65 85 (hsv_s c))
         /\ snd (ColorPaletteGenerator.constructor rand p k) = (k + 13)%nat
     end.
Proof.
  intros U N g c. subst c g. rewrite constructor_seedOf.
  destruct (generatePalettes_shape rand (fst (seedOf rand p k))
              (snd (seedOf rand p k))) as (_ & _ & _ & -> & _).
  destruct (generatePalettes_spec rand (fst (seedOf rand p k))
              (snd (seedOf rand p k))) as (_ & _ & _ & _ & _ & ->).
  unfold seedOf. destruct N as [N|N]; rewrite N;
  destruct (param_baseSaturation p) as [s|];
    cbn [fst snd ColorPaletteGenerator.baseColor
         ColorPaletteGenerator.with_baseColor];
    unfold ColorModel.set_hsv, ColorModel.write_hex, ColorModel.write_rgb,
      ColorModel.write_hsl, ColorModel.write_hsv;
    cbn [ColorModel.hsv hsv_h hsv_s hsv_v].
  - destruct (random_degrees rand U k) as [D W].
    destruct (random_percentage rand U (S k)) as [P1 W1].
    split; [now split|]. split; [now split|]. split; [reflexivity|lia].
  - destruct (random_degrees rand U k) as [D W].
    destruct (random_percentage rand U (S k)) as [P1 W1].
    destruct (random_percentage rand U (S (S k))) as [P2 W2].
    split; [now split|]. split; [now split|]. split; [now split|lia].
  - destruct (random_degrees rand U k) as [D W].
    destruct (random_percentage rand U (S k)) as [P1 W1].
    split; [now split|]. split; [now split|]. split; [reflexivity|lia].
  - destruct (random_degrees rand U k) as [D W].
    destruct (random_percentage rand U (S k)) as [P1 W1].
    destruct (random_percentage rand U (S (S k))) as [P2 W2].
    split; [now split|]. split; [now split|]. split; [now split|lia].
Qed.

Lemma random_base_color_witness :
  in_range 65 85
    (hsv_v (ColorModel.hsv
              (ColorPaletteGenerator.baseColor
                 (fst (ColorPaletteGenerator.constructor cyclicRand
                         (mkParams None None None None) 0%nat))))).
Proof.
  apply (random_base_color cyclicRand (mkParams None None None None) 0%nat
           cyclicRand_unit (or_introl eq_refl)).
Defined.



(** ** The random palette *)

Lemma odd_indices_length (A : Type) (l : list A) :
  List.length (odd_indices l) = (List.length l / 2)%nat.
Proof.
  assert (forall n (l : list A), (List.length l <= n)%nat ->
            List.length (odd_indices l) = (List.length l / 2)%nat) as H.
  { induction n as [|n IH]; intros [|x [|y rest]] Hl;
      cbn [odd_indices List.length] in *; try reflexivity; try lia.
    rewrite IH by lia.
    replace (S (S (List.length rest))) with (List.length rest + 1 * 2)%nat by lia.
    rewrite Nat.div_add by lia. lia. }
  apply (H (List.length l)). lia.
Qed.

Lemma set_first_length (A : Type) (x : A) (l : list A) :
  List.length (set_first x l) = Nat.max 1 (List.length l).
Proof. destruct l; simpl; lia. Qed.

Lemma set_first_incl (A : Type) (x y : A) (l : list A) :
  In y (set_first x l) -> y = x \/ In y l.
Proof.
  destruct l as [|z l]; simpl; intros [H|H]; auto; contradiction.
Qed.

Lemma has_self (seed : ColorModel.t) (l : ColorPalette) :
  ColorPaletteGenerator.has seed (set_first seed l) = true.
Proof.
  unfold ColorPaletteGenerator.has, ColorModel.equals.
  destruct l; simpl; now rewrite String.eqb_refl.
Qed.

Section RandomPaletteShape.

Import ColorPaletteGenerator.

Context {HS : ArraySort}.
Variable rand : nat -> number.

(** The result of [getRandomPalette], up to the two sorts: the first
    colors of the shuffled candidates, with the base color written over
    the first of them when it is asked for and missing. *)
Lemma getRandomPalette_shape (g : t) (o : PaletteOptions) (k : nat) :
  exists shuffled,
    Permutation shuffled (randomCandidates g o)
    /\ let cut := slice0 (Z.max 1 (length o)) shuffled in
       Permutation (fst (getRandomPalette rand g o k))
                   (if includeBaseColor o && negb (has (baseColor g) cut)
                    then set_first (baseColor g) cut else cut).
Proof.
  unfold getRandomPalette, bind, randomCandidates.
  set (cands := if filterPasses o && (2 <? precision g)%Z then _ else _).
  pose proof (sort_permutation _ (shuffleCompare rand) cands k) as P.
  destruct (sort (shuffleCompare rand) cands k) as [shuffled k1].
  exists shuffled. split; [exact P|].
  assert ((if (length o <? 1)%Z then 1%Z else length o) = Z.max 1 (length o))
    as ->.
  { destruct (Z.ltb_spec (length o) 1); lia. }
  cbv zeta.
  destruct (sortByBrightness o).
  - apply sort_permutation.
  - apply Permutation_refl.
Qed.

Lemma getRandomPalette_has_seed (g : t) (o : PaletteOptions) (k : nat) :
  includeBaseColor o = true ->
  has (baseColor g) (fst (getRandomPalette rand g o k)) = true.
Proof.
  intros Hinc.
  destruct (getRandomPalette_shape g o k) as (sh & _ & P). cbv zeta in P.
  unfold has at 1. rewrite (existsb_permutation _ _ _ _ P).
  rewrite Hinc. cbn [andb].
  destruct (has (baseColor g) (slice0 (Z.max 1 (length o)) sh)) eqn:E.
  - exact E.
  - apply has_self.
Qed.

Lemma getRandomPalette_length (g : t) (o : PaletteOptions) (k : nat) :
  List.length (fst (getRandomPalette rand g o k))
  = Nat.max (if includeBaseColor o then 1 else 0)
            (Nat.min (Z.to_nat (Z.max 1 (length o)))
                     (List.length (randomCandidates g o))).
Proof.
  destruct (getRandomPalette_shape g o k) as (sh & P1 & P). cbv zeta in P.
  rewrite (Permutation_length P), <- (Permutation_length P1).
  assert (List.length (slice0 (Z.max 1 (length o)) sh)
          = Nat.min (Z.to_nat (Z.max 1 (length o))) (List.length sh)) as L.
  { unfold slice0. destruct (Z.ltb_spec (Z.max 1 (length o)) 0); [lia|].
    apply length_firstn. }
  destruct (includeBaseColor o); cbn [andb].
  - destruct (has (baseColor g) (slice0 (Z.max 1 (length o)) sh)) eqn:E;
      cbn [negb].
    + rewrite L.
      assert (slice0 (Z.max 1 (length o)) sh <> []) as N.
      { intros Z. rewrite Z in E. discriminate E. }
      destruct (slice0 (Z.max 1 (length o)) sh) eqn:S; [contradiction|].
      simpl in L. lia.
    + rewrite set_first_length, L. reflexivity.
  - rewrite L. lia.
Qed.

Lemma getRandomPalette_members (g : t) (o : PaletteOptions) (k : nat) :
  Forall (fun c =>
            (includeBaseColor o = true /\ c = baseColor g)
            \/ (In c (fullPalette g)
                /\ Js.le (minSaturation o) (hsv_s (ColorModel.hsv c)) = true
                /\ Js.le (hsv_s (ColorModel.hsv c)) (maxSaturation o) = true))
         (fst (getRandomPalette rand g o k)).
Proof.
  destruct (getRandomPalette_shape g o k) as (sh & P1 & P). cbv zeta in P.
  apply Forall_forall. intros x Hx.
  apply (Permutation_in _ P) in Hx.
  assert (In x (slice0 (Z.max 1 (length o)) sh) ->
          In x (fullPalette g)
          /\ Js.le (minSaturation o) (hsv_s (ColorModel.hsv x)) = true
          /\ Js.le (hsv_s (ColorModel.hsv x)) (maxSaturation o) = true) as Pool.
  { intros H. apply slice0_incl in H. apply (Permutation_in _ P1) in H.
    assert (In x (saturationFilter o (fullPalette g))) as Hp.
    { unfold randomCandidates in H.
      destruct (filterPasses o && (2 <? precision g)%Z); [|exact H].
      now apply odd_indices_incl, odd_indices_incl. }
    unfold saturationFilter in Hp.
    apply filter_In in Hp. destruct Hp as [Hp H2].
    apply filter_In in Hp. tauto. }
  destruct (includeBaseColor o); cbn [andb] in Hx.
  - destruct (has (baseColor g) (slice0 (Z.max 1 (length o)) sh)); cbn [negb] in Hx.
    + right. now apply Pool.
    + apply set_first_incl in Hx. destruct Hx as [->|Hx]; [now left|].
      right. now apply Pool.
  - right. now apply Pool.
Qed.

End RandomPaletteShape.

(** X18. With [includeBaseColor], [getRandomPalette] always returns a
    color equal to the base color, and so at least one color, whatever the
    filters leave, whatever [rand] returns and whatever the host's sort
    does. *)
Theorem random_palette_includes_base_color {HS : ArraySort}
        (rand : nat -> number) (g : ColorPaletteGenerator.t)
        (o : PaletteOptions) (k : nat) :
  includeBaseColor o = true ->
  ColorPaletteGenerator.has (ColorPaletteGenerator.baseColor g)
    (fst (ColorPaletteGenerator.getRandomPalette rand g o k)) = true
  /\ (1 <= List.length
             (fst (ColorPaletteGenerator.getRandomPalette rand g o k)))%nat.
Proof.
  intros H. split; [now apply getRandomPalette_has_seed|].
  rewrite getRandomPalette_length, H. lia.
Qed.

Lemma random_palette_includes_base_color_witness :
  ColorPaletteGenerator.has (ColorModel.new "#3459c7")
    (fst (ColorPaletteGenerator.getRandomPalette (HS := insertionSort)
            cyclicRand
            (ColorPaletteGenerator.mk 1 180 (ColorModel.new "#3459c7")
               (mkPalettes [] [] []))
            (mkOptions 3 true true true 0 100 0 100) 0%nat)) = true.
Proof.
  apply (random_palette_includes_base_color (HS := insertionSort) cyclicRand
           (ColorPaletteGenerator.mk 1 180 (ColorModel.new "#3459c7")
              (mkPalettes [] [] []))
           (mkOptions 3 true true true 0 100 0 100) 0%nat).
  reflexivity.
Defined.

(** X19. The size of a random palette: the requested length (1 when less
    than 1 is asked for), capped by the number of candidates, and at least
    1 with [includeBaseColor].  The candidates are the colors of
    [fullPalette] within the saturation bounds, of which [filterPasses]
    keeps a quarter, rounded down, when the precision is above 2. *)
Theorem random_palette_size {HS : ArraySort} (rand : nat -> number)
        (g : ColorPaletteGenerator.t) (o : PaletteOptions) (k : nat) :
  let pool := ColorPaletteGenerator.saturationFilter o
                (ColorPaletteGenerator.fullPalette g) in
  let candidates :=
    if filterPasses o && (2 <? ColorPaletteGenerator.precision g)%Z
    then (List.length pool / 4)%nat else List.length pool in
  List.length (fst (ColorPaletteGenerator.getRandomPalette rand g o k))
  = Nat.max (if includeBaseColor o then 1 else 0)
            (Nat.min (Z.to_nat (Z.max 1 (length o))) candidates).
Proof.
  intros pool candidates. rewrite getRandomPalette_length.
  f_equal. f_equal. unfold randomCandidates, candidates. fold pool.
  destruct (filterPasses o && (2 <? ColorPaletteGenerator.precision g)%Z);
    [|reflexivity].
  rewrite !odd_indices_length, Nat.Div0.div_div. reflexivity.
Qed.

(** X20. Every color of a random palette is a color of [fullPalette]
    whose HSV saturation is within the two bounds, or, with
    [includeBaseColor], the base color itself. *)
Theorem random_palette_members {HS : ArraySort} (rand : nat -> number)
        (g : ColorPaletteGenerator.t) (o : PaletteOptions) (k : nat) :
  Forall (fun c =>
            (includeBaseColor o = true
             /\ c = ColorPaletteGenerator.baseColor g)
            \/ (In c (ColorPaletteGenerator.fullPalette g)
                /\ Js.le (minSaturation o) (hsv_s (ColorModel.hsv c)) = true
                /\ Js.le (hsv_s (ColorModel.hsv c)) (maxSaturation o) = true))
         (fst (ColorPaletteGenerator.getRandomPalette rand g o k)).
Proof. apply getRandomPalette_members. Qed.

(** ** The distributed palette *)

Section DistributedShape.

Import ColorPaletteGenerator.

Context {HS : ArraySort}.
Variable rand : nat -> number.

Lemma lookup_In (array : ColorPalette) (index : Z) (c : ColorModel.t) :
  lookup array index = Some c -> In c array.
Proof.
  unfold lookup. destruct (index <? 0)%Z; [discriminate|].
  apply nth_error_In.
Qed.

(** A band's loop that returns has pushed one color of the band per
    round. *)
Lemma sampleBand_result (fuel : nat) (inc : bool) (seed : ColorModel.t)
      (array : ColorPalette) (n : nat) (indexes : list Z)
      (returned result : ColorPalette) (k k' : nat) :
  sampleBand rand fuel inc seed array n indexes returned k = Done result k' ->
  exists extra,
    result = returned ++ extra /\ List.length extra = n /\ incl extra array.
Proof.
  revert indexes returned k; induction n as [|n IH]; intros indexes returned k.
  - simpl. intros E; inversion E; subst. exists [].
    rewrite app_nil_r. split; [reflexivity|]. split; [reflexivity|].
    intros x [].
  - rewrite sampleBand_unfold.
    destruct (sampleIndex rand fuel inc seed array indexes k) as [index k1| |];
      try discriminate.
    destruct (lookup array index) as [c|] eqn:Hc; try discriminate.
    intros E. destruct (IH _ _ _ E) as (extra & -> & L & I).
    exists (c :: extra). rewrite <- app_assoc. split; [reflexivity|].
    split; [simpl; now rewrite L|].
    intros x [<-|Hx]; [now apply (lookup_In _ index)|now apply I].
Qed.

Lemma iterations_le (array : ColorPalette) (n : Z) :
  (Z.of_nat (iterations array n) <= Z.max 0 n)%Z.
Proof. unfold iterations. lia. Qed.

Lemma guardedIterations_le (array : ColorPalette) (n : Z) :
  (Z.of_nat (guardedIterations array n) <= Z.max 0 n)%Z.
Proof.
  destruct array as [|x l]; [simpl; lia|].
  apply (iterations_le (x :: l)).
Qed.

Lemma getDistributedPalette_bounded (fuel : nat) (g : t) (o : PaletteOptions)
      (k k' : nat) (result : ColorPalette) :
  getDistributedPalette rand fuel g o k = Done result k' ->
  (Z.of_nat (List.length result)
   <= Z.max (length o) (if includeBaseColor o then 1 else 0))%Z
  /\ Forall (fun c =>
               (includeBaseColor o = true /\ c = baseColor g)
               \/ In c (saturationFilter o (fullPalette g)))
            result.
Proof.
  set (pool := saturationFilter o (fullPalette g)).
  set (target := targetLength o).
  assert (target = if includeBaseColor o then Z.max 0 (length o - 1)
                   else length o) as ET by reflexivity.
  destruct (Z.of_nat (List.length pool) <=? target + 1)%Z eqn:C.
  - apply Z.leb_le in C.
    destruct (getDistributedPalette_fallback rand fuel g o k C)
      as (sh & k1 & P & E).
    rewrite E. intros R; inversion R; subst result k'. fold target. split.
    + unfold slice0. destruct (Z.ltb_spec target 0) as [N|N].
      * rewrite length_firstn, (Permutation_length P). fold pool.
        destruct (includeBaseColor o); lia.
      * rewrite length_firstn. destruct (includeBaseColor o); lia.
    + apply Forall_forall. intros x Hx. right.
      apply slice0_incl in Hx. now apply (Permutation_in _ P).
  - rewrite getDistributedPalette_sampling by exact C.
    fold pool target.
    set (dI := guardedIterations (darkBand pool) (target / 4)%Z).
    set (lI := guardedIterations (lightBand pool) (target / 4)%Z).
    set (bI := iterations (baseBand pool) (target - Z.of_nat (dI + lI))%Z).
    destruct (sampleBand rand fuel _ _ _ dI _ _ _) as [r1 k1| |] eqn:E1;
      try discriminate.
    destruct (sampleBand rand fuel _ _ _ lI _ _ _) as [r2 k2| |] eqn:E2;
      try discriminate.
    destruct (sampleBand rand fuel _ _ _ bI _ _ _) as [r3 k3| |] eqn:E3;
      try discriminate.
    apply sampleBand_result in E1, E2, E3.
    destruct E1 as (x1 & -> & L1 & I1), E2 as (x2 & -> & L2 & I2),
             E3 as (x3 & -> & L3 & I3).
    assert (Z.of_nat (List.length
              ((((if includeBaseColor o then [baseColor g] else []) ++ x1)
                ++ x2) ++ x3))
            <= Z.max (length o) (if includeBaseColor o then 1 else 0))%Z as Len.
    { rewrite !length_app, L1, L2, L3.
      pose proof (guardedIterations_le (darkBand pool) (target / 4)) as D.
      pose proof (guardedIterations_le (lightBand pool) (target / 4)) as L.
      pose proof (iterations_le (baseBand pool) (target - Z.of_nat (dI + lI))) as B.
      fold dI in D. fold lI in L. fold bI in B.
      assert (target < 0 \/ 0 <= target)%Z as [N|N] by lia.
      - assert (target / 4 < 0)%Z by (apply Z.div_lt_upper_bound; lia).
        destruct (includeBaseColor o); simpl List.length; lia.
      - assert (0 <= target / 4)%Z by (apply Z.div_pos; lia).
        assert (4 * (target / 4) <= target)%Z
          by (apply Z.mul_div_le; lia).
        destruct (includeBaseColor o); simpl List.length; lia. }
    assert (Forall (fun c =>
                      (includeBaseColor o = true /\ c = baseColor g)
                      \/ In c pool)
              ((((if includeBaseColor o then [baseColor g] else []) ++ x1)
                ++ x2) ++ x3)) as Mem.
    { assert (forall f x, incl x (filter f pool) ->
                Forall (fun c => (includeBaseColor o = true /\ c = baseColor g)
                                 \/ In c pool) x) as Band.
      { intros f x I. apply Forall_forall. intros c Hc. right.
        apply I in Hc. apply filter_In in Hc. tauto. }
      repeat (apply Forall_app; split).
      - destruct (includeBaseColor o); [|constructor].
        constructor; [left; now split|constructor].
      - now apply (Band _ _ I1).
      - now apply (Band _ _ I2).
      - now apply (Band _ _ I3). }
    destruct (sortByBrightness o).
    + pose proof (sort_permutation _ brightnessCompare
                    ((((if includeBaseColor o then [baseColor g] else []) ++ x1)
                      ++ x2) ++ x3) k3) as P.
      destruct (sort brightnessCompare _ k3) as [sorted k4].
      intros R; inversion R; subst result k'. cbn [fst] in P. split.
      * now rewrite (Permutation_length P).
      * apply Forall_forall. intros x Hx.
        apply (Permutation_in _ P) in Hx.
        rewrite Forall_forall in Mem. now apply Mem.
    + intros R; inversion R; subst result k'. split; [exact Len|exact Mem].
Qed.

End DistributedShape.

(** X21. A distributed palette that is returned never holds more colors
    than were asked for (one, when [includeBaseColor] asks for less), and
    each of its colors is a color of [fullPalette] within the saturation
    bounds or, with [includeBaseColor], the base color itself. *)
Theorem distributed_palette_is_bounded {HS : ArraySort}
        (rand : nat -> number) (fuel : nat) (g : ColorPaletteGenerator.t)
        (o : PaletteOptions) (k k' : nat) (result : ColorPalette) :
  ColorPaletteGenerator.getDistributedPalette rand fuel g o k
  = Done result k' ->
  (Z.of_nat (List.length result)
   <= Z.max (length o) (if includeBaseColor o then 1 else 0))%Z
  /\ Forall (fun c =>
               (includeBaseColor o = true
                /\ c = ColorPaletteGenerator.baseColor g)
               \/ In c (ColorPaletteGenerator.saturationFilter o
                          (ColorPaletteGenerator.fullPalette g)))
            result.
Proof. apply getDistributedPalette_bounded. Qed.

Lemma distributed_palette_is_bounded_witness :
  exists result k',
    ColorPaletteGenerator.getDistributedPalette (HS := insertionSort)
      cyclicRand 20
      (fst (ColorPaletteGenerator.constructor cyclicRand
              (mkParams (Some 2%Z) None (Some "#3459c7"%string) None) 0%nat))
      (mkOptions 4 false true true 0 100 0 100) 10%nat
    = Done result k'
    /\ (Z.of_nat (List.length result) <= 4)%Z.
Proof.
  assert (exists result k',
    ColorPaletteGenerator.getDistributedPalette (HS := insertionSort)
      cyclicRand 20
      (fst (ColorPaletteGenerator.constructor cyclicRand
              (mkParams (Some 2%Z) None (Some "#3459c7"%string) None) 0%nat))
      (mkOptions 4 false true true 0 100 0 100) 10%nat
    = Done result k') as (result & k' & E).
  { vm_compute. eexists. eexists. reflexivity. }
  exists result, k'. split; [exact E|].
  apply (distributed_palette_is_bounded (HS := insertionSort) _ _ _ _ _ _ _ E).
Defined.

(** X22. Outside the fallback, a distributed palette that is returned with
    [includeBaseColor] holds the base color. *)
Theorem distributed_palette_includes_base_color {HS : ArraySort}
        (rand : nat -> number) (fuel : nat) (g : ColorPaletteGenerator.t)
        (o : PaletteOptions) (k k' : nat) (result : ColorPalette) :
  includeBaseColor o = true ->
  (ColorPaletteGenerator.targetLength o + 1
   < Z.of_nat (List.length (ColorPaletteGenerator.saturationFilter o
                              (ColorPaletteGenerator.fullPalette g))))%Z ->
  ColorPaletteGenerator.getDistributedPalette rand fuel g o k
  = Done result k' ->
  ColorPaletteGenerator.has (ColorPaletteGenerator.baseColor g) result = true.
Proof. apply getDistributedPalette_sampled_has_seed. Qed.

Lemma distributed_palette_includes_base_color_witness :
  exists result k',
    ColorPaletteGenerator.getDistributedPalette (HS := insertionSort)
      cyclicRand 20
      (fst (ColorPaletteGenerator.constructor cyclicRand
              (mkParams (Some 2%Z) None (Some "#3459c7"%string) None) 0%nat))
      (mkOptions 4 true true true 0 100 0 100) 10%nat
    = Done result k'
    /\ ColorPaletteGenerator.has
         (ColorPaletteGenerator.baseColor
            (fst (ColorPaletteGenerator.constructor cyclicRand
                    (mkParams (Some 2%Z) None (Some "#3459c7"%string) None)
                    0%nat)))
         result = true.
Proof.
  assert (exists result k',
    ColorPaletteGenerator.getDistributedPalette (HS := insertionSort)
      cyclicRand 20
      (fst (ColorPaletteGenerator.constructor cyclicRand
              (mkParams (Some 2%Z) None (Some "#3459c7"%string) None) 0%nat))
      (mkOptions 4 true true true 0 100 0 100) 10%nat
    = Done result k') as (result & k' & E).
  { vm_compute. eexists. eexists. reflexivity. }
  exists result, k'. split; [exact E|].
  refine (distributed_palette_includes_base_color (HS := insertionSort)
            cyclicRand 20 _ (mkOptions 4 true true true 0 100 0 100)
            10%nat k' result eq_refl _ E).
  vm_compute. reflexivity.
Defined.

(** X23. With [includeBaseColor], a call outside the fallback that asks
    the middle band (value between 37.5 and 87.5) for more colors than it
    holds besides the base color does not return, whatever [rand] is and
    however long it runs. *)
Theorem distributed_palette_starves {HS : ArraySort}
        (rand : nat -> number) (fuel : nat) (g : ColorPaletteGenerator.t)
        (o : PaletteOptions) (k k' : nat) (result : ColorPalette) :
  let pool := ColorPaletteGenerator.saturationFilter o
                (ColorPaletteGenerator.fullPalette g) in
  let target := ColorPaletteGenerator.targetLength o in
  let darkIterations :=
    ColorPaletteGenerator.guardedIterations
      (ColorPaletteGenerator.darkBand pool) (target / 4)%Z in
  let lightIterations :=
    ColorPaletteGenerator.guardedIterations
      (ColorPaletteGenerator.lightBand pool) (target / 4)%Z in
  let baseIterations :=
    ColorPaletteGenerator.iterations
      (ColorPaletteGenerator.baseBand pool)
      (target - Z.of_nat (darkIterations + lightIterations))%Z in
  includeBaseColor o = true ->
  (target + 1 < Z.of_nat (List.length pool))%Z ->
  (seedFree (ColorPaletteGenerator.baseColor g)
            (ColorPaletteGenerator.baseBand pool) < baseIterations)%nat ->
  ColorPaletteGenerator.getDistributedPalette rand fuel g o k
  <> Done result k'.
Proof.
  intros pool target dI lI bI Hinc Hmain Hstarved.
  apply getDistributedPalette_starved; try assumption.
  apply Z.leb_gt. exact Hmain.
Qed.

Lemma distributed_palette_starves_witness :
  ColorPaletteGenerator.getDistributedPalette (HS := insertionSort)
    cyclicRand 1000
    (fst (ColorPaletteGenerator.constructor (fun _ => 1 # 2)
            (mkParams None None (Some "#3459c7"%string) None) 0%nat))
    (mkOptions 26 true true true 0 100 0 100) 10%nat
  <> Done [] 0%nat.
Proof.
  apply (distributed_palette_starves (HS := insertionSort)).
  - reflexivity.
  - vm_compute. reflexivity.
  - vm_compute. repeat constructor.
Defined.

(** ** CMYK *)

Section Cmyk.

Local Open Scope Q_scope.

Lemma round_error (x : Q) :
  x - (1 # 2) < Js.round x /\ Js.round x <= x + (1 # 2).
Proof.
  unfold Js.round, Js.roundZ.
  pose proof (Qfloor_le (x + (1 # 2))) as F1.
  pose proof (Qlt_floor (x + (1 # 2))) as F2.
  rewrite inject_Z_plus in F2. change (inject_Z 1) with 1 in F2.
  split; lra.
Qed.

Lemma eqb_true (x y : Q) : Js.eqb x y = true <-> x == y.
Proof. unfold Js.eqb. apply Qeq_bool_iff. Qed.

Lemma eqb_false (x y : Q) : Js.eqb x y = false -> ~ x == y.
Proof. unfold Js.eqb. apply Qeq_bool_false. Qed.

(** One of the channels [c], [m], [y]: between the black level [k] and 1
    it is a share [q] of what the black leaves. *)
Lemma cmykChannel_spec (x k : Q) (normalized : bool) :
  0 <= k -> k <= x -> x <= 1 ->
  exists q : Q,
    0 <= q /\ q <= 1 /\ q * (1 - k) == x - k
    /\ ColorModel.cmykChannel x k normalized
       = Some (if normalized then q
               else Js.div (Js.round (Js.mul q 10000)) 100).
Proof.
  intros K0 KX X1. unfold ColorModel.cmykChannel, divide.
  pose proof (sub_correct 1 k) as E1. pose proof (sub_correct x k) as E2.
  destruct (Js.eqb (Js.sub 1 k) 0) eqn:A.
  - apply eqb_true in A.
    assert (Js.eqb (Js.sub x k) 0 = true) as B by (apply eqb_true; lra).
    rewrite B. exists 0. split; [lra|]. split; [lra|]. split; [lra|].
    now destruct normalized.
  - apply eqb_false in A.
    assert (0 < 1 - k) as P.
    { apply Qnot_le_lt. intros C. apply A. lra. }
    exists (Js.div (Js.sub x k) (Js.sub 1 k)).
    assert (Js.div (Js.sub x k) (Js.sub 1 k) == (x - k) / (1 - k)) as E.
    { rewrite div_correct. now rewrite E1, E2. }
    split; [|split; [|split; [|reflexivity]]].
    + rewrite E. apply Qle_shift_div_l; [exact P|]. lra.
    + rewrite E. apply Qle_shift_div_r; [exact P|]. lra.
    + rewrite E. field. lra.
Qed.

(** Two decimals of a percentage: a share between 0 and 1 gives a
    percentage between 0 and 100, within 0.005 of the share. *)
Lemma percent_spec (q : Q) :
  0 <= q -> q <= 1 ->
  let p := Js.div (Js.round (Js.mul q 10000)) 100 in
  in_range 0 100 p
  /\ - (1 # 20000) <= Js.div p 100 - q /\ Js.div p 100 - q <= 1 # 20000.
Proof.
  intros Q0 Q1 p.
  destruct (round_error (Js.mul q 10000)) as [R0 R1].
  pose proof (mul_correct q 10000) as E.
  assert (p == Js.round (Js.mul q 10000) * (1 # 100)) as Ep.
  { unfold p. rewrite div_correct. field. }
  assert (Js.div p 100 == p * (1 # 100)) as Ed by (rewrite div_correct; field).
  assert (0 <= Js.round (Js.mul q 10000)
          /\ Js.round (Js.mul q 10000) <= 10000) as [B0 B1].
  { unfold Js.round. change 0 with (inject_Z 0).
    change 10000 with (inject_Z 10000). rewrite <- !Zle_Qle.
    apply round_bounds; cbv [inject_Z]; lra. }
  unfold in_range. repeat split; lra.
Qed.

Lemma cmykBack_close (x q k : Q) :
  0 <= q -> q <= 1 -> 0 <= k -> k <= 1 -> q * (1 - k) == x - k ->
  let C := Js.div (Js.round (Js.mul q 10000)) 100 in
  let K := Js.div (Js.round (Js.mul k 10000)) 100 in
  - (255 # 10000) <= cmykBack C K - 255 * (1 - x)
  /\ cmykBack C K - 255 * (1 - x) <= 255 # 10000.
Proof.
  intros Q0 Q1 K0 K1 E C K.
  destruct (percent_spec q Q0 Q1) as ((C0 & C1) & EC0 & EC1).
  destruct (percent_spec k K0 K1) as ((P0 & P1) & EK0 & EK1).
  fold C in C0, C1, EC0, EC1. fold K in P0, P1, EK0, EK1.
  set (c1 := Js.div C 100) in *. set (k1 := Js.div K 100) in *.
  assert (k1 == K * (1 # 100)) as Ek1 by (unfold k1; rewrite div_correct; field).
  assert (cmykBack C K == 255 * (1 - (c1 * (1 - k1) + k1))) as EB.
  { unfold cmykBack. fold c1 k1. unfold Js.mul, Js.sub, Js.add.
    now rewrite !Qred_correct. }
  assert (- (1 # 20000) <= (c1 - q) * (1 - k1)
          /\ (c1 - q) * (1 - k1) <= 1 # 20000) as [A0 A1].
  { apply scale_abs; lra. }
  assert (- (1 # 20000) <= (k1 - k) * (1 - q)
          /\ (k1 - k) * (1 - q) <= 1 # 20000) as [B0 B1].
  { apply scale_abs; lra. }
  assert (c1 * (1 - k1) + k1 - x
          == (c1 - q) * (1 - k1) + (k1 - k) * (1 - q)) as Id.
  { assert (x == q * (1 - k) + k) as Ex by lra. rewrite Ex. ring. }
  split; lra.
Qed.

Lemma round_close (x : Q) (n : Z) :
  - (1 # 4) <= x - inject_Z n -> x - inject_Z n <= 1 # 4 ->
  Js.round x = inject_Z n.
Proof.
  intros H0 H1. unfold Js.round. f_equal.
  assert (n <= Js.roundZ x <= n)%Z; [|lia].
  apply round_bounds; lra.
Qed.

Lemma min3_spec (c m y : Q) :
  let k := Js.min c (Js.min m y) in
  k <= c /\ k <= m /\ k <= y /\ (k = c \/ k = m \/ k = y).
Proof.
  intros k. unfold k.
  destruct (min_spec m y) as (A1 & A2 & A3).
  destruct (min_spec c (Js.min m y)) as (B1 & B2 & B3).
  repeat split; try lra.
  destruct B3 as [->| ->]; [now left|]. right. exact A3.
Qed.

Lemma rgbToCmyk_spec (r g b : Q) (normalized : bool) :
  in_range 0 255 r -> in_range 0 255 g -> in_range 0 255 b ->
  exists qc qm qy k : Q,
    (0 <= qc /\ qc <= 1) /\ (0 <= qm /\ qm <= 1) /\ (0 <= qy /\ qy <= 1)
    /\ (0 <= k /\ k <= 1)
    /\ qc * (1 - k) == 1 - r / 255 - k
    /\ qm * (1 - k) == 1 - g / 255 - k
    /\ qy * (1 - k) == 1 - b / 255 - k
    /\ ColorModel.rgbToCmyk (mkRGB r g b) normalized
       = Some (if normalized then mkCMYK qc qm qy k
               else mkCMYK (Js.div (Js.round (Js.mul qc 10000)) 100)
                           (Js.div (Js.round (Js.mul qm 10000)) 100)
                           (Js.div (Js.round (Js.mul qy 10000)) 100)
                           (Js.div (Js.round (Js.mul k 10000)) 100)).
Proof.
  intros [R0 R1] [G0 G1] [B0 B1].
  unfold ColorModel.rgbToCmyk. cbv zeta. cbn [rgb_r rgb_g rgb_b].
  set (c := Js.sub 1 (Js.div r 255)).
  set (m := Js.sub 1 (Js.div g 255)).
  set (y := Js.sub 1 (Js.div b 255)).
  assert (c == 1 - r / 255) as Ec.
  { unfold c. now rewrite sub_correct, div_correct. }
  assert (m == 1 - g / 255) as Em.
  { unfold m. now rewrite sub_correct, div_correct. }
  assert (y == 1 - b / 255) as Ey.
  { unfold y. now rewrite sub_correct, div_correct. }
  assert (r / 255 == r * (1 # 255)) as Dr by field.
  assert (g / 255 == g * (1 # 255)) as Dg by field.
  assert (b / 255 == b * (1 # 255)) as Db by field.
  destruct (min3_spec c m y) as (Kc & Km & Ky & Kis). cbv zeta in Kc, Km, Ky, Kis.
  set (k := Js.min c (Js.min m y)) in *.
  assert (0 <= k /\ k <= 1) as [K0 K1].
  { destruct Kis as [->|[->| ->]]; split; lra. }
  destruct (cmykChannel_spec c k normalized K0 Kc) as (qc & C0 & C1 & EC & ->);
    [lra|].
  destruct (cmykChannel_spec m k normalized K0 Km) as (qm & M0 & M1 & EM & ->);
    [lra|].
  destruct (cmykChannel_spec y k normalized K0 Ky) as (qy & Y0 & Y1 & EY & ->);
    [lra|].
  exists qc, qm, qy, k.
  repeat (split; [first [assumption | lra]|]).
  now destruct normalized.
Qed.

End Cmyk.

(** X24. On channels from 0 to 255, [rgbToCmyk] never divides a number
    other than zero by zero, and it returns four numbers from 0 to 100, or
    from 0 to 1 when [normalized]. *)
Theorem rgbToCmyk_stays_in_range (c : RGBColor) (normalized : bool) :
  byteChannels c ->
  exists cmyk,
    ColorModel.rgbToCmyk c normalized = Some cmyk
    /\ let top := if normalized then 1 else 100 in
       in_range 0 top (cmyk_c cmyk) /\ in_range 0 top (cmyk_m cmyk)
       /\ in_range 0 top (cmyk_y cmyk) /\ in_range 0 top (cmyk_k cmyk).
Proof.
  destruct c as [r g b]. intros (R & G & B). cbn [rgb_r rgb_g rgb_b] in *.
  destruct (rgbToCmyk_spec r g b normalized R G B)
    as (qc & qm & qy & k & (C0 & C1) & (M0 & M1) & (Y0 & Y1) & (K0 & K1)
        & _ & _ & _ & E).
  rewrite E. eexists. split; [reflexivity|].
  destruct normalized; cbn [cmyk_c cmyk_m cmyk_y cmyk_k].
  - unfold in_range. tauto.
  - repeat split; now apply percent_spec.
Qed.

Lemma rgbToCmyk_stays_in_range_witness :
  exists cmyk,
    ColorModel.rgbToCmyk (mkRGB 0 0 0) false = Some cmyk
    /\ in_range 0 100 (cmyk_c cmyk) /\ in_range 0 100 (cmyk_m cmyk)
    /\ in_range 0 100 (cmyk_y cmyk) /\ in_range 0 100 (cmyk_k cmyk).
Proof.
  apply (rgbToCmyk_stays_in_range (mkRGB 0 0 0) false).
  vm_compute. repeat split; discriminate.
Defined.

Lemma cmykToRgb_cmykBack (C M Y K : number) :
  ColorModel.cmykToRgb (mkCMYK C M Y K) false
  = mkRGB (Js.round (cmykBack C K)) (Js.round (cmykBack M K))
          (Js.round (cmykBack Y K)).
Proof. reflexivity. Qed.

(** X25. At the default precision, [cmykToRgb] undoes [rgbToCmyk]: for
    whole channels from 0 to 255, the percentages that [rgbToCmyk] returns
    are taken back to the same three channels. *)
Theorem cmykToRgb_undoes_rgbToCmyk (r g b : Z) :
  (0 <= r <= 255)%Z -> (0 <= g <= 255)%Z -> (0 <= b <= 255)%Z ->
  exists cmyk,
    ColorModel.rgbToCmyk (mkRGB (Js.of_Z r) (Js.of_Z g) (Js.of_Z b)) false
    = Some cmyk
    /\ ColorModel.cmykToRgb cmyk false
       = mkRGB (Js.of_Z r) (Js.of_Z g) (Js.of_Z b).
Proof.
  intros Hr Hg Hb.
  assert (forall n : Z, (0 <= n <= 255)%Z -> in_range 0 255 (Js.of_Z n)) as In.
  { intros n Hn. unfold in_range, Js.of_Z. change 0%Q with (inject_Z 0).
    change 255%Q with (inject_Z 255). rewrite <- !Zle_Qle. exact Hn. }
  destruct (rgbToCmyk_spec (Js.of_Z r) (Js.of_Z g) (Js.of_Z b) false
              (In r Hr) (In g Hg) (In b Hb))
    as (qc & qm & qy & k & (C0 & C1) & (M0 & M1) & (Y0 & Y1) & (K0 & K1)
        & EC & EM & EY & E).
  rewrite E. eexists. split; [reflexivity|].
  assert (forall (n : Z) (q : Q),
             (0 <= q)%Q -> (q <= 1)%Q ->
             (q * (1 - k) == 1 - Js.of_Z n / 255 - k)%Q ->
             Js.round (cmykBack (Js.div (Js.round (Js.mul q 10000)) 100)
                                (Js.div (Js.round (Js.mul k 10000)) 100))
             = Js.of_Z n) as Inv.
  { intros n q Q0 Q1 Eq.
    destruct (cmykBack_close (1 - Js.of_Z n / 255)%Q q k Q0 Q1 K0 K1 Eq)
      as [L U].
    assert (255 * (1 - (1 - Js.of_Z n / 255)) == Js.of_Z n)%Q as Ex by field.
    apply round_close; unfold Js.of_Z in *; lra. }
  rewrite cmykToRgb_cmykBack.
  now rewrite (Inv r qc C0 C1 EC), (Inv g qm M0 M1 EM), (Inv b qy Y0 Y1 EY).
Qed.

Lemma cmykToRgb_undoes_rgbToCmyk_witness :
  exists cmyk,
    ColorModel.rgbToCmyk (mkRGB (Js.of_Z 52) (Js.of_Z 89) (Js.of_Z 199)) false
    = Some cmyk
    /\ ColorModel.cmykToRgb cmyk false
       = mkRGB (Js.of_Z 52) (Js.of_Z 89) (Js.of_Z 199).
Proof.
  apply (cmykToRgb_undoes_rgbToCmyk 52 89 199); lia.
Defined.

(** ** The range of [addToHue] *)



(** ** Light colors are light, dark colors are dark *)

Section Offsets.

Local Open Scope Q_scope.

Lemma clamp100_above (x lo : Q) :
  lo <= 100 -> lo <= x -> lo <= ColorPaletteGenerator.clamp100 x.
Proof.
  intros H1 H2. unfold ColorPaletteGenerator.clamp100.
  destruct (min_spec 100 x) as (_ & _ & [E|E]);
    destruct (max_spec 0 (Js.min 100 x)) as (_ & M & _); rewrite E in *; lra.
Qed.

Lemma clamp100_below (x hi : Q) :
  0 <= hi -> x <= hi -> ColorPaletteGenerator.clamp100 x <= hi.
Proof.
  intros H1 H2. unfold ColorPaletteGenerator.clamp100.
  destruct (min_spec 100 x) as (_ & N & _).
  destruct (max_spec 0 (Js.min 100 x)) as (_ & _ & [E|E]); rewrite E; lra.
Qed.

Import ColorPaletteGenerator.

Lemma lightColor_bounds (hue saturation value : Q) (b : ColorModel.t) :
  in_range (45 # 2) 30 saturation -> in_range (55 # 2) 35 value ->
  let c := ColorModel.hsv (lightColor hue saturation value b) in
  55 # 2 <= hsv_v c /\ hsv_s c <= 155 # 2.
Proof.
  intros [S0 S1] [V0 V1]. unfold lightColor. cbv zeta.
  destruct (new_wellFormed (ColorModel.hex b))
    as (_ & _ & (_ & (s0 & s1) & (v0 & v1))).
  unfold ColorModel.set_hsv, ColorModel.write_hex, ColorModel.write_rgb,
    ColorModel.write_hsl, ColorModel.write_hsv.
  cbn [ColorModel.hsv hsv_s hsv_v]. split.
  - apply clamp100_above; [lra|]. rewrite add_correct. lra.
  - apply clamp100_below; [lra|]. rewrite sub_correct. lra.
Qed.

Lemma darkColor_bounds (hue saturation value : Q) (b : ColorModel.t) :
  in_range (45 # 2) 30 saturation -> in_range (55 # 2) 35 value ->
  let c := ColorModel.hsv (darkColor hue saturation value b) in
  45 # 2 <= hsv_s c /\ hsv_v c <= 145 # 2.
Proof.
  intros [S0 S1] [V0 V1]. unfold darkColor. cbv zeta.
  destruct (new_wellFormed (ColorModel.hex b))
    as (_ & _ & (_ & (s0 & s1) & (v0 & v1))).
  unfold ColorModel.set_hsv, ColorModel.write_hex, ColorModel.write_rgb,
    ColorModel.write_hsl, ColorModel.write_hsv.
  cbn [ColorModel.hsv hsv_s hsv_v]. split.
  - apply clamp100_above; [lra|]. rewrite add_correct. lra.
  - apply clamp100_below; [lra|]. rewrite sub_correct. lra.
Qed.

End Offsets.

(** X27. When the draws are in the unit interval, every color of the
    light palette has a value of at least 27.5 and a saturation of at most
    77.5, and every color of the dark palette a saturation of at least
    22.5 and a value of at most 72.5: no dark color reaches the light band
    of [getDistributedPalette], which starts at a value of 87.5. *)
Theorem light_colors_are_light (rand : nat -> number)
        (g : ColorPaletteGenerator.t) (k : nat) :
  unit_interval rand ->
  let g' := fst (ColorPaletteGenerator.generatePalettes rand g k) in
  Forall (fun c => (55 # 2 <= hsv_v (ColorModel.hsv c))%Q
                   /\ (hsv_s (ColorModel.hsv c) <= 155 # 2)%Q)
         (ColorPaletteGenerator.lightPalette g')
  /\ Forall (fun c => (45 # 2 <= hsv_s (ColorModel.hsv c))%Q
                      /\ (hsv_v (ColorModel.hsv c) <= 145 # 2)%Q)
            (ColorPaletteGenerator.darkPalette g')
  /\ ColorPaletteGenerator.lightBand (ColorPaletteGenerator.darkPalette g') = [].
Proof.
  intros U g'.
  destruct (generatePalettes_shape rand g k) as (_ & L & D & _).
  fold g' in L, D.
  assert (forall n, in_range (45 # 2) 30 (rand n * (15 # 2) + (45 # 2))) as H2.
  { intros n. destruct (U n). unfold in_range.
    rewrite add_correct, mul_correct. lra. }
  assert (forall n, in_range (55 # 2) 35 (rand n * (15 # 2) + (55 # 2))) as H3.
  { intros n. destruct (U n). unfold in_range.
    rewrite add_correct, mul_correct. lra. }
  assert (Forall (fun c => (45 # 2 <= hsv_s (ColorModel.hsv c))%Q
                           /\ (hsv_v (ColorModel.hsv c) <= 145 # 2)%Q)
                 (ColorPaletteGenerator.darkPalette g')) as FD.
  { rewrite D. apply Forall_map, Forall_forall. intros b _.
    now apply darkColor_bounds. }
  split; [|split; [exact FD|]].
  - rewrite L. apply Forall_map, Forall_forall. intros b _.
    now apply lightColor_bounds.
  - unfold ColorPaletteGenerator.lightBand. clear L D. revert FD.
    generalize (ColorPaletteGenerator.darkPalette g').
    intros l. induction l as [|c l IH]; intros FD; [reflexivity|].
    inversion FD as [|? ? [_ Hc] FD']; subst.
    simpl. rewrite (IH FD').
    assert (Js.le (175 # 2) (hsv_v (ColorModel.hsv c)) = false) as F.
    { unfold Js.le. destruct (Qle_bool (175 # 2) (hsv_v (ColorModel.hsv c))) eqn:E;
        [|reflexivity].
      apply Qle_bool_iff in E. lra. }
    now rewrite F.
Qed.

Lemma light_colors_are_light_witness :
  ColorPaletteGenerator.lightBand
    (ColorPaletteGenerator.darkPalette
       (fst (ColorPaletteGenerator.generatePalettes cyclicRand
               (ColorPaletteGenerator.mk 2 180 (ColorModel.new "#3459c7")
                  (mkPalettes [] [] [])) 0%nat))) = [].
Proof.
  apply (light_colors_are_light cyclicRand
           (ColorPaletteGenerator.mk 2 180 (ColorModel.new "#3459c7")
              (mkPalettes [] [] [])) 0%nat cyclicRand_unit).
Defined.

(** ** Clones *)

(** X28. A clone is read back from the code: it has the same code and is
    [equals] to the original; the clone of a color built from a string is
    that color again; and when the code denotes the rounded channels of
    the original, as it does after a setter or an adjustment, the clone
    has these rounded channels and is in range. *)
Theorem clone_reads_the_code_back (c : ColorModel.t) :
  ColorModel.hex (ColorModel.clone c) = ColorModel.hex c
  /\ ColorModel.equals (ColorModel.clone c) c = true
  /\ (forall hexCode, c = ColorModel.new hexCode -> ColorModel.clone c = c)
  /\ (coherentHex c ->
      ColorModel.rgb (ColorModel.clone c) = roundedChannels (ColorModel.rgb c)
      /\ wellFormed (ColorModel.clone c) /\ coherentHex (ColorModel.clone c)).
Proof.
  split; [reflexivity|]. split; [|split].
  - unfold ColorModel.equals. apply String.eqb_refl.
  - intros hexCode ->. reflexivity.
  - intros [P E].
    assert (ColorModel.rgb (ColorModel.clone c)
            = roundedChannels (ColorModel.rgb c)) as R by exact E.
    split; [exact R|]. split; [apply new_wellFormed|].
    split; [exact P|].
    change (ColorModel.hex (ColorModel.clone c)) with (ColorModel.hex c).
    rewrite R, E. unfold roundedChannels, Js.round. cbn [rgb_r rgb_g rgb_b].
    now rewrite !roundZ_of_Z.
Qed.

Lemma clone_reads_the_code_back_witness :
  ColorModel.rgb (ColorModel.clone
                    (ColorModel.saturate 0 100 0 (ColorModel.new "#3459c7")))
  = roundedChannels
      (ColorModel.rgb (ColorModel.saturate 0 100 0 (ColorModel.new "#3459c7"))).
Proof.
  apply (clone_reads_the_code_back
           (ColorModel.saturate 0 100 0 (ColorModel.new "#3459c7"))).
  apply saturate_sound; try discriminate. apply new_wellFormed.
Defined.

(** ** The two ends of the base palette *)

Lemma one_to_last (p : Z) :
  (1 <= p)%Z -> one_to p = one_to (p - 1) ++ [p].
Proof.
  intros H. unfold one_to.
  replace (Z.to_nat p) with (S (Z.to_nat (p - 1))) by lia.
  rewrite seq_S, map_app. simpl. f_equal. f_equal. lia.
Qed.

Section Ends.

Local Open Scope Q_scope.

Import ColorPaletteGenerator.

Lemma clamp100_within (x y lo hi : Q) :
  x == y -> 0 <= lo -> hi <= 100 -> in_range lo hi y ->
  in_range lo hi (clamp100 x).
Proof.
  intros E L H [Y0 Y1]. split.
  - apply clamp100_above; lra.
  - apply clamp100_below; lra.
Qed.

Lemma baseColorUp_end (g : t) (hueStep es ev : Q) (lo hi lo' hi' : Q) :
  (1 <= precision g)%Z ->
  0 <= lo -> hi <= 100 -> in_range lo hi es ->
  0 <= lo' -> hi' <= 100 -> in_range lo' hi' ev ->
  let c := ColorModel.hsv (baseColorUp g hueStep es ev (precision g)) in
  in_range lo hi (hsv_s c) /\ in_range lo' hi' (hsv_v c).
Proof.
  intros P L H S L' H' V. unfold baseColorUp. cbv zeta.
  unfold ColorModel.set_hsv, ColorModel.write_hex, ColorModel.write_rgb,
    ColorModel.write_hsl, ColorModel.write_hsv.
  cbn [ColorModel.hsv hsv_s hsv_v].
  assert (~ inject_Z (precision g) == 0) as N.
  { change 0 with (inject_Z 0). rewrite inject_Z_injective. lia. }
  split.
  - apply (clamp100_within _ es); try assumption.
    unfold Js.sub, Js.div, Js.mul, Js.of_Z. rewrite !Qred_correct.
    field. exact N.
  - apply (clamp100_within _ ev); try assumption.
    unfold Js.add, Js.sub, Js.div, Js.mul, Js.of_Z. rewrite !Qred_correct.
    field. exact N.
Qed.

Lemma baseColorDown_end (g : t) (hueStep es ev : Q) (lo hi lo' hi' : Q) :
  (1 <= precision g)%Z ->
  0 <= lo -> hi <= 100 -> in_range lo hi es ->
  0 <= lo' -> hi' <= 100 -> in_range lo' hi' ev ->
  let c := ColorModel.hsv (baseColorDown g hueStep es ev (precision g)) in
  in_range lo hi (hsv_s c) /\ in_range lo' hi' (hsv_v c).
Proof.
  intros P L H S L' H' V. unfold baseColorDown. cbv zeta.
  unfold ColorModel.set_hsv, ColorModel.write_hex, ColorModel.write_rgb,
    ColorModel.write_hsl, ColorModel.write_hsv.
  cbn [ColorModel.hsv hsv_s hsv_v].
  assert (~ inject_Z (precision g) == 0) as N.
  { change 0 with (inject_Z 0). rewrite inject_Z_injective. lia. }
  split.
  - apply (clamp100_within _ es); try assumption.
    unfold Js.add, Js.sub, Js.div, Js.mul, Js.of_Z. rewrite !Qred_correct.
    field. exact N.
  - apply (clamp100_within _ ev); try assumption.
    unfold Js.sub, Js.div, Js.mul, Js.of_Z. rewrite !Qred_correct.
    field. exact N.
Qed.

End Ends.



(** ** Setting the base color *)


